(** * Opencode-Chatifier: the patch engine, the chunker and the text helpers

    A shallow embedding of the patch parser, the sequence matcher, the
    patch applier and the file mutator of [util/patch.ts], of the
    [chat_patch] tool that runs them, of the chunker of the semantic index,
    of [replaceOnce] and of [cosineSimilarity], with the properties the
    specification states about them and further properties of the code.

    Conventions of the embedding.
    - A JavaScript string is a [string]: a sequence of code units, here
      restricted to the 256 values of [ascii].
    - A JavaScript number used as an index or as a length is a [Z]; the
      sentinel [-1] of [findIndex], [indexOf] and [seekSequence] is the
      integer [-1].  The cursors of the parser, which only ever count
      upwards from a found index, are [nat].
    - [lines[i]] is a lookup that yields [None] for [undefined].
    - A thrown exception is the [Throw] outcome of [Result].
    - A loop over an array is a recursion over the elements that are left,
      with the index of the first of them.
    - A JavaScript number that is computed with is a binary64 float, a
      [spec_float] with the operations of [SpecFloat] at 53 bits of
      mantissa.  An element of a [Float32Array] is read as the double of
      the same value, so a vector is the list of these doubles; what is
      proved holds for every list of doubles. *)

From Stdlib Require Import Ascii.
From Stdlib Require SpecFloat.
From stdpp Require Import base numbers list strings gmap sorting.

Local Open Scope Z_scope.

(** ** JavaScript string primitives *)

Module JS.

(** [s.startsWith(p)] *)
Fixpoint startsWith (p s : string) : bool :=
  match p, s with
  | EmptyString, _ => true
  | String a p', String b s' => if Ascii.eqb a b then startsWith p' s' else false
  | String _ _, EmptyString => false
  end.

Arguments startsWith : simpl never.

(** [s.substring(n)]: the string without its first [n] code units. *)
Fixpoint substring (n : nat) (s : string) : string :=
  match n, s with
  | O, _ => s
  | S n', String _ s' => substring n' s'
  | S _, EmptyString => EmptyString
  end.

Arguments substring : simpl never.

(** White space of [String.prototype.trim] among the code units below 256:
    TAB, LF, VT, FF, CR, SP and NBSP. *)
Definition isWhiteSpace (c : ascii) : bool :=
  match Ascii.N_of_ascii c with
  | 9%N | 10%N | 11%N | 12%N | 13%N | 32%N | 160%N => true
  | _ => false
  end.

Fixpoint trimStart (s : string) : string :=
  match s with
  | EmptyString => EmptyString
  | String c s' => if isWhiteSpace c then trimStart s' else s
  end.

Fixpoint trimEnd (s : string) : string :=
  match s with
  | EmptyString => EmptyString
  | String c s' =>
      match trimEnd s' with
      | EmptyString => if isWhiteSpace c then EmptyString else String c EmptyString
      | t => String c t
      end
  end.

(** [s.trim()] *)
Definition trim (s : string) : string := trimEnd (trimStart s).

(** The pieces of [s.split(sep)] for a one-character separator: the first
    piece and the pieces after it.  There is always a first piece. *)
Fixpoint splitPieces (sep : ascii) (s : string) : string * list string :=
  match s with
  | EmptyString => (EmptyString, [])
  | String c s' =>
      let (w, ws) := splitPieces sep s' in
      if Ascii.eqb c sep then (EmptyString, w :: ws) else (String c w, ws)
  end.

(** [s.split(sep)] *)
Definition split (sep : ascii) (s : string) : list string :=
  let (w, ws) := splitPieces sep s in w :: ws.

(** [s.split(sep, limit)] keeps the first [limit] pieces. *)
Definition splitLimit (sep : ascii) (limit : nat) (s : string) : list string :=
  take limit (split sep s).

(** [a.join(sep)] *)
Fixpoint join (sep : string) (a : list string) : string :=
  match a with
  | [] => EmptyString
  | [x] => x
  | x :: rest => x +:+ sep +:+ join sep rest
  end.

(** [s.endsWith(p)] *)
Fixpoint endsWith (p s : string) : bool :=
  bool_decide (s = p)
  || match s with
     | EmptyString => false
     | String _ s' => endsWith p s'
     end.

(** [s.slice(0, -1)] on a string: all but the last code unit. *)
Fixpoint sliceInit (s : string) : string :=
  match s with
  | EmptyString => EmptyString
  | String c EmptyString => EmptyString
  | String c s' => String c (sliceInit s')
  end.

(** The truthiness of an optional string: [undefined] and [""] are falsy. *)
Definition truthy (o : option string) : bool :=
  match o with
  | Some s => negb (bool_decide (s = EmptyString))
  | None => false
  end.

(** [x || undefined] for a string [x]. *)
Definition orUndefined (s : string) : option string :=
  if bool_decide (s = EmptyString) then None else Some s.

(** [a[i]] for an integer index: [undefined] outside the array. *)
Definition at_ {A} (a : list A) (i : Z) : option A :=
  if bool_decide (i < 0) then None else a !! Z.to_nat i.

(** [a.length] *)
Definition len {A} (a : list A) : Z := Z.of_nat (length a).

(** [a.slice(0, -1)] on an array: all but the last element. *)
Definition dropLast {A} (a : list A) : list A := take (length a - 1)%nat a.

(** The array after [a.splice(start, deleteCount, ...items)], with the
    standard's clamping of both numbers. *)
Definition splice {A} (a : list A) (start deleteCount : Z) (items : list A) : list A :=
  let n := len a in
  let actualStart := if bool_decide (start < 0) then Z.max (n + start) 0 else Z.min start n in
  let actualDeleteCount := Z.min (Z.max deleteCount 0) (n - actualStart) in
  take (Z.to_nat actualStart) a ++ items ++ drop (Z.to_nat (actualStart + actualDeleteCount)) a.

(** [a.findIndex(p)]: the first index whose element satisfies [p], or [-1]. *)
Fixpoint findIndexFrom {A} (p : A → bool) (a : list A) (i : Z) : Z :=
  match a with
  | [] => -1
  | x :: rest => if p x then i else findIndexFrom p rest (i + 1)
  end.

Definition findIndex {A} (p : A → bool) (a : list A) : Z := findIndexFrom p a 0.

End JS.

Definition newline : ascii := Ascii.ascii_of_nat 10.
Definition NL : string := String newline EmptyString.

(** ** Outcomes *)

Inductive Error : Type :=
| InvalidPatchFormat
| TypeError
| ContextNotFound (context filePath : string)
| ExpectedLinesNotFound (filePath : string) (old_lines : list string)
| NoFilesModified
| FsError (code path : string).

(** What a call comes to: a value, an exception, or, for the loops that the
    embedding runs on fuel, the end of the fuel (shown below not to occur). *)
Inductive Result (A : Type) : Type :=
| Ok (a : A)
| Throw (e : Error)
| OutOfFuel.
Arguments Ok {A} a.
Arguments Throw {A} e.
Arguments OutOfFuel {A}.

#[export] Instance Result_ret : MRet Result := λ A a, Ok a.
#[export] Instance Result_bind : MBind Result := λ A B k r,
  match r with
  | Ok a => k a
  | Throw e => Throw e
  | OutOfFuel => OutOfFuel
  end.

(** ** Sequence matcher *)

(** The inner loop of [seekSequence]: [pattern] holds the elements from
    index [j] on; [lines[i + j] !== pattern[j]] ends the comparison. *)
Fixpoint matchesFrom (lines : list string) (i : Z) (pattern : list string) (j : Z) : bool :=
  match pattern with
  | [] => true
  | p :: rest =>
      if bool_decide (JS.at_ lines (i + j) = Some p)
      then matchesFrom lines i rest (j + 1)
      else false
  end.

(** The outer loop, [for (i = startIndex; i <= lines.length - pattern.length; i++)];
    it runs at most [fuel] times. *)
Fixpoint seekLoop (lines pattern : list string) (fuel : nat) (i : Z) : Z :=
  match fuel with
  | O => -1
  | S fuel' =>
      if bool_decide (i ≤ JS.len lines - JS.len pattern) then
        if matchesFrom lines i pattern 0 then i
        else seekLoop lines pattern fuel' (i + 1)
      else -1
  end.

Definition seekSequence (lines pattern : list string) (startIndex : Z) : Z :=
  if bool_decide (JS.len pattern = 0) then -1
  else seekLoop lines pattern
         (S (Z.to_nat (JS.len lines - JS.len pattern - startIndex + 1))) startIndex.

(** ** Data model *)

Record UpdateChunk : Type := mkUpdateChunk {
  old_lines : list string;
  new_lines : list string;
  change_context : option string;
  is_end_of_file : option bool
}.

Inductive Hunk : Type :=
| AddHunk (path contents : string)
| DeleteHunk (path : string)
| UpdateHunk (path : string) (move_path : option string) (chunks : list UpdateChunk).

Record AffectedPaths : Type := mkAffectedPaths {
  added : list string;
  modified : list string;
  deleted : list string
}.

(** A replacement [[startIdx, oldLen, newSegment]]. *)
Definition Replacement : Type := Z * Z * list string.

Definition repStart (r : Replacement) : Z := r.1.1.
Definition repLen (r : Replacement) : Z := r.1.2.
Definition repSegment (r : Replacement) : list string := r.2.

(** ** Patch applier *)

(** The first step of a turn of the loop of [computeReplacements]: with a
    change context, its index from the cursor on becomes [contextIdx] and the
    cursor; without one, [contextIdx] stays [-1].  The result is
    [(contextIdx, lineIndex)]. *)
Definition locateContext (originalLines : list string) (filePath : string)
    (chunk : UpdateChunk) (lineIndex : Z) : Result (Z * Z) :=
  match change_context chunk with
  | Some context =>
      if JS.truthy (Some context) then
        let contextIdx := seekSequence originalLines [context] lineIndex in
        if bool_decide (contextIdx = -1) then Throw (ContextNotFound context filePath)
        else Ok (contextIdx, contextIdx)
      else Ok (-1, lineIndex)
  | None => Ok (-1, lineIndex)
  end.

(** The search for the old lines, with its second try without a last empty
    line.  The result is [(pattern, newSlice, found)]. *)
Definition locateOldLines (originalLines : list string) (chunk : UpdateChunk)
    (lineIndex : Z) : list string * list string * Z :=
  let pattern := old_lines chunk in
  let newSlice := new_lines chunk in
  let found := seekSequence originalLines pattern lineIndex in
  if bool_decide (found = -1) && bool_decide (0 < JS.len pattern)
     && bool_decide (JS.at_ pattern (JS.len pattern - 1) = Some EmptyString)
  then
    let pattern := JS.dropLast pattern in
    let newSlice :=
      if bool_decide (0 < JS.len newSlice)
         && bool_decide (JS.at_ newSlice (JS.len newSlice - 1) = Some EmptyString)
      then JS.dropLast newSlice else newSlice in
    (pattern, newSlice, seekSequence originalLines pattern lineIndex)
  else (pattern, newSlice, found).

(** One turn of the loop [for (const chunk of chunks)] of
    [computeReplacements], on the loop's variables [replacements] and
    [lineIndex]. *)
Definition chunkStep (originalLines : list string) (filePath : string)
    (st : list Replacement * Z) (chunk : UpdateChunk) : Result (list Replacement * Z) :=
  let '(replacements, lineIndex) := st in
  '(contextIdx, lineIndex) ← locateContext originalLines filePath chunk lineIndex;
  if bool_decide (JS.len (old_lines chunk) = 0) then
    if JS.truthy (change_context chunk) && negb (bool_decide (contextIdx = -1))
    then Ok (replacements ++ [(contextIdx, 1, new_lines chunk)], lineIndex)
    else Ok (replacements ++ [(JS.len originalLines, 0, new_lines chunk)], lineIndex)
  else
    let '(pattern, newSlice, found) := locateOldLines originalLines chunk lineIndex in
    if negb (bool_decide (found = -1))
    then Ok (replacements ++ [(found, JS.len pattern, newSlice)], found + JS.len pattern)
    else Throw (ExpectedLinesNotFound filePath (old_lines chunk)).

Arguments chunkStep : simpl never.

Fixpoint chunkLoop (originalLines : list string) (filePath : string)
    (chunks : list UpdateChunk) (st : list Replacement * Z) : Result (list Replacement * Z) :=
  match chunks with
  | [] => Ok st
  | chunk :: rest =>
      match chunkStep originalLines filePath st chunk with
      | Ok st' => chunkLoop originalLines filePath rest st'
      | Throw e => Throw e
      | OutOfFuel => OutOfFuel
      end
  end.

(** [replacements.sort((a, b) => a[0] - b[0])]: the sort is stable, so an
    element stays before the elements after it that do not compare lower. *)
Fixpoint insertByStart (r : Replacement) (sorted : list Replacement) : list Replacement :=
  match sorted with
  | [] => [r]
  | x :: rest =>
      if bool_decide (repStart r - repStart x ≤ 0) then r :: x :: rest
      else x :: insertByStart r rest
  end.

Definition sortByStart (replacements : list Replacement) : list Replacement :=
  foldr insertByStart [] replacements.

Definition computeReplacements (originalLines : list string) (filePath : string)
    (chunks : list UpdateChunk) : Result (list Replacement) :=
  match chunkLoop originalLines filePath chunks ([], 0) with
  | Ok (replacements, _) => Ok (sortByStart replacements)
  | Throw e => Throw e
  | OutOfFuel => OutOfFuel
  end.

(** [for (j = 0; j < newSegment.length; j++) result.splice(startIdx + j, 0, newSegment[j])];
    [newSegment] holds the elements from index [j] on. *)
Fixpoint insertSegment (result : list string) (startIdx : Z) (newSegment : list string)
    (j : Z) : list string :=
  match newSegment with
  | [] => result
  | x :: rest => insertSegment (JS.splice result (startIdx + j) 0 [x]) startIdx rest (j + 1)
  end.

Definition applyReplacement (r : Replacement) (result : list string) : list string :=
  let '(startIdx, oldLen, newSegment) := r in
  insertSegment (JS.splice result startIdx oldLen []) startIdx newSegment 0.

(** The loop runs from the last replacement down to the first. *)
Definition applyReplacements (lines : list string) (replacements : list Replacement)
    : list string :=
  foldr applyReplacement lines replacements.

(** The lines of a file as [deriveNewContents] reads them: split at the
    newlines, one empty last element dropped. *)
Definition readLines (originalContent : string) : list string :=
  let originalLines := JS.split newline originalContent in
  if bool_decide (0 < JS.len originalLines)
     && bool_decide (JS.at_ originalLines (JS.len originalLines - 1) = Some EmptyString)
  then JS.dropLast originalLines
  else originalLines.

(** The end of [deriveNewContents]: an empty last element unless there is
    one, then the join. *)
Definition writeLines (newLines : list string) : string :=
  let newLines :=
    if bool_decide (JS.len newLines = 0)
       || negb (bool_decide (JS.at_ newLines (JS.len newLines - 1) = Some EmptyString))
    then newLines ++ [EmptyString]
    else newLines in
  JS.join NL newLines.

(** [deriveNewContents] from the content [readFileSync] returned. *)
Definition deriveNewContentsOf (originalContent filePath : string)
    (chunks : list UpdateChunk) : Result string :=
  let originalLines := readLines originalContent in
  match computeReplacements originalLines filePath chunks with
  | Throw e => Throw e
  | OutOfFuel => OutOfFuel
  | Ok replacements => Ok (writeLines (applyReplacements originalLines replacements))
  end.

(** ** Patch parser *)

Record Header : Type := mkHeader {
  filePath : string;
  movePath : option string;
  nextIdx : nat
}.

(** [line.split(":", 2)[1]?.trim()] *)
Definition headerPath (line : string) : option string :=
  JS.trim <$> (JS.splitLimit ":" 2 line !! 1%nat).

(** [filePath ? { filePath, movePath, nextIdx } : null] *)
Definition headerOf (filePath movePath : option string) (nextIdx : nat) : option Header :=
  match filePath with
  | Some p => if JS.truthy (Some p) then Some (mkHeader p movePath nextIdx) else None
  | None => None
  end.

(** [lines[idx]] is read without a bounds test: on [undefined] the call of
    [startsWith] raises a [TypeError]. *)
Definition parsePatchHeader (lines : list string) (idx : nat) : Result (option Header) :=
  match lines !! idx with
  | None => Throw TypeError
  | Some line =>
      if JS.startsWith "*** Add File:" line then
        Ok (headerOf (headerPath line) None (idx + 1))
      else if JS.startsWith "*** Delete File:" line then
        Ok (headerOf (headerPath line) None (idx + 1))
      else if JS.startsWith "*** Update File:" line then
        let next := (idx + 1)%nat in
        match lines !! next with
        | Some moveLine =>
            if JS.startsWith "*** Move to:" moveLine
            then Ok (headerOf (headerPath line) (headerPath moveLine) (next + 1))
            else Ok (headerOf (headerPath line) None next)
        | None => Ok (headerOf (headerPath line) None next)
        end
      else Ok None
  end.

(** The inner loop of [parseUpdateChunks], from [i] on, with the loop's
    variables; it returns them with the index it stopped at. *)
Fixpoint chunkLines (lines : list string) (fuel i : nat) (oldLines newLines : list string)
    : Result (nat * list string * list string * bool) :=
  match lines !! i with
  | None => Ok (i, oldLines, newLines, false)
  | Some changeLine =>
      if JS.startsWith "@@" changeLine || JS.startsWith "***" changeLine
      then Ok (i, oldLines, newLines, false)
      else
        match fuel with
        | O => OutOfFuel
        | S fuel' =>
            if bool_decide (changeLine = "*** End of File") then
              Ok ((i + 1)%nat, oldLines, newLines, true)
            else if JS.startsWith " " changeLine then
              let content := JS.substring 1 changeLine in
              chunkLines lines fuel' (i + 1) (oldLines ++ [content]) (newLines ++ [content])
            else if JS.startsWith "-" changeLine then
              chunkLines lines fuel' (i + 1) (oldLines ++ [JS.substring 1 changeLine]) newLines
            else if JS.startsWith "+" changeLine then
              chunkLines lines fuel' (i + 1) oldLines (newLines ++ [JS.substring 1 changeLine])
            else chunkLines lines fuel' (i + 1) oldLines newLines
        end
  end.

(** The outer loop of [parseUpdateChunks]. *)
Fixpoint updateLoop (lines : list string) (fuel i : nat) (chunks : list UpdateChunk)
    : Result (list UpdateChunk * nat) :=
  match lines !! i with
  | None => Ok (chunks, i)
  | Some line =>
      if JS.startsWith "***" line then Ok (chunks, i)
      else
        match fuel with
        | O => OutOfFuel
        | S fuel' =>
            if JS.startsWith "@@" line then
              let contextLine := JS.trim (JS.substring 2 line) in
              '(i', oldLines, newLines, isEndOfFile) ←
                chunkLines lines (length lines) (i + 1) [] [];
              updateLoop lines fuel' i'
                (chunks ++ [mkUpdateChunk oldLines newLines (JS.orUndefined contextLine)
                              (if (isEndOfFile : bool) then Some true else None)])
            else updateLoop lines fuel' (i + 1) chunks
        end
  end.

Definition parseUpdateChunks (lines : list string) (startIdx : nat)
    : Result (list UpdateChunk * nat) :=
  updateLoop lines (length lines) startIdx [].

(** The loop of [parseAddContent]. *)
Fixpoint addLoop (lines : list string) (fuel i : nat) (content : string)
    : Result (string * nat) :=
  match lines !! i with
  | None => Ok (content, i)
  | Some line =>
      if JS.startsWith "***" line then Ok (content, i)
      else
        match fuel with
        | O => OutOfFuel
        | S fuel' =>
            addLoop lines fuel' (i + 1)
              (if JS.startsWith "+" line then content +:+ JS.substring 1 line +:+ NL
               else content)
        end
  end.

Definition parseAddContent (lines : list string) (startIdx : nat) : Result (string * nat) :=
  '(content, i) ← addLoop lines (length lines) startIdx EmptyString;
  Ok (if JS.endsWith NL content then JS.sliceInit content else content, i).

(** The loop [while (i < endIdx)] of [parsePatch]. *)
Fixpoint hunkLoop (lines : list string) (endIdx fuel i : nat) (hunks : list Hunk)
    : Result (list Hunk) :=
  if bool_decide (i < endIdx)%nat then
    match fuel with
    | O => OutOfFuel
    | S fuel' =>
        header ← parsePatchHeader lines i;
        match header with
        | None => hunkLoop lines endIdx fuel' (i + 1) hunks
        | Some header =>
            match lines !! i with
            | None => Throw TypeError
            | Some line =>
                if JS.startsWith "*** Add File:" line then
                  '(content, next) ← parseAddContent lines (nextIdx header);
                  hunkLoop lines endIdx fuel' next
                    (hunks ++ [AddHunk (filePath header) content])
                else if JS.startsWith "*** Delete File:" line then
                  hunkLoop lines endIdx fuel' (nextIdx header)
                    (hunks ++ [DeleteHunk (filePath header)])
                else if JS.startsWith "*** Update File:" line then
                  '(chunks, next) ← parseUpdateChunks lines (nextIdx header);
                  hunkLoop lines endIdx fuel' next
                    (hunks ++ [UpdateHunk (filePath header) (movePath header) chunks])
                else hunkLoop lines endIdx fuel' (i + 1) hunks
            end
        end
    end
  else Ok hunks.

Definition isBeginMarker (line : string) : bool :=
  bool_decide (JS.trim line = "*** Begin Patch").

Definition isEndMarker (line : string) : bool :=
  bool_decide (JS.trim line = "*** End Patch").

Definition parsePatch (patchText : string) : Result (list Hunk) :=
  let lines := JS.split newline patchText in
  let beginIdx := JS.findIndex isBeginMarker lines in
  let endIdx := JS.findIndex isEndMarker lines in
  if bool_decide (beginIdx = -1) || bool_decide (endIdx = -1) || bool_decide (beginIdx >= endIdx)
  then Throw InvalidPatchFormat
  else hunkLoop lines (Z.to_nat endIdx) (Z.to_nat endIdx) (Z.to_nat (beginIdx + 1)) [].

(** ** File mutator *)

(** What [applyHunksToFiles] asks of Node: [path.dirname] and four calls of
    [fs].  A call of [fs] takes the file system to a new one and returns or
    throws; a throwing call may still have changed the file system. *)
Class Platform (FS : Type) : Type := {
  path_dirname : string → string;
  fs_readFileSync : string → FS → Result string;
  fs_mkdir_recursive : string → FS → FS * Result ();
  fs_writeFile : string → string → FS → FS * Result ();
  fs_unlink : string → FS → FS * Result ()
}.

(** A platform on which a file that was written reads back as written. *)
Class ReadsBackWrites (FS : Type) `{!Platform FS} : Prop :=
  read_after_write : ∀ (p contents : string) (fs fs' : FS),
    fs_writeFile p contents fs = (fs', Ok ()) →
    fs_readFileSync p fs' = Ok contents.

(** A computation on the file system: the state is threaded through, and an
    exception leaves the state as it was when it was thrown. *)
Definition IO (FS A : Type) : Type := FS → FS * Result A.

Section Mutator.
Context {FS : Type} `{!Platform FS}.

Definition io_ret {A} (a : A) : IO FS A := λ fs, (fs, Ok a).

Definition io_throw {A} (e : Error) : IO FS A := λ fs, (fs, Throw e).

Definition io_bind {A B} (m : IO FS A) (k : A → IO FS B) : IO FS B := λ fs,
  match m fs with
  | (fs', Ok a) => k a fs'
  | (fs', Throw e) => (fs', Throw e)
  | (fs', OutOfFuel) => (fs', OutOfFuel)
  end.

Definition deriveNewContents (filePath : string) (chunks : list UpdateChunk)
    : IO FS string := λ fs,
  match fs_readFileSync filePath fs with
  | Ok originalContent => (fs, deriveNewContentsOf originalContent filePath chunks)
  | Throw e => (fs, Throw e)
  | OutOfFuel => (fs, OutOfFuel)
  end.

(** [if (dir !== "." && dir !== "/") await fs.mkdir(dir, { recursive: true })] *)
Definition ensureDir (p : string) : IO FS () :=
  let dir := path_dirname p in
  if negb (bool_decide (dir = ".")) && negb (bool_decide (dir = "/"))
  then fs_mkdir_recursive dir
  else io_ret ().

(** The body of the loop [for (const hunk of hunks)], on the three lists
    the loop fills. *)
Definition applyHunk (hunk : Hunk) (acc : AffectedPaths) : IO FS AffectedPaths :=
  match hunk with
  | AddHunk path contents =>
      io_bind (ensureDir path) (λ _,
      io_bind (fs_writeFile path contents) (λ _,
      io_ret (mkAffectedPaths (added acc ++ [path]) (modified acc) (deleted acc))))
  | DeleteHunk path =>
      io_bind (fs_unlink path) (λ _,
      io_ret (mkAffectedPaths (added acc) (modified acc) (deleted acc ++ [path])))
  | UpdateHunk path move_path chunks =>
      io_bind (deriveNewContents path chunks) (λ content,
      match move_path with
      | Some target =>
          if JS.truthy (Some target) then
            io_bind (ensureDir target) (λ _,
            io_bind (fs_writeFile target content) (λ _,
            io_bind (fs_unlink path) (λ _,
            io_ret (mkAffectedPaths (added acc) (modified acc ++ [target]) (deleted acc)))))
          else
            io_bind (fs_writeFile path content) (λ _,
            io_ret (mkAffectedPaths (added acc) (modified acc ++ [path]) (deleted acc)))
      | None =>
          io_bind (fs_writeFile path content) (λ _,
          io_ret (mkAffectedPaths (added acc) (modified acc ++ [path]) (deleted acc)))
      end)
  end.

Fixpoint hunksLoop (hunks : list Hunk) (acc : AffectedPaths) : IO FS AffectedPaths :=
  match hunks with
  | [] => io_ret acc
  | hunk :: rest => io_bind (applyHunk hunk acc) (hunksLoop rest)
  end.

Definition applyHunksToFiles (hunks : list Hunk) : IO FS AffectedPaths :=
  if bool_decide (JS.len hunks = 0) then io_throw NoFilesModified
  else hunksLoop hunks (mkAffectedPaths [] [] []).

End Mutator.

(** *** A file system in memory

    Files by path; directories are not recorded, so [mkdir] changes
    nothing and a write never fails.  Reading or unlinking a path with no
    file throws [ENOENT]. *)
Module MemFS.

Definition dirnameLoop : string → string * bool :=
  fix go (s : string) : string * bool :=
    match s with
    | EmptyString => (EmptyString, false)
    | String c s' =>
        let (d, found) := go s' in
        if found then (String c d, true)
        else if Ascii.eqb c "/" then (EmptyString, true)
        else (EmptyString, false)
    end.

(** The part before the last ["/"]; ["."] without one, ["/"] when the only
    one comes first. *)
Definition dirname (p : string) : string :=
  match dirnameLoop p with
  | (_, false) => "."
  | (EmptyString, true) => "/"
  | (d, true) => d
  end.

#[global] Instance platform : Platform (gmap string string) := {
  path_dirname := dirname;
  fs_readFileSync p fs :=
    match fs !! p with
    | Some contents => Ok contents
    | None => Throw (FsError "ENOENT" p)
    end;
  fs_mkdir_recursive _ fs := (fs, Ok ());
  fs_writeFile p contents fs := (<[p := contents]> fs, Ok ());
  fs_unlink p fs :=
    match fs !! p with
    | Some _ => (delete p fs, Ok ())
    | None => (fs, Throw (FsError "ENOENT" p))
    end
}.

End MemFS.

(** ** The [chat_patch] tool *)

Section ChatPatch.
Context {FS : Type} `{!Platform FS}.

(** [path.resolve(baseDir, p)], for the tool's [baseDir]. *)
Variable resolve : string → string.

(** The function mapped over the hunks by [run]. *)
Definition resolveHunk (hunk : Hunk) : Hunk :=
  match hunk with
  | UpdateHunk path (Some target) chunks =>
      if JS.truthy (Some target)
      then UpdateHunk (resolve path) (Some (resolve target)) chunks
      else UpdateHunk (resolve path) (Some target) chunks
  | UpdateHunk path None chunks => UpdateHunk (resolve path) None chunks
  | AddHunk path contents => AddHunk (resolve path) contents
  | DeleteHunk path => DeleteHunk (resolve path)
  end.

(** The three optional lines of the summary. *)
Definition summaryLines (result : AffectedPaths) : list string :=
  (if bool_decide (JS.len (added result) = 0) then []
   else ["Added: " +:+ JS.join ", " (added result)])
  ++ (if bool_decide (JS.len (modified result) = 0) then []
      else ["Modified: " +:+ JS.join ", " (modified result)])
  ++ (if bool_decide (JS.len (deleted result) = 0) then []
      else ["Deleted: " +:+ JS.join ", " (deleted result)]).

Definition summaryOf (result : AffectedPaths) : string :=
  let summary := summaryLines result in
  if bool_decide (JS.len summary = 0) then "No changes applied"
  else JS.join NL summary.

(** [run] of [createChatPatch]. *)
Definition chatPatchRun (patchText : string) : IO FS string :=
  match parsePatch patchText with
  | Ok hunks =>
      io_bind (applyHunksToFiles (resolveHunk <$> hunks)) (λ result,
      io_ret (summaryOf result))
  | Throw e => io_throw e
  | OutOfFuel => λ fs, (fs, OutOfFuel)
  end.

End ChatPatch.


(** ** Semantic chunker *)

Module Chunker.

Record Chunk : Type := mkChunk {
  path : string;
  startLine : Z;
  endLine : Z;
  content : string
}.

Definition MAX_CHUNK_CHARS : Z := 6000.

(** [s.length] *)
Definition strlen (s : string) : Z := Z.of_nat (String.length s).

Definition linesToText (lines : list string) : string := JS.join NL lines.

(** *** [chunkText] *)

(** The variables of the loop of [chunkText]. *)
Record TextState : Type := mkTextState {
  chunks : list Chunk;
  current : list string;
  currentStart : Z;
  currentLen : Z
}.

(** The chunk that [chunkText] pushes for [current]. *)
Definition currentChunk (filePath : string) (st : TextState) : Chunk :=
  mkChunk filePath (currentStart st)
    (currentStart st + JS.len (current st) - 1) (linesToText (current st)).

(** One turn of the loop, for the line [lines[i]]. *)
Definition textStep (filePath : string) (st : TextState) (i : Z) (line : string)
    : TextState :=
  let nextLen := currentLen st + strlen line + 1 in
  let st :=
    if bool_decide (0 < currentLen st) && bool_decide (MAX_CHUNK_CHARS < nextLen)
    then mkTextState (chunks st ++ [currentChunk filePath st]) [] (currentStart st) 0
    else st in
  let start := if bool_decide (JS.len (current st) = 0) then i + 1 else currentStart st in
  mkTextState (chunks st) (current st ++ [line]) start (currentLen st + strlen line + 1).

(** The loop [for (let i = 0; i < lines.length; i++)], with the lines from
    index [i] on. *)
Fixpoint textLoop (filePath : string) (rest : list string) (i : Z) (st : TextState)
    : TextState :=
  match rest with
  | [] => st
  | line :: rest' => textLoop filePath rest' (i + 1) (textStep filePath st i line)
  end.

Definition chunkText (filePath text : string) : list Chunk :=
  let lines := JS.split newline text in
  let st := textLoop filePath lines 0 (mkTextState [] [] 1 0) in
  if bool_decide (0 < JS.len (current st))
  then chunks st ++ [currentChunk filePath st]
  else chunks st.

(** *** [splitByParagraphs] *)

(** An element [{ start, end, lines }]. *)
Record Span : Type := mkSpan {
  start : Z;
  end_ : Z;
  lines : list string
}.

(** The first loop: the paragraphs, each ended by a line that is blank
    once trimmed.  Its variables are [paragraphs], [current] and
    [currentStart]. *)
Definition paragraphStep (startLine : Z) (st : list Span * list string * Z)
    (i : Z) (line : string) : list Span * list string * Z :=
  let '(paragraphs, current, currentStart) := st in
  let currentStart := if bool_decide (JS.len current = 0) then startLine + i else currentStart in
  let current := current ++ [line] in
  if bool_decide (JS.trim line = EmptyString)
  then (paragraphs ++ [mkSpan currentStart (startLine + i) current], [], currentStart)
  else (paragraphs, current, currentStart).

Fixpoint paragraphLoop (startLine : Z) (rest : list string) (i : Z)
    (st : list Span * list string * Z) : list Span * list string * Z :=
  match rest with
  | [] => st
  | line :: rest' => paragraphLoop startLine rest' (i + 1) (paragraphStep startLine st i line)
  end.

Definition paragraphsOf (lines : list string) (startLine : Z) : list Span :=
  let '(paragraphs, current, currentStart) :=
    paragraphLoop startLine lines 0 ([], [], startLine) in
  if bool_decide (0 < JS.len current)
  then paragraphs ++ [mkSpan currentStart (startLine + JS.len lines - 1) current]
  else paragraphs.

(** The loop that cuts one long paragraph at line ends.  Its variables are
    [chunks], [slice], [sliceStart] and [sliceLen]. *)
Definition sliceStep (maxChars paraStart : Z) (st : list Span * list string * Z * Z)
    (i : Z) (line : string) : list Span * list string * Z * Z :=
  let '(chunks, slice, sliceStart, sliceLen) := st in
  let lineLen := strlen line + 1 in
  let '(chunks, slice, sliceStart, sliceLen) :=
    if bool_decide (0 < sliceLen) && bool_decide (maxChars < sliceLen + lineLen)
    then (chunks ++ [mkSpan sliceStart (sliceStart + JS.len slice - 1) slice],
          [], paraStart + i, 0)
    else (chunks, slice, sliceStart, sliceLen) in
  (chunks, slice ++ [line], sliceStart, sliceLen + lineLen).

Fixpoint sliceLoop (maxChars paraStart : Z) (rest : list string) (i : Z)
    (st : list Span * list string * Z * Z) : list Span * list string * Z * Z :=
  match rest with
  | [] => st
  | line :: rest' =>
      sliceLoop maxChars paraStart rest' (i + 1) (sliceStep maxChars paraStart st i line)
  end.

(** The variables of the second loop. *)
Record AccState : Type := mkAccState {
  accChunks : list Span;
  acc : list string;
  accStart : Z;
  accLen : Z
}.

(** [chunks.push({ start: accStart, end: accStart + acc.length - 1, lines: acc })],
    then [acc = []] and [accLen = 0]. *)
Definition flushAcc (st : AccState) : AccState :=
  mkAccState (accChunks st ++ [mkSpan (accStart st) (accStart st + JS.len (acc st) - 1) (acc st)])
    [] (accStart st) 0.

(** One turn of the loop [for (const para of paragraphs)]. *)
Definition paraStep (maxChars : Z) (st : AccState) (para : Span) : AccState :=
  let text := linesToText (lines para) in
  let nextLen := accLen st + strlen text in
  let st :=
    if bool_decide (0 < accLen st) && bool_decide (maxChars < nextLen)
    then flushAcc st else st in
  if bool_decide (maxChars < strlen text) then
    let st := if bool_decide (0 < JS.len (acc st)) then flushAcc st else st in
    let '(chunks, slice, sliceStart, sliceLen) :=
      sliceLoop maxChars (start para) (lines para) 0 (accChunks st, [], start para, 0) in
    let chunks :=
      if bool_decide (0 < JS.len slice)
      then chunks ++ [mkSpan sliceStart (sliceStart + JS.len slice - 1) slice]
      else chunks in
    mkAccState chunks (acc st) (accStart st) (accLen st)
  else
    let newStart := if bool_decide (JS.len (acc st) = 0) then start para else accStart st in
    mkAccState (accChunks st) (acc st ++ lines para) newStart (accLen st + strlen text).

Definition splitByParagraphs (lines : list string) (startLine maxChars : Z) : list Span :=
  let paragraphs := paragraphsOf lines startLine in
  let st := foldl (paraStep maxChars) (mkAccState [] [] startLine 0) paragraphs in
  if bool_decide (0 < JS.len (acc st)) then accChunks (flushAcc st) else accChunks st.

(** *** [chunkMarkdown] *)

(** [flushSection(startLine, linesToFlush)], on the list [chunks]. *)
Definition flushSection (filePath : string) (chunks : list Chunk) (startLine : Z)
    (linesToFlush : list string) : list Chunk :=
  if bool_decide (JS.len linesToFlush = 0) then chunks
  else
    let textContent := linesToText linesToFlush in
    if bool_decide (strlen textContent ≤ MAX_CHUNK_CHARS) then
      chunks ++ [mkChunk filePath (startLine + 1) (startLine + JS.len linesToFlush) textContent]
    else
      chunks
      ++ ((λ chunk, mkChunk filePath (start chunk) (end_ chunk) (linesToText (lines chunk)))
          <$> splitByParagraphs linesToFlush (startLine + 1) MAX_CHUNK_CHARS).

(** One turn of the loop over the lines after the front matter, on
    [chunks], [sectionStart] and [sectionLines]. *)
Definition sectionStep (filePath : string) (st : list Chunk * Z * list string)
    (i : Z) (line : string) : list Chunk * Z * list string :=
  let '(chunks, sectionStart, sectionLines) := st in
  if JS.startsWith "#" line
  then (flushSection filePath chunks sectionStart sectionLines, i, [line])
  else (chunks, sectionStart, sectionLines ++ [line]).

Fixpoint sectionLoop (filePath : string) (rest : list string) (i : Z)
    (st : list Chunk * Z * list string) : list Chunk * Z * list string :=
  match rest with
  | [] => st
  | line :: rest' => sectionLoop filePath rest' (i + 1) (sectionStep filePath st i line)
  end.

(** The front matter: with [---] as the first line, the index [end] of the
    next line [---], or [-1]. *)
Definition frontMatterEnd (lines : list string) : Z :=
  if bool_decide (JS.at_ lines 0 = Some "---")
  then JS.findIndexFrom (λ line, bool_decide (line = "---")) (drop 1 lines) 1
  else -1.

Definition chunkMarkdown (filePath text : string) : list Chunk :=
  let lines := JS.split newline text in
  let end_ := frontMatterEnd lines in
  let '(chunks, index) :=
    if bool_decide (0 < end_)
    then ([mkChunk filePath 1 (end_ + 1) (linesToText (take (Z.to_nat (end_ + 1)) lines))],
          end_ + 1)
    else ([], 0) in
  let '(chunks, sectionStart, sectionLines) :=
    sectionLoop filePath (drop (Z.to_nat index) lines) index (chunks, index, []) in
  flushSection filePath chunks sectionStart sectionLines.

(** *** [chunkFile] *)

(** [lowerExt] stands for [path.extname(filePath).toLowerCase()]. *)
Definition chunkFile (lowerExt : string → string) (filePath text : string) : list Chunk :=
  let ext := lowerExt filePath in
  if bool_decide (ext = ".md") || bool_decide (ext = ".mdx")
  then chunkMarkdown filePath text
  else chunkText filePath text.

End Chunker.


(** ** Text helpers of [util/text.ts] *)

Module Text.

(** [s.indexOf(p)]: the lowest index at which [p] occurs in [s], or [-1];
    [i] is the index of the first character of [s]. *)
Fixpoint indexOfFrom (p s : string) (i : Z) : Z :=
  if JS.startsWith p s then i
  else match s with
       | EmptyString => -1
       | String _ s' => indexOfFrom p s' (i + 1)
       end.

Definition indexOf (p s : string) : Z := indexOfFrom p s 0.

(** [s.lastIndexOf(p)]: the highest index at which [p] occurs in [s], or [-1]. *)
Fixpoint lastIndexOfFrom (p s : string) (i : Z) : Z :=
  let here := if JS.startsWith p s then i else -1 in
  match s with
  | EmptyString => here
  | String _ s' =>
      let later := lastIndexOfFrom p s' (i + 1) in
      if bool_decide (later = -1) then here else later
  end.

Definition lastIndexOf (p s : string) : Z := lastIndexOfFrom p s 0.

(** The first [n] code units of [s]. *)
Fixpoint takeString (n : nat) (s : string) : string :=
  match n, s with
  | S n', String c s' => String c (takeString n' s')
  | _, _ => EmptyString
  end.

(** [s.slice(start, end)], with the standard's clamping of both numbers. *)
Definition slice (s : string) (start end_ : Z) : string :=
  let n := Z.of_nat (String.length s) in
  let from := if bool_decide (start < 0) then Z.max (n + start) 0 else Z.min start n in
  let to := if bool_decide (end_ < 0) then Z.max (n + end_) 0 else Z.min end_ n in
  takeString (Z.to_nat (to - from)) (JS.substring (Z.to_nat from) s).

(** [s.slice(start)] *)
Definition sliceFrom (s : string) (start : Z) : string :=
  slice s start (Z.of_nat (String.length s)).

(** The pieces of [s.split(sep)] for a separator [sep] that is not empty:
    the first piece and the pieces after it.  The occurrences of [sep] are
    taken from left to right without overlap; [skip] counts the characters
    of an occurrence that are still to be passed over. *)
Fixpoint splitPiecesBy (sep : string) (skip : nat) (s : string) : string * list string :=
  match s with
  | EmptyString => (EmptyString, [])
  | String c s' =>
      match skip with
      | S skip' => splitPiecesBy sep skip' s'
      | O =>
          if JS.startsWith sep s
          then let (w, ws) := splitPiecesBy sep (String.length sep - 1) s' in
               (EmptyString, w :: ws)
          else let (w, ws) := splitPiecesBy sep 0 s' in (String c w, ws)
      end
  end.

Definition splitBy (sep s : string) : list string :=
  let (w, ws) := splitPiecesBy sep 0 s in w :: ws.

(** The three errors of [replaceOnce], by their messages:
    "oldString and newString must be different", "oldString not found in
    content" and "Found multiple matches for oldString. ...". *)
Inductive ReplaceError : Type :=
| SameStrings
| NotFound
| MultipleMatches.

Inductive Replaced : Type :=
| Returns (updated : string)
| Throws (e : ReplaceError).

(** [replaceAll] is [false] for an argument that is absent or [false]. *)
Definition replaceOnce (content oldString newString : string) (replaceAll : bool)
    : Replaced :=
  if bool_decide (oldString = newString) then Throws SameStrings
  else if bool_decide (oldString = EmptyString) then Returns newString
  else
    let first := indexOf oldString content in
    if bool_decide (first = -1) then Throws NotFound
    else if replaceAll then Returns (JS.join newString (splitBy oldString content))
    else
      let last := lastIndexOf oldString content in
      if bool_decide (first ≠ last) then Throws MultipleMatches
      else
        Returns (slice content 0 first +:+ newString
                 +:+ sliceFrom content (first + Z.of_nat (String.length oldString))).

End Text.


(** ** Cosine similarity of [semantic/embedder.ts] *)

Module Embedder.
Import SpecFloat.

(** A JavaScript number is a binary64 float: 53 bits of mantissa, the
    exponent of the infinities 1024. *)
Definition number : Type := spec_float.
Definition prec : Z := 53.
Definition emax : Z := 1024.

Definition nan : number := S754_nan.
Definition zero : number := S754_zero false.

Definition add : number → number → number := SFadd prec emax.
Definition mul : number → number → number := SFmul prec emax.
Definition div : number → number → number := SFdiv prec emax.
Definition sqrt : number → number := SFsqrt prec emax.

(** [x === y] on numbers. *)
Definition strictEq (x y : number) : bool := SFeqb x y.

(** The number that a value read from a typed array is in a product: the
    element itself, or [NaN] for the [undefined] of a read beyond the end. *)
Definition toNumber (v : option number) : number :=
  match v with
  | Some x => x
  | None => nan
  end.

(** The loop of [cosineSimilarity] over the elements of [a] from index [i]
    on, on the loop's variables [dot], [normA] and [normB]. *)
Fixpoint cosineLoop (a b : list number) (i : nat) (dot normA normB : number)
    : number * number * number :=
  match a with
  | [] => (dot, normA, normB)
  | av :: rest =>
      let bv := toNumber (b !! i) in
      cosineLoop rest b (S i)
        (add dot (mul av bv)) (add normA (mul av av)) (add normB (mul bv bv))
  end.

Definition cosineSimilarity (a b : list number) : number :=
  let '(dot, normA, normB) := cosineLoop a b 0 zero zero zero in
  if strictEq normA zero || strictEq normB zero then zero
  else div dot (mul (sqrt normA) (sqrt normB)).

End Embedder.


(** ** Specification vocabulary *)

(** [pattern] occurs in [lines] at index [i]: [lines] is some [i] elements,
    then [pattern], then the rest. *)
Definition occursAt (lines pattern : list string) (i : Z) : Prop :=
  ∃ before after : list string,
    lines = before ++ pattern ++ after ∧ JS.len before = i.

(** The result of a search: [-1] when nothing is found, else the lowest
    index from [start] on where [pattern] occurs. *)
Definition lowestMatch (lines pattern : list string) (start r : Z) : Prop :=
  (r = -1 ∧ ∀ k, start ≤ k → ¬ occursAt lines pattern k)
  ∨ (start ≤ r ∧ occursAt lines pattern r
     ∧ ∀ k, start ≤ k < r → ¬ occursAt lines pattern k).

(** Two spans in the order of their starts do not overlap. *)
Definition apart (r1 r2 : Replacement) : Prop :=
  repStart r1 ≤ repStart r2 → repStart r1 + repLen r1 ≤ repStart r2.

(** The two kinds of replacement that chunks without an insertion at a
    context emit: an append at the end of the file, and a span of at least
    one line that starts at [lo] or later and lies within the file. *)
Definition appendKind (lines : list string) (r : Replacement) : Prop :=
  repStart r = JS.len lines ∧ repLen r = 0.

Definition matchKind (lines : list string) (lo : Z) (r : Replacement) : Prop :=
  lo ≤ repStart r ∧ 1 ≤ repLen r ∧ repStart r + repLen r ≤ JS.len lines.

(** No chunk is an insertion at a context: one with no old lines has no
    change context. *)
Definition noContextInsertion (chunks : list UpdateChunk) : Prop :=
  ∀ chunk : UpdateChunk, chunk ∈ chunks →
    old_lines chunk = [] → JS.truthy (change_context chunk) = false.

(** [s] ends with one newline and not with two. *)
Definition oneTrailingNewline (s : string) : bool :=
  JS.endsWith NL s && negb (JS.endsWith (NL +:+ NL) s).

(** The replacement puts back the lines it takes out. *)
Definition keepsLines (lines : list string) (r : Replacement) : Prop :=
  ∃ before after : list string,
    lines = before ++ repSegment r ++ after
    ∧ repStart r = JS.len before ∧ repLen r = JS.len (repSegment r).

(** The lines of a hunk's body: those before the next line that starts
    with three stars. *)
Fixpoint untilMarker (rest : list string) : list string :=
  match rest with
  | [] => []
  | line :: rest' => if JS.startsWith "***" line then [] else line :: untilMarker rest'
  end.

(** The lines that start with a plus sign, without the sign. *)
Definition plusLines (body : list string) : list string :=
  JS.substring 1 <$> List.filter (JS.startsWith "+") body.

(** Each line followed by a newline. *)
Fixpoint terminated (ls : list string) : string :=
  match ls with
  | [] => EmptyString
  | l :: rest => l +:+ NL +:+ terminated rest
  end.

(** What a successful turn of the loop does: it emits one replacement [r],
    of one of three kinds. *)
Inductive Emitted (lines : list string) (chunk : UpdateChunk) (lineIndex : Z)
    : Replacement → Z → Prop :=
| EmitAtContext (context : string) (c : Z) :
    old_lines chunk = [] → change_context chunk = Some context →
    context ≠ EmptyString → lineIndex ≤ c → occursAt lines [context] c →
    Emitted lines chunk lineIndex (c, 1, new_lines chunk) c
| EmitAppend :
    old_lines chunk = [] → JS.truthy (change_context chunk) = false →
    Emitted lines chunk lineIndex (JS.len lines, 0, new_lines chunk) lineIndex
| EmitReplace (pattern newSlice : list string) (found : Z) :
    old_lines chunk ≠ [] → pattern ≠ [] → lineIndex ≤ found →
    occursAt lines pattern found →
    (pattern = old_lines chunk ∧ newSlice = new_lines chunk)
    ∨ (old_lines chunk = pattern ++ [EmptyString]
       ∧ newSlice = if bool_decide (last (new_lines chunk) = Some EmptyString)
                    then JS.dropLast (new_lines chunk) else new_lines chunk) →
    Emitted lines chunk lineIndex (found, JS.len pattern, newSlice) (found + JS.len pattern).

(** What a successful run of the loop emits, chunk by chunk. *)
Inductive EmittedAll (lines : list string)
    : list UpdateChunk → Z → list Replacement → Z → Prop :=
| EmittedNil (lineIndex : Z) : EmittedAll lines [] lineIndex [] lineIndex
| EmittedCons (chunk : UpdateChunk) (chunks : list UpdateChunk)
    (r : Replacement) (rs : list Replacement) (i0 i1 i2 : Z) :
    Emitted lines chunk i0 r i1 → EmittedAll lines chunks i1 rs i2 →
    EmittedAll lines (chunk :: chunks) i0 (r :: rs) i2.

(** [n] is the index of the first line that satisfies [p]. *)
Definition firstAt (p : string → bool) (lines : list string) (n : nat) : Prop :=
  (∃ line : string, lines !! n = Some line ∧ p line = true)
  ∧ ∀ (j : nat) (line : string), (j < n)%nat → lines !! j = Some line → p line = false.

(** No line satisfies [p]. *)
Definition absent (p : string → bool) (lines : list string) : Prop :=
  ∀ line : string, line ∈ lines → p line = false.

(** The order of [replacements.sort]: by start index. *)
Definition startsBefore (r1 r2 : Replacement) : Prop := repStart r1 ≤ repStart r2.

(** The paths that [applyHunksToFiles] reports for a list of hunks: those of
    the Add hunks, those of the Delete hunks, and for the Update hunks the
    path the new content is written to. *)
Definition addedPaths (hunks : list Hunk) : list string :=
  omap (λ hunk, match hunk with AddHunk path _ => Some path | _ => None end) hunks.

Definition deletedPaths (hunks : list Hunk) : list string :=
  omap (λ hunk, match hunk with DeleteHunk path => Some path | _ => None end) hunks.

Definition modifiedPaths (hunks : list Hunk) : list string :=
  omap (λ hunk,
          match hunk with
          | UpdateHunk path move_path _ =>
              Some (match move_path with
                    | Some target => if JS.truthy (Some target) then target else path
                    | None => path
                    end)
          | _ => None
          end) hunks.

(** The lines of a chunk's body: those before the next line that starts a
    chunk or a hunk. *)
Fixpoint untilChunkEnd (rest : list string) : list string :=
  match rest with
  | [] => []
  | line :: rest' =>
      if JS.startsWith "@@" line || JS.startsWith "***" line then []
      else line :: untilChunkEnd rest'
  end.

(** The old lines of a chunk's body: the lines that start with a space or
    a minus sign, without that character; and the new lines likewise, for a
    space or a plus sign. *)
Definition oldLinesOf (body : list string) : list string :=
  JS.substring 1
  <$> List.filter (λ line, JS.startsWith " " line || JS.startsWith "-" line) body.

Definition newLinesOf (body : list string) : list string :=
  JS.substring 1
  <$> List.filter (λ line, JS.startsWith " " line || JS.startsWith "+" line) body.


(** The content that an update leaves when it changes no line: empty for an
    empty content; with a newline added when the content does not end with
    one; and for a content that ends with a newline, without that newline
    when what comes before it is empty or ends with a newline itself, else
    as it is. *)
Definition normalisedEnd (content : string) : string :=
  if bool_decide (content = EmptyString) then EmptyString
  else if JS.endsWith NL content then
    let t := JS.sliceInit content in
    if bool_decide (t = EmptyString) || JS.endsWith NL t then t else content
  else content +:+ NL.


(** *** Chunks of consecutive lines *)

(** The span of the lines [group], the first of them line number [start]. *)
Definition spanOf (start : Z) (group : list string) : Chunker.Span :=
  Chunker.mkSpan start (start + JS.len group - 1) group.

(** The spans of consecutive groups of lines, the first group starting at
    line number [start]. *)
Fixpoint spansOf (start : Z) (groups : list (list string)) : list Chunker.Span :=
  match groups with
  | [] => []
  | group :: groups' => spanOf start group :: spansOf (start + JS.len group) groups'
  end.

(** The chunk of a span: its line numbers, and its lines joined by newlines. *)
Definition chunkOfSpan (filePath : string) (span : Chunker.Span) : Chunker.Chunk :=
  Chunker.mkChunk filePath (Chunker.start span) (Chunker.end_ span)
    (JS.join NL (Chunker.lines span)).

Definition chunksOf (filePath : string) (start : Z) (groups : list (list string))
    : list Chunker.Chunk :=
  chunkOfSpan filePath <$> spansOf start groups.

(** [chunks] cut [lines] into consecutive groups, none of them empty: every
    line is in one chunk, in order, and each chunk has the numbers of its
    first and last line, counted from 1. *)
Definition cutsIntoChunks (filePath : string) (lines : list string)
    (chunks : list Chunker.Chunk) : Prop :=
  ∃ groups : list (list string),
    chunks = chunksOf filePath 1 groups
    ∧ concat groups = lines
    ∧ Forall (λ group, group ≠ []) groups.

(** The count of [chunkText] for a group of lines: the length of each line
    and one more for its newline. *)
Definition weight (group : list string) : Z :=
  foldr (λ line n, Chunker.strlen line + 1 + n) 0 group.

Definition withinBudget (group : list string) : Prop :=
  length group = 1%nat ∨ weight group ≤ Chunker.MAX_CHUNK_CHARS.

(** Each group but the last is full: the first line of the next group
    would have taken its count over [MAX_CHUNK_CHARS]. *)
Definition cutWhenFull (groups : list (list string)) : Prop :=
  ∀ (k : nat) (g1 g2 : list string),
    groups !! k = Some g1 → groups !! S k = Some g2 →
    Chunker.MAX_CHUNK_CHARS < weight g1 + Chunker.strlen (hd EmptyString g2) + 1.

(** What holds of the variables of [chunkText] once the lines [done] are
    read. *)
Record TextInv (filePath : string) (done : list string) (st : Chunker.TextState)
    (groups : list (list string)) : Prop := mkTextInv {
  inv_chunks : Chunker.chunks st = chunksOf filePath 1 groups;
  inv_done : concat groups ++ Chunker.current st = done;
  inv_nonempty : Forall (λ group, group ≠ []) groups;
  inv_budget : Forall withinBudget groups;
  inv_start : Chunker.current st ≠ [] → Chunker.currentStart st = 1 + JS.len (concat groups);
  inv_len : Chunker.currentLen st = weight (Chunker.current st);
  inv_current : Chunker.current st = [] ∨ withinBudget (Chunker.current st);
  inv_first : Chunker.current st = [] → groups = [];
  inv_full : cutWhenFull groups;
  inv_last : ∀ g : list string, last groups = Some g → Chunker.current st ≠ [] →
             Chunker.MAX_CHUNK_CHARS
             < weight g + Chunker.strlen (hd EmptyString (Chunker.current st)) + 1
}.


(** The characters of a group of lines, newlines not counted. *)
Definition chars (group : list string) : Z :=
  foldr (λ line n, Chunker.strlen line + n) 0 group.

(** The bound that [splitByParagraphs] keeps: a single line, or lines of at
    most [maxChars] characters in all, newlines not counted. *)
Definition withinChars (maxChars : Z) (group : list string) : Prop :=
  length group = 1%nat ∨ chars group ≤ maxChars.

(** What holds of the variables of the second loop of [splitByParagraphs]
    once the paragraphs that make up the lines [processed] are read. *)
Record AccInv (maxChars startLine : Z) (processed : list string) (st : Chunker.AccState)
    (groups : list (list string)) : Prop := mkAccInv {
  acc_chunks : Chunker.accChunks st = spansOf startLine groups;
  acc_done : concat groups ++ Chunker.acc st = processed;
  acc_nonempty : Forall (λ group, group ≠ []) groups;
  acc_start : Chunker.acc st ≠ [] → Chunker.accStart st = startLine + JS.len (concat groups);
  acc_len : Chunker.acc st = [] → Chunker.accLen st = 0;
  acc_within : Forall (withinChars maxChars) groups;
  acc_chars : chars (Chunker.acc st) ≤ Chunker.accLen st;
  acc_bound : Chunker.acc st ≠ [] → Chunker.accLen st ≤ maxChars
}.


(** The lines numbered [first] to [last], counted from 1. *)
Definition linesBetween (lines : list string) (first last : Z) : list string :=
  take (Z.to_nat (last - first + 1)) (drop (Z.to_nat (first - 1)) lines).


(** No line of the group after its first one is a heading. *)
Definition headingFirst (group : list string) : Prop :=
  Forall (λ line, JS.startsWith "#" line = false) (tail group).


(** *** Occurrences in a string *)

(** [p] occurs in [s] at index [i]. *)
Definition occursInString (p s : string) (i : Z) : Prop :=
  ∃ before after : string,
    s = before +:+ p +:+ after ∧ Z.of_nat (String.length before) = i.


(** [pieces] are the pieces of [s] between the occurrences of [sep] taken
    from left to right without overlap: [s] is the pieces with [sep] between
    them, [sep] occurs in no earlier place of a piece followed by [sep] than
    at the end of the piece, and it does not occur in the last piece. *)
Inductive SplitsAt (sep : string) : string → list string → Prop :=
| SplitsAt_last (s : string) :
    (∀ i : Z, ¬ occursInString sep s i) → SplitsAt sep s [s]
| SplitsAt_more (piece rest : string) (pieces : list string) :
    (∀ i : Z, occursInString sep (piece +:+ sep) i → i = Z.of_nat (String.length piece)) →
    SplitsAt sep rest pieces →
    SplitsAt sep (piece +:+ sep +:+ rest) (piece :: pieces).


(** *** The text of a patch *)

(** The character [c] does not occur in [s]. *)
Definition without (c : ascii) (s : string) : Prop := JS.split c s = [s].

(** A string with no white space at its ends. *)
Definition trimmed (s : string) : Prop := JS.trimStart s = s ∧ JS.trimEnd s = s.

(** A path that a header line can carry: not empty, with no white space at
    its ends, and with no colon and no newline in it. *)
Definition goodPath (p : string) : Prop :=
  p ≠ EmptyString ∧ trimmed p ∧ without ":" p ∧ without newline p.

(** A change context that a chunk header can carry. *)
Definition goodContext (context : string) : Prop :=
  context ≠ EmptyString ∧ trimmed context ∧ without newline context.

Definition goodChunk (chunk : UpdateChunk) : Prop :=
  (∀ context : string, change_context chunk = Some context → goodContext context)
  ∧ is_end_of_file chunk = None
  ∧ Forall (without newline) (old_lines chunk)
  ∧ Forall (without newline) (new_lines chunk).

Definition goodHunk (hunk : Hunk) : Prop :=
  match hunk with
  | AddHunk path _ => goodPath path
  | DeleteHunk path => goodPath path
  | UpdateHunk path move_path chunks =>
      goodPath path
      ∧ (∀ target : string, move_path = Some target → goodPath target)
      ∧ Forall goodChunk chunks
  end.

(** The lines of a chunk: its header, its old lines with a minus sign and
    its new lines with a plus sign. *)
Definition renderChunk (chunk : UpdateChunk) : list string :=
  [match change_context chunk with
   | Some context => "@@ " +:+ context
   | None => "@@"
   end]
  ++ (String.append "-" <$> old_lines chunk)
  ++ (String.append "+" <$> new_lines chunk).

(** The lines of a hunk. *)
Definition renderHunk (hunk : Hunk) : list string :=
  match hunk with
  | AddHunk path contents =>
      ["*** Add File: " +:+ path] ++ (String.append "+" <$> JS.split newline contents)
  | DeleteHunk path => ["*** Delete File: " +:+ path]
  | UpdateHunk path move_path chunks =>
      ["*** Update File: " +:+ path]
      ++ match move_path with
         | Some target => ["*** Move to: " +:+ target]
         | None => []
         end
      ++ concat (renderChunk <$> chunks)
  end.

(** The lines of a patch with the given hunks. *)
Definition patchLines (hunks : list Hunk) : list string :=
  ["*** Begin Patch"] ++ concat (renderHunk <$> hunks) ++ ["*** End Patch"].

(** A line that ends a hunk: it starts with three stars and is no move line. *)
Definition marksHunk (line : string) : Prop :=
  JS.startsWith "***" line = true ∧ JS.startsWith "*** Move to:" line = false.


(** *** The lines of an updated file *)

(** The lines of a file from line [cursor] on, with each span replaced by
    its segment: the replacements are taken in their order, each one's span
    starting at or after the end of the one before it. *)
Fixpoint rebuilt (lines : list string) (cursor : Z) (replacements : list Replacement)
    : list string :=
  match replacements with
  | [] => drop (Z.to_nat cursor) lines
  | (startIdx, oldLen, newSegment) :: rest =>
      take (Z.to_nat (startIdx - cursor)) (drop (Z.to_nat cursor) lines)
      ++ newSegment ++ rebuilt lines (startIdx + oldLen) rest
  end.

(** The spans follow one another from [bound] on and lie within the file. *)
Fixpoint ordered (lines : list string) (bound : Z) (replacements : list Replacement) : Prop :=
  match replacements with
  | [] => bound ≤ JS.len lines
  | (startIdx, oldLen, _) :: rest =>
      bound ≤ startIdx ∧ 0 ≤ oldLen ∧ ordered lines (startIdx + oldLen) rest
  end.

(** A platform on which a file that was unlinked cannot be read. *)
Class GoneAfterUnlink (FS : Type) `{!Platform FS} : Prop :=
  read_after_unlink : ∀ (p : string) (fs fs' : FS),
    fs_unlink p fs = (fs', Ok ()) →
    ∃ e : Error, fs_readFileSync p fs' = Throw e.


(** *** Numbers *)

(** The numbers 1 and 2. *)
Definition one : Embedder.number := SpecFloat.S754_finite false 4503599627370496 (-52).
Definition two : Embedder.number := SpecFloat.S754_finite false 4503599627370496 (-51).

(** A number that came out of a rounding: when it is finite, its exponent
    is at least that of the smallest binary64 number. *)
Definition rounded (x : Embedder.number) : Prop :=
  match x with
  | SpecFloat.S754_finite _ _ e => -1074 ≤ e
  | _ => True
  end.

(** A number that is not small: not a number, infinite, or finite and at
    least [2^-537] in magnitude. *)
Definition notSmall (x : Embedder.number) : Prop :=
  match x with
  | SpecFloat.S754_zero _ => False
  | SpecFloat.S754_finite _ m e => -536 ≤ Z.pos (SpecFloat.digits2_pos m) + e
  | _ => True
  end.


(** * Properties *)

(** ** Outcomes *)

Lemma bind_Ok {A B} (a : A) (k : A → Result B) : Ok a ≫= k = k a.
Proof. reflexivity. Qed.

Lemma bind_Throw {A B} (e : Error) (k : A → Result B) : Throw e ≫= k = Throw e.
Proof. reflexivity. Qed.

Lemma bind_is_Ok {A B} (r : Result A) (k : A → Result B) (b : B) :
  r ≫= k = Ok b ↔ ∃ a : A, r = Ok a ∧ k a = Ok b.
Proof.
  destruct r as [a | e |]; split.
  - rewrite bind_Ok. by exists a.
  - by intros (a' & [= <-] & Hk).
  - done.
  - by intros (a' & ? & _).
  - done.
  - by intros (a' & ? & _).
Qed.

(** ** Arrays *)

Lemma at_nonneg {A} (a : list A) (i : Z) : 0 ≤ i → JS.at_ a i = a !! Z.to_nat i.
Proof. intros Hi. unfold JS.at_. rewrite bool_decide_eq_false_2; [done | lia]. Qed.

Lemma at_neg {A} (a : list A) (i : Z) : i < 0 → JS.at_ a i = None.
Proof. intros Hi. unfold JS.at_. by rewrite bool_decide_eq_true_2. Qed.

Lemma at_of_nat {A} (a : list A) (n : nat) : JS.at_ a (Z.of_nat n) = a !! n.
Proof. rewrite at_nonneg; [by rewrite Nat2Z.id | lia]. Qed.

Lemma at_Some_range {A} (a : list A) (i : Z) (x : A) :
  JS.at_ a i = Some x → 0 ≤ i < JS.len a.
Proof.
  unfold JS.at_, JS.len. case_bool_decide; [done |].
  intros Hx%lookup_lt_Some. lia.
Qed.

(** ** Sequence matcher *)

Lemma matchesFrom_lookup (lines : list string) (i : Z) (pattern : list string) (j : Z) :
  matchesFrom lines i pattern j = true ↔
  ∀ (k : nat) (p : string), pattern !! k = Some p → JS.at_ lines (i + j + Z.of_nat k) = Some p.
Proof.
  revert j. induction pattern as [| p rest IH]; intros j; simpl.
  - split; [intros _ k q Hk; by rewrite lookup_nil in Hk | done].
  - case_bool_decide as Hhead.
    + rewrite IH. split.
      * intros Hrest [| k] q Hk; simpl in Hk.
        -- injection Hk as <-. by rewrite Z.add_0_r.
        -- specialize (Hrest k q Hk). rewrite <- Hrest. f_equal. lia.
      * intros Hall k q Hk. specialize (Hall (S k) q Hk).
        rewrite <- Hall. f_equal. lia.
    + split; [done |]. intros Hall. exfalso. apply Hhead.
      specialize (Hall 0%nat p eq_refl). by rewrite Z.add_0_r in Hall.
Qed.

Lemma occursAt_lookup (lines pattern : list string) (i : Z) :
  pattern ≠ [] →
  occursAt lines pattern i ↔
  ∀ (k : nat) (p : string), pattern !! k = Some p → JS.at_ lines (i + Z.of_nat k) = Some p.
Proof.
  intros Hne. split.
  - intros (before & after & -> & <-) k p Hk. unfold JS.len.
    rewrite <- Nat2Z.inj_add, at_of_nat.
    rewrite lookup_app_r by lia.
    replace (length before + k - length before)%nat with k by lia.
    by apply lookup_app_l_Some.
  - intros Hall.
    destruct pattern as [| p0 rest]; [done |].
    pose proof (Hall 0%nat p0 eq_refl) as H0. rewrite Z.add_0_r in H0.
    apply at_Some_range in H0 as Hrange.
    exists (take (Z.to_nat i) lines), (drop (Z.to_nat i + length (p0 :: rest)) lines).
    split.
    + rewrite <- (take_drop (Z.to_nat i) lines) at 1. f_equal.
      rewrite <- (take_drop (length (p0 :: rest)) (drop (Z.to_nat i) lines)) at 1.
      rewrite drop_drop. f_equal.
      apply list_eq. intros k.
      destruct ((p0 :: rest) !! k) as [q |] eqn:Hk.
      * apply lookup_lt_Some in Hk as Hlt.
        rewrite lookup_take_lt by done. rewrite lookup_drop.
        specialize (Hall k q Hk). rewrite at_nonneg in Hall by lia.
        rewrite <- Hall. f_equal. lia.
      * apply lookup_ge_None in Hk. apply lookup_ge_None.
        rewrite length_take. lia.
    + unfold JS.len in *. rewrite length_take. lia.
Qed.

Lemma matchesFrom_occursAt (lines pattern : list string) (i : Z) :
  pattern ≠ [] → matchesFrom lines i pattern 0 = true ↔ occursAt lines pattern i.
Proof.
  intros Hne. rewrite matchesFrom_lookup, occursAt_lookup by done.
  split; intros Hall k p Hk; specialize (Hall k p Hk);
    rewrite <- Hall; f_equal; lia.
Qed.

Lemma occursAt_range (lines pattern : list string) (i : Z) :
  occursAt lines pattern i → 0 ≤ i ∧ i + JS.len pattern ≤ JS.len lines.
Proof.
  intros (before & after & -> & <-). unfold JS.len.
  rewrite !length_app. lia.
Qed.

Lemma seekLoop_lowest (lines pattern : list string) (fuel : nat) (i : Z) :
  pattern ≠ [] →
  JS.len lines - JS.len pattern - i + 1 < Z.of_nat fuel →
  lowestMatch lines pattern i (seekLoop lines pattern fuel i).
Proof.
  intros Hne. revert i. induction fuel as [| fuel IH]; intros i Hfuel; simpl.
  - left. split; [done |]. intros k Hk Hocc%occursAt_range. lia.
  - case_bool_decide as Hcond.
    + destruct (matchesFrom lines i pattern 0) eqn:Hm.
      * right. apply matchesFrom_occursAt in Hm; [| done].
        split; [lia |]. split; [done |]. intros k Hk. lia.
      * assert (¬ occursAt lines pattern i) as Hno.
        { intros Hocc%matchesFrom_occursAt; [congruence | done]. }
        destruct (IH (i + 1)) as [[-> Hnone] | (Hle & Hocc & Hlow)]; [lia | |].
        -- left. split; [done |]. intros k Hk.
           destruct (decide (k = i)) as [-> | Hki]; [done |]. apply Hnone. lia.
        -- right. split; [lia |]. split; [done |]. intros k Hk.
           destruct (decide (k = i)) as [-> | Hki]; [done |]. apply Hlow. lia.
    + left. split; [done |]. intros k Hk Hocc%occursAt_range. lia.
Qed.

Lemma lowestMatch_unique (lines pattern : list string) (start r r' : Z) :
  pattern ≠ [] →
  lowestMatch lines pattern start r → lowestMatch lines pattern start r' → r = r'.
Proof.
  intros Hne [[-> Hn] | (Hle & Hocc & Hlow)] [[-> Hn'] | (Hle' & Hocc' & Hlow')].
  - done.
  - by destruct (Hn r').
  - by destruct (Hn' r).
  - destruct (Z.lt_trichotomy r r') as [Hlt | [-> | Hgt]]; [| done |].
    + destruct (Hlow' r); [lia | done].
    + destruct (Hlow r'); [lia | done].
Qed.

Lemma seekSequence_lowest (lines pattern : list string) (start : Z) :
  pattern ≠ [] → lowestMatch lines pattern start (seekSequence lines pattern start).
Proof.
  intros Hne. unfold seekSequence.
  rewrite bool_decide_eq_false_2.
  - apply seekLoop_lowest; [done | lia].
  - unfold JS.len. destruct pattern; [done | simpl; lia].
Qed.

Lemma seekSequence_empty (lines : list string) (start : Z) :
  seekSequence lines [] start = -1.
Proof. done. Qed.

(** C3.  [seekSequence] returns [-1] for an empty pattern; for any other
    pattern it returns the lowest index from [startIndex] on at which the
    pattern occurs in the haystack, element by element, and [-1] exactly
    when there is no such index.  In particular a search in the empty
    haystack and a search for the empty pattern find nothing, and
    [a b] is found in [a b a b] from 1 on at 2. *)
Theorem seekSequence_returns_lowest_match :
  (∀ (lines pattern : list string) (start r : Z),
      seekSequence lines pattern start = r ↔
      (pattern = [] ∧ r = -1) ∨ (pattern ≠ [] ∧ lowestMatch lines pattern start r))
  ∧ (∀ pattern : list string, seekSequence [] pattern 0 = -1)
  ∧ (∀ haystack : list string, seekSequence haystack [] 0 = -1)
  ∧ seekSequence ["a"; "b"; "a"; "b"] ["a"; "b"] 1 = 2.
Proof.
  split; [| split; [| split]].
  - intros lines pattern start r. destruct pattern as [| p rest].
    + rewrite seekSequence_empty. split; [intros <-; by left |].
      intros [[_ ->] | [? _]]; done.
    + split.
      * intros <-. right. split; [done |]. by apply seekSequence_lowest.
      * intros [[? _] | [Hne Hlow]]; [done |].
        eapply lowestMatch_unique; [done | | done]. by apply seekSequence_lowest.
  - intros [| p rest]; [done |].
    destruct (seekSequence_lowest [] (p :: rest) 0) as [[-> _] | (_ & Hocc & _)]; [done | done |].
    apply occursAt_range in Hocc. unfold JS.len in Hocc. simpl in Hocc. lia.
  - intros haystack. apply seekSequence_empty.
  - reflexivity.
Qed.

(** ** Splicing *)

Lemma splice_in_range {A} (a : list A) (start deleteCount : Z) (items : list A) :
  0 ≤ start ≤ JS.len a → 0 ≤ deleteCount →
  JS.splice a start deleteCount items
  = take (Z.to_nat start) a ++ items ++ drop (Z.to_nat start + Z.to_nat deleteCount) a.
Proof.
  intros Hs Hd. unfold JS.splice, JS.len in *.
  rewrite bool_decide_eq_false_2 by lia.
  rewrite (Z.min_l start) by lia. rewrite (Z.max_l deleteCount) by lia.
  do 2 f_equal.
  destruct (decide (deleteCount ≤ Z.of_nat (length a) - start)) as [Hle | Hgt].
  - rewrite Z.min_l by lia. f_equal. lia.
  - rewrite Z.min_r by lia. rewrite !drop_ge; [done | lia | lia].
Qed.

Lemma insertSegment_in_range (result : list string) (startIdx : Z)
    (newSegment : list string) (j : Z) :
  0 ≤ startIdx → 0 ≤ j → startIdx + j ≤ JS.len result →
  insertSegment result startIdx newSegment j
  = take (Z.to_nat (startIdx + j)) result ++ newSegment
    ++ drop (Z.to_nat (startIdx + j)) result.
Proof.
  revert result j. induction newSegment as [| x rest IH]; intros result j Hs Hj Hlen; simpl.
  - by rewrite take_drop.
  - rewrite splice_in_range by lia.
    change (Z.to_nat 0) with 0%nat. rewrite Nat.add_0_r.
    set (n := Z.to_nat (startIdx + j)).
    assert (n ≤ length result)%nat as Hn by (unfold JS.len in Hlen; lia).
    rewrite IH; [| lia | lia |].
    + replace (Z.to_nat (startIdx + (j + 1))) with (length (take n result ++ [x])).
      2:{ rewrite length_app, length_take. simpl. lia. }
      rewrite (app_assoc (take n result) [x]).
      rewrite take_app_length, drop_app_length.
      by rewrite <- app_assoc.
    + unfold JS.len in *. rewrite !length_app, length_take, length_drop. simpl. lia.
Qed.

Lemma applyReplacement_in_range (result : list string) (startIdx oldLen : Z)
    (newSegment : list string) :
  0 ≤ startIdx ≤ JS.len result → 0 ≤ oldLen →
  applyReplacement (startIdx, oldLen, newSegment) result
  = take (Z.to_nat startIdx) result ++ newSegment
    ++ drop (Z.to_nat startIdx + Z.to_nat oldLen) result.
Proof.
  intros Hs Hd. unfold applyReplacement.
  rewrite splice_in_range by lia. simpl.
  assert (Z.to_nat startIdx ≤ length result)%nat as Hn by (unfold JS.len in Hs; lia).
  rewrite insertSegment_in_range; [| lia | lia |].
  - rewrite Z.add_0_r.
    rewrite take_app_length' by (rewrite length_take; lia).
    by rewrite drop_app_length' by (rewrite length_take; lia).
  - unfold JS.len. rewrite length_app, length_take. lia.
Qed.

(** Replacing a span that is known by its neighbours. *)
Lemma applyReplacement_span (before old after newSegment : list string) :
  applyReplacement (JS.len before, JS.len old, newSegment) (before ++ old ++ after)
  = before ++ newSegment ++ after.
Proof.
  unfold JS.len. rewrite applyReplacement_in_range.
  - rewrite !Nat2Z.id. rewrite take_app_length.
    rewrite drop_app_ge by lia.
    replace (length before + length old - length before)%nat with (length old) by lia.
    by rewrite drop_app_length.
  - unfold JS.len. rewrite !length_app. lia.
  - lia.
Qed.

(** ** Strings *)

Lemma append_nil_l (a : string) : EmptyString +:+ a = a.
Proof. reflexivity. Qed.

Lemma append_cons (x : ascii) (a b : string) : String x a +:+ b = String x (a +:+ b).
Proof. reflexivity. Qed.

(** [String.append] does not unfold under [simpl]; its two equations do it. *)
Ltac step_append := rewrite ?append_cons, ?append_nil_l in *.

Lemma append_assoc (a b c : string) : (a +:+ b) +:+ c = a +:+ (b +:+ c).
Proof. induction a as [| x a IH]; step_append; [done | by f_equal]. Qed.

Lemma append_nil_r (a : string) : a +:+ EmptyString = a.
Proof. induction a as [| x a IH]; step_append; [done | by f_equal]. Qed.

Lemma string_snoc_cases (s : string) :
  s = EmptyString ∨ ∃ (t : string) (a : ascii), s = t +:+ String a EmptyString.
Proof.
  induction s as [| x s IH]; [by left |]. right.
  destruct IH as [-> | (t & a & ->)].
  - by exists EmptyString, x.
  - by exists (String x t), a.
Qed.

Lemma snoc_inj (s t : string) (a b : ascii) :
  s +:+ String a EmptyString = t +:+ String b EmptyString → s = t ∧ a = b.
Proof.
  revert t. induction s as [| x s IH]; intros [| y t] Heq; step_append.
  - by injection Heq as ->.
  - injection Heq as -> Heq. destruct t; step_append; done.
  - injection Heq as -> Heq. destruct s; step_append; done.
  - injection Heq as -> Heq. destruct (IH t Heq) as [-> ->]. done.
Qed.

Lemma endsWith_spec (p s : string) :
  JS.endsWith p s = true ↔ ∃ pre : string, s = pre +:+ p.
Proof.
  induction s as [| x s IH]; simpl.
  - rewrite orb_false_r, bool_decide_eq_true. split.
    + intros <-. by exists EmptyString.
    + intros (pre & Heq). destruct pre; step_append; [done | discriminate].
  - rewrite orb_true_iff, bool_decide_eq_true, IH. split.
    + intros [<- | (pre & ->)]; [by exists EmptyString | by exists (String x pre)].
    + intros ([| y pre] & Heq); step_append; [by left |].
      injection Heq as -> ->. right. by exists pre.
Qed.

Lemma endsWith_snoc (a b : ascii) (s : string) :
  JS.endsWith (String a EmptyString) (s +:+ String b EmptyString) = bool_decide (a = b).
Proof.
  apply eq_true_iff_eq. rewrite endsWith_spec, bool_decide_eq_true. split.
  - intros (pre & Heq). by apply snoc_inj in Heq as [_ ->].
  - intros ->. by exists s.
Qed.

Lemma endsWith_append_nonempty (a : ascii) (x l : string) :
  l ≠ EmptyString →
  JS.endsWith (String a EmptyString) (x +:+ l) = JS.endsWith (String a EmptyString) l.
Proof.
  intros Hne. destruct (string_snoc_cases l) as [-> | (t & b & ->)]; [done |].
  rewrite <- append_assoc. by rewrite !endsWith_snoc.
Qed.

Lemma endsWith_two (a : ascii) (s : string) :
  JS.endsWith (String a (String a EmptyString)) (s +:+ String a EmptyString)
  = JS.endsWith (String a EmptyString) s.
Proof.
  apply eq_true_iff_eq. rewrite !endsWith_spec. split.
  - intros (pre & Heq). exists pre.
    change (String a (String a EmptyString))
      with (String a EmptyString +:+ String a EmptyString) in Heq.
    rewrite <- append_assoc in Heq. by apply snoc_inj in Heq as [-> _].
  - intros (pre & ->). exists pre. by rewrite append_assoc.
Qed.

(** *** [split] and [join] *)

Lemma split_cons_sep (c : ascii) (s : string) :
  JS.split c (String c s) = EmptyString :: JS.split c s.
Proof.
  unfold JS.split. simpl. destruct (JS.splitPieces c s) as [w ws].
  by rewrite Ascii.eqb_refl.
Qed.

Lemma split_cons_other (c a : ascii) (s : string) :
  a ≠ c →
  ∃ (w : string) (ws : list string),
    JS.split c s = w :: ws ∧ JS.split c (String a s) = String a w :: ws.
Proof.
  intros Hne. unfold JS.split. simpl. destruct (JS.splitPieces c s) as [w ws].
  exists w, ws. split; [done |].
  destruct (Ascii.eqb_spec a c); done.
Qed.

Lemma split_nonempty (c : ascii) (s : string) : JS.split c s ≠ [].
Proof. unfold JS.split. by destruct (JS.splitPieces c s). Qed.

Lemma join_cons_String (sep : string) (a : ascii) (w : string) (ws : list string) :
  JS.join sep (String a w :: ws) = String a (JS.join sep (w :: ws)).
Proof. by destruct ws. Qed.

Lemma join_split (c : ascii) (s : string) :
  JS.join (String c EmptyString) (JS.split c s) = s.
Proof.
  induction s as [| a s IH]; [done |].
  destruct (decide (a = c)) as [-> | Hne].
  - rewrite split_cons_sep.
    destruct (JS.split c s) as [| w ws] eqn:Hs; [by destruct (split_nonempty c s) |].
    change (JS.join (String c EmptyString) (EmptyString :: w :: ws))
      with (String c (JS.join (String c EmptyString) (w :: ws))).
    by rewrite IH.
  - destruct (split_cons_other c a s Hne) as (w & ws & Hs & ->).
    rewrite join_cons_String. by rewrite <- Hs, IH.
Qed.

Lemma join_snoc (sep : string) (l : list string) (x : string) :
  l ≠ [] → JS.join sep (l ++ [x]) = JS.join sep l +:+ sep +:+ x.
Proof.
  induction l as [| y l IH]; [done |]. intros _.
  destruct l as [| z l]; [done |].
  change (JS.join sep ((y :: z :: l) ++ [x]))
    with (y +:+ sep +:+ JS.join sep ((z :: l) ++ [x])).
  rewrite IH by done.
  change (JS.join sep (y :: z :: l)) with (y +:+ sep +:+ JS.join sep (z :: l)).
  by rewrite !append_assoc.
Qed.

Lemma split_snoc_sep (c : ascii) (s : string) :
  JS.split c (s +:+ String c EmptyString) = JS.split c s ++ [EmptyString].
Proof.
  induction s as [| a s IH]; step_append.
  - by rewrite split_cons_sep.
  - destruct (decide (a = c)) as [-> | Hne].
    + rewrite !split_cons_sep. by rewrite IH.
    + destruct (split_cons_other c a s Hne) as (w & ws & Hs & ->).
      destruct (split_cons_other c a (s +:+ String c EmptyString) Hne)
        as (w' & ws' & Hs' & ->).
      rewrite IH, Hs in Hs'. by injection Hs' as <- <-.
Qed.

Lemma split_snoc_other (c a : ascii) (s : string) :
  a ≠ c → last (JS.split c (s +:+ String a EmptyString)) ≠ Some EmptyString.
Proof.
  intros Hne. induction s as [| b s IH]; step_append.
  - destruct (split_cons_other c a EmptyString Hne) as (w & ws & Hs & ->).
    injection Hs as <- <-. done.
  - destruct (decide (b = c)) as [-> | Hb].
    + rewrite split_cons_sep.
      destruct (JS.split c (s +:+ String a EmptyString)) eqn:Hs;
        [by apply split_nonempty in Hs | done].
    + destruct (split_cons_other c b (s +:+ String a EmptyString) Hb)
        as (w & ws & Hs & ->).
      rewrite Hs in IH. destruct ws; done.
Qed.

Lemma at_last {A} (a : list A) : JS.at_ a (JS.len a - 1) = last a.
Proof.
  unfold JS.len. destruct a as [| x a]; [done |].
  rewrite at_nonneg by (simpl; lia). rewrite last_lookup. f_equal. simpl. lia.
Qed.

Lemma dropLast_snoc {A} (a : list A) (x : A) : JS.dropLast (a ++ [x]) = a.
Proof.
  unfold JS.dropLast. rewrite length_app. simpl.
  replace (length a + 1 - 1)%nat with (length a) by lia.
  apply take_app_length.
Qed.

(** ** Reading and writing the lines of a file *)

Lemma writeLines_empty : writeLines [] = EmptyString.
Proof. reflexivity. Qed.

Lemma writeLines_last_empty (l : list string) :
  writeLines (l ++ [EmptyString]) = JS.join NL (l ++ [EmptyString]).
Proof.
  unfold writeLines. rewrite at_last, last_snoc.
  rewrite bool_decide_eq_false_2.
  - by rewrite (bool_decide_eq_true_2 (Some EmptyString = Some EmptyString)).
  - unfold JS.len. rewrite length_app. simpl. lia.
Qed.

Lemma writeLines_last_nonempty (l : list string) (x : string) :
  x ≠ EmptyString → writeLines (l ++ [x]) = JS.join NL (l ++ [x]) +:+ NL.
Proof.
  intros Hx. unfold writeLines. rewrite at_last, last_snoc.
  rewrite (bool_decide_eq_false_2 (Some x = Some EmptyString)) by congruence.
  rewrite orb_true_r. rewrite join_snoc by (by destruct l).
  by rewrite append_nil_r.
Qed.

(** The written content is empty or ends with a newline. *)
Lemma writeLines_ends (newLines : list string) :
  writeLines newLines = EmptyString ∨ JS.endsWith NL (writeLines newLines) = true.
Proof.
  destruct (decide (newLines = [])) as [-> | Hne]; [by left |].
  destruct (exists_last Hne) as (l & x & ->).
  destruct (decide (x = EmptyString)) as [-> | Hx].
  - rewrite writeLines_last_empty.
    destruct (decide (l = [])) as [-> | Hl]; [by left |]. right.
    rewrite join_snoc by done. rewrite append_nil_r.
    apply endsWith_spec. by eexists.
  - right. rewrite writeLines_last_nonempty by done.
    apply endsWith_spec. by eexists.
Qed.

Lemma readLines_empty : readLines EmptyString = [].
Proof. reflexivity. Qed.

Lemma readLines_newline_ended (t : string) : readLines (t +:+ NL) = JS.split newline t.
Proof.
  unfold readLines, NL. rewrite split_snoc_sep, at_last, last_snoc.
  rewrite bool_decide_eq_true_2.
  - rewrite (bool_decide_eq_true_2 (Some EmptyString = Some EmptyString)) by done.
    apply dropLast_snoc.
  - unfold JS.len. rewrite length_app. simpl. lia.
Qed.

(** A content that is empty, or ends with one newline after a last line that
    is not empty, is read and written back unchanged. *)
Lemma writeLines_readLines (content : string) :
  content = EmptyString
  ∨ (oneTrailingNewline content = true ∧ content ≠ NL) →
  writeLines (readLines content) = content.
Proof.
  intros [-> | [Hone Hne]]; [done |].
  unfold oneTrailingNewline in Hone. apply andb_true_iff in Hone as [Hends Htwo].
  apply endsWith_spec in Hends as (t & ->).
  apply negb_true_iff in Htwo.
  change (NL +:+ NL) with (String newline (String newline EmptyString)) in Htwo.
  unfold NL in Htwo. rewrite endsWith_two in Htwo.
  rewrite readLines_newline_ended.
  destruct (string_snoc_cases t) as [-> | (t' & a & ->)]; [done |].
  rewrite endsWith_snoc in Htwo. apply bool_decide_eq_false in Htwo.
  assert (a ≠ newline) as Ha by congruence.
  pose proof (split_snoc_other newline a t' Ha) as Hlast.
  destruct (exists_last (split_nonempty newline (t' +:+ String a EmptyString)))
    as (l & x & Hsplit).
  rewrite Hsplit in Hlast. rewrite last_snoc in Hlast.
  rewrite Hsplit, writeLines_last_nonempty by congruence.
  rewrite <- Hsplit. unfold NL at 1. by rewrite join_split.
Qed.

(** ** Patch applier: what a turn of the loop emits *)

Lemma seekSequence_found (lines pattern : list string) (start r : Z) :
  seekSequence lines pattern start = r → r ≠ -1 →
  pattern ≠ [] ∧ start ≤ r ∧ occursAt lines pattern r.
Proof.
  intros Hseek Hr. destruct pattern as [| p rest].
  - rewrite seekSequence_empty in Hseek. congruence.
  - split; [done |].
    destruct (seekSequence_lowest lines (p :: rest) start) as [[Hnone _] | (Hle & Hocc & _)];
      [done | congruence |].
    by rewrite Hseek in *.
Qed.

Lemma locateContext_Ok (lines : list string) (filePath : string) (chunk : UpdateChunk)
    (lineIndex contextIdx cursor : Z) :
  locateContext lines filePath chunk lineIndex = Ok (contextIdx, cursor) →
  (JS.truthy (change_context chunk) = false ∧ contextIdx = -1 ∧ cursor = lineIndex)
  ∨ (∃ context : string,
        change_context chunk = Some context ∧ context ≠ EmptyString
        ∧ contextIdx = cursor ∧ cursor ≠ -1 ∧ lineIndex ≤ cursor
        ∧ occursAt lines [context] cursor).
Proof.
  unfold locateContext. destruct (change_context chunk) as [context |]; simpl.
  - case_bool_decide as Hctx; simpl.
    + intros [= <- <-]. by left.
    + case_bool_decide as Hseek; [done |]. intros [= <- Hcur]. right.
      destruct (seekSequence_found lines [context] lineIndex cursor Hcur)
        as (_ & Hle & Hocc); [congruence |].
      exists context. repeat split; try done. congruence.
  - intros [= <- <-]. by left.
Qed.

Lemma locateOldLines_found (lines : list string) (chunk : UpdateChunk)
    (lineIndex : Z) (pattern newSlice : list string) (found : Z) :
  locateOldLines lines chunk lineIndex = (pattern, newSlice, found) → found ≠ -1 →
  pattern ≠ [] ∧ lineIndex ≤ found ∧ occursAt lines pattern found
  ∧ ((pattern = old_lines chunk ∧ newSlice = new_lines chunk)
     ∨ (old_lines chunk = pattern ++ [EmptyString]
        ∧ newSlice = if bool_decide (last (new_lines chunk) = Some EmptyString)
                     then JS.dropLast (new_lines chunk) else new_lines chunk)).
Proof.
  unfold locateOldLines.
  destruct (bool_decide (seekSequence lines (old_lines chunk) lineIndex = -1)
            && bool_decide (0 < JS.len (old_lines chunk))
            && bool_decide (JS.at_ (old_lines chunk) (JS.len (old_lines chunk) - 1)
                            = Some EmptyString)) eqn:Hretry.
  - intros [= <- <- Hseek] Hfound.
    apply andb_true_iff in Hretry as [_ Hlast%bool_decide_eq_true].
    rewrite at_last in Hlast. apply last_Some in Hlast as (pattern & Hold).
    rewrite Hold, dropLast_snoc in *.
    destruct (seekSequence_found _ _ _ _ Hseek Hfound) as (Hne & Hle & Hocc).
    split; [done |]. split; [done |]. split; [done |]. right. split; [done |].
    rewrite at_last.
    destruct (new_lines chunk) as [| x l] eqn:Hnew; [done |].
    rewrite (bool_decide_eq_true_2 (0 < JS.len (x :: l))); [done |].
    unfold JS.len. simpl. lia.
  - intros [= <- <- Hseek] Hfound.
    destruct (seekSequence_found _ _ _ _ Hseek Hfound) as (Hne & Hle & Hocc).
    split; [done |]. split; [done |]. split; [done |]. by left.
Qed.

Lemma chunkStep_Ok (lines : list string) (filePath : string)
    (replacements replacements' : list Replacement) (lineIndex lineIndex' : Z)
    (chunk : UpdateChunk) :
  chunkStep lines filePath (replacements, lineIndex) chunk = Ok (replacements', lineIndex') →
  ∃ r : Replacement,
    replacements' = replacements ++ [r] ∧ Emitted lines chunk lineIndex r lineIndex'.
Proof.
  unfold chunkStep. intros Hstep.
  apply bind_is_Ok in Hstep as ([contextIdx cursor] & Hloc & Hstep).
  apply locateContext_Ok in Hloc
    as [(Hfalsy & -> & ->) | (context & Hctx & Hne & -> & Hfound & Hle & Hocc)].
  - case_bool_decide as Hold.
    + rewrite Hfalsy in Hstep. simpl in Hstep. injection Hstep as <- <-.
      eexists. split; [done |]. apply EmitAppend; [| done].
      unfold JS.len in Hold. destruct (old_lines chunk); [done | simpl in Hold; lia].
    + destruct (locateOldLines lines chunk lineIndex) as [[pattern newSlice] found] eqn:Hsearch.
      case_bool_decide as Hfound; [done |]. simpl in Hstep. injection Hstep as <- <-.
      destruct (locateOldLines_found _ _ _ _ _ _ Hsearch Hfound) as (Hp & Hle & Hocc & Hkind).
      eexists. split; [done |]. apply EmitReplace; try done.
      intros Hnil. by rewrite Hnil in Hold.
  - case_bool_decide as Hold.
    + rewrite Hctx in Hstep. simpl in Hstep.
      rewrite (bool_decide_eq_false_2 (context = EmptyString)) in Hstep by done.
      rewrite (bool_decide_eq_false_2 (cursor = -1)) in Hstep by done.
      simpl in Hstep. injection Hstep as <- <-.
      eexists. split; [done |]. eapply EmitAtContext; try done.
      unfold JS.len in Hold. destruct (old_lines chunk); [done | simpl in Hold; lia].
    + destruct (locateOldLines lines chunk cursor) as [[pattern newSlice] found] eqn:Hsearch.
      case_bool_decide as Hfound'; [done |]. simpl in Hstep. injection Hstep as <- <-.
      destruct (locateOldLines_found _ _ _ _ _ _ Hsearch Hfound') as (Hp & Hle' & Hocc' & Hkind).
      eexists. split; [done |]. apply EmitReplace; try done; [| lia].
      intros Hnil. by rewrite Hnil in Hold.
Qed.

Lemma chunkLoop_Ok (lines : list string) (filePath : string) (chunks : list UpdateChunk)
    (replacements replacements' : list Replacement) (lineIndex lineIndex' : Z) :
  chunkLoop lines filePath chunks (replacements, lineIndex) = Ok (replacements', lineIndex') →
  ∃ emitted : list Replacement,
    replacements' = replacements ++ emitted
    ∧ EmittedAll lines chunks lineIndex emitted lineIndex'.
Proof.
  revert replacements lineIndex.
  induction chunks as [| chunk chunks IH]; intros replacements lineIndex; simpl.
  - intros [= <- <-]. exists []. split; [by rewrite app_nil_r | constructor].
  - destruct (chunkStep lines filePath (replacements, lineIndex) chunk)
      as [[replacements1 lineIndex1] | |] eqn:Hstep; [| done | done].
    intros Hloop. apply chunkStep_Ok in Hstep as (r & -> & Hr).
    apply IH in Hloop as (emitted & -> & Hall).
    exists (r :: emitted). split; [by rewrite <- app_assoc | by econstructor].
Qed.

Lemma insertByStart_perm (r : Replacement) (sorted : list Replacement) :
  insertByStart r sorted ≡ₚ r :: sorted.
Proof.
  induction sorted as [| x rest IH]; simpl; [done |].
  case_bool_decide; [done |]. rewrite IH. apply Permutation_swap.
Qed.

Lemma sortByStart_perm (replacements : list Replacement) :
  sortByStart replacements ≡ₚ replacements.
Proof.
  induction replacements as [| r rest IH]; simpl; [done |].
  by rewrite insertByStart_perm, IH.
Qed.

Lemma computeReplacements_Ok (lines : list string) (filePath : string)
    (chunks : list UpdateChunk) (replacements : list Replacement) :
  computeReplacements lines filePath chunks = Ok replacements →
  ∃ (emitted : list Replacement) (lineIndex : Z),
    replacements = sortByStart emitted ∧ EmittedAll lines chunks 0 emitted lineIndex.
Proof.
  unfold computeReplacements.
  destruct (chunkLoop lines filePath chunks ([], 0)) as [[emitted lineIndex] | |] eqn:Hloop;
    [| done | done].
  intros [= <-]. apply chunkLoop_Ok in Hloop as (emitted' & -> & Hall).
  by exists emitted', lineIndex.
Qed.

Lemma deriveNewContentsOf_Ok (originalContent filePath : string)
    (chunks : list UpdateChunk) (out : string) :
  deriveNewContentsOf originalContent filePath chunks = Ok out ↔
  ∃ replacements : list Replacement,
    computeReplacements (readLines originalContent) filePath chunks = Ok replacements
    ∧ out = writeLines (applyReplacements (readLines originalContent) replacements).
Proof.
  unfold deriveNewContentsOf.
  destruct (computeReplacements (readLines originalContent) filePath chunks)
    as [replacements | |]; split.
  - intros [= <-]. by exists replacements.
  - by intros (? & [= <-] & ->).
  - done.
  - by intros (? & ? & _).
  - done.
  - by intros (? & ? & _).
Qed.

Lemma deriveNewContents_Ok {FS : Type} `{!Platform FS} (filePath : string) (chunks : list UpdateChunk)
    (fs fs' : FS) (out : string) :
  deriveNewContents filePath chunks fs = (fs', Ok out) ↔
  fs' = fs ∧ ∃ originalContent : string,
    fs_readFileSync filePath fs = Ok originalContent
    ∧ deriveNewContentsOf originalContent filePath chunks = Ok out.
Proof.
  unfold deriveNewContents.
  destruct (fs_readFileSync filePath fs) as [originalContent | |]; split.
  - intros [= <- Hout]. split; [done |]. by exists originalContent.
  - by intros (-> & ? & [= <-] & ->).
  - done.
  - by intros (_ & ? & ? & _).
  - done.
  - by intros (_ & ? & ? & _).
Qed.

(** ** The trailing newline of an updated file *)

(** C2, as the code has it.  When [deriveNewContents] succeeds, the new
    content is the lines after the replacements, joined by newlines, with one
    empty element added at the end unless the last element is empty already.
    So the content is either empty or ends with a newline; and it ends with
    exactly one newline whenever the last of those lines is not empty and
    does not itself end with a newline.  (A last line that is empty is
    taken for the closing one, so what comes before it decides: the content
    can end with several newlines, or be empty.) *)
Theorem deriveNewContents_trailing_newline {FS : Type} `{!Platform FS}
    (filePath : string) (chunks : list UpdateChunk) (fs fs' : FS) (out : string) :
  deriveNewContents filePath chunks fs = (fs', Ok out) →
  ∃ (originalContent : string) (replacements : list Replacement),
    fs_readFileSync filePath fs = Ok originalContent
    ∧ computeReplacements (readLines originalContent) filePath chunks = Ok replacements
    ∧ out = writeLines (applyReplacements (readLines originalContent) replacements)
    ∧ (out = EmptyString ∨ JS.endsWith NL out = true)
    ∧ ∀ l : string,
        last (applyReplacements (readLines originalContent) replacements) = Some l →
        l ≠ EmptyString → JS.endsWith NL l = false →
        oneTrailingNewline out = true.
Proof.
  intros (-> & originalContent & Hread & (replacements & Hreps & ->)%deriveNewContentsOf_Ok)
    %deriveNewContents_Ok.
  exists originalContent, replacements.
  split; [done |]. split; [done |]. split; [done |]. split; [apply writeLines_ends |].
  intros l (l0 & ->)%last_Some Hl Hends.
  rewrite writeLines_last_nonempty by done.
  unfold oneTrailingNewline. apply andb_true_iff. split.
  - apply endsWith_spec. by eexists.
  - apply negb_true_iff.
    change (NL +:+ NL) with (String newline (String newline EmptyString)).
    unfold NL at 2. rewrite endsWith_two.
    destruct (decide (l0 = [])) as [-> | Hl0]; [done |].
    rewrite join_snoc by done. rewrite <- append_assoc.
    unfold NL in Hends. by rewrite endsWith_append_nonempty.
Qed.

(** C2, as stated, fails: a file that ends with three newlines and an
    update with no chunk give a content that ends with two newlines, and an
    empty file gives an empty content. *)
Lemma deriveNewContents_not_one_trailing_newline :
  let fs : gmap string string :=
    {[ "f.txt" := "a" +:+ NL +:+ NL +:+ NL; "empty.txt" := EmptyString ]} in
  deriveNewContents "f.txt" [] fs = (fs, Ok ("a" +:+ NL +:+ NL))
  ∧ oneTrailingNewline ("a" +:+ NL +:+ NL) = false
  ∧ deriveNewContents "empty.txt" [] fs = (fs, Ok EmptyString)
  ∧ oneTrailingNewline EmptyString = false.
Proof. vm_compute. done. Qed.

(** ** An update that changes nothing *)

Lemma applyReplacement_keeps (lines : list string) (r : Replacement) :
  keepsLines lines r → applyReplacement r lines = lines.
Proof.
  destruct r as [[startIdx oldLen] newSegment].
  intros (before & after & Hlines & Hstart & Hlen).
  unfold repStart, repLen, repSegment in *. simpl in *. subst startIdx oldLen.
  subst lines. apply applyReplacement_span.
Qed.

Lemma applyReplacements_keeps (lines : list string) (replacements : list Replacement) :
  Forall (keepsLines lines) replacements → applyReplacements lines replacements = lines.
Proof.
  unfold applyReplacements. induction 1 as [| r rest Hr _ IH]; simpl; [done |].
  rewrite IH. by apply applyReplacement_keeps.
Qed.

Lemma Emitted_keeps (lines : list string) (chunk : UpdateChunk) (i i' : Z) (r : Replacement) :
  new_lines chunk = old_lines chunk →
  (old_lines chunk = [] → JS.truthy (change_context chunk) = false) →
  Emitted lines chunk i r i' → keepsLines lines r.
Proof.
  intros Hsame Hctx Hemit.
  destruct Hemit as [context c Hold Hsome Hne _ _ | Hold _
                    | pattern newSlice found _ _ _ (before & after & Hlines & Hlen) Hkind].
  - specialize (Hctx Hold). rewrite Hsome in Hctx. simpl in Hctx.
    by rewrite (bool_decide_eq_false_2 (context = EmptyString)) in Hctx.
  - exists lines, []. unfold repSegment, repStart, repLen. simpl.
    rewrite Hsame, Hold. by rewrite app_nil_r.
  - assert (newSlice = pattern) as ->.
    { destruct Hkind as [[-> ->] | [Hold ->]]; [done |].
      rewrite Hsame, Hold, last_snoc.
      rewrite bool_decide_eq_true_2 by done. apply dropLast_snoc. }
    by exists before, after.
Qed.

Lemma EmittedAll_keeps (lines : list string) (chunks : list UpdateChunk) (i i' : Z)
    (emitted : list Replacement) :
  (∀ chunk, chunk ∈ chunks →
     new_lines chunk = old_lines chunk
     ∧ (old_lines chunk = [] → JS.truthy (change_context chunk) = false)) →
  EmittedAll lines chunks i emitted i' → Forall (keepsLines lines) emitted.
Proof.
  intros Hchunks. induction 1 as [| chunk chunks r rs i0 i1 i2 Hr _ IH]; [done |].
  constructor.
  - destruct (Hchunks chunk) as [Hsame Hctx]; [by left |].
    by eapply Emitted_keeps.
  - apply IH. intros c Hc. apply Hchunks. by right.
Qed.

(** C4, as the code has it.  An update whose chunks all match and all have
    [new_lines] equal to [old_lines], where a chunk with no old lines has no
    change context either, leaves the lines of the file as they are.  The
    content written is those lines joined again and closed by a newline; it
    is the original content, byte for byte, when the original is empty or
    ends with exactly one newline that follows a line that is not empty. *)
Theorem same_lines_update_is_noop {FS : Type} `{!Platform FS}
    (filePath : string) (chunks : list UpdateChunk) (fs fs' : FS) (out : string) :
  (∀ chunk, chunk ∈ chunks →
     new_lines chunk = old_lines chunk
     ∧ (old_lines chunk = [] → JS.truthy (change_context chunk) = false)) →
  deriveNewContents filePath chunks fs = (fs', Ok out) →
  ∃ (originalContent : string) (replacements : list Replacement),
    fs_readFileSync filePath fs = Ok originalContent
    ∧ computeReplacements (readLines originalContent) filePath chunks = Ok replacements
    ∧ applyReplacements (readLines originalContent) replacements = readLines originalContent
    ∧ out = writeLines (readLines originalContent)
    ∧ (originalContent = EmptyString
       ∨ (oneTrailingNewline originalContent = true ∧ originalContent ≠ NL) →
       out = originalContent).
Proof.
  intros Hchunks
    (-> & originalContent & Hread & (replacements & Hreps & ->)%deriveNewContentsOf_Ok)
    %deriveNewContents_Ok.
  exists originalContent, replacements.
  assert (applyReplacements (readLines originalContent) replacements
          = readLines originalContent) as Hnoop.
  { apply computeReplacements_Ok in Hreps as (emitted & lineIndex & -> & Hall).
    apply applyReplacements_keeps. rewrite sortByStart_perm.
    by eapply EmittedAll_keeps. }
  rewrite Hnoop. repeat split; try done.
  apply writeLines_readLines.
Qed.

(** C4, as stated, fails in two ways.  A file without a final newline
    gets one; and a chunk with a change context and no lines at all takes
    the context line out of the file. *)
Lemma same_lines_update_changes_content :
  let fs : gmap string string :=
    {[ "f.txt" := "a"; "g.txt" := "a" +:+ NL +:+ "b" +:+ NL ]} in
  deriveNewContents "f.txt" [mkUpdateChunk ["a"] ["a"] None None] fs
    = (fs, Ok ("a" +:+ NL))
  ∧ "a" +:+ NL ≠ "a"
  ∧ deriveNewContents "g.txt" [mkUpdateChunk [] [] (Some "a") None] fs
    = (fs, Ok ("b" +:+ NL))
  ∧ "b" +:+ NL ≠ "a" +:+ NL +:+ "b" +:+ NL.
Proof. vm_compute. done. Qed.

(** ** File mutator *)

Section MutatorFacts.
Context {FS : Type} `{!Platform FS}.

Lemma io_bind_Ok {A B} (m : IO FS A) (k : A → IO FS B) (fs fs' : FS) (a : A) :
  m fs = (fs', Ok a) → io_bind m k fs = k a fs'.
Proof. intros Hm. unfold io_bind. by rewrite Hm. Qed.

Lemma io_bind_Throw {A B} (m : IO FS A) (k : A → IO FS B) (fs fs' : FS) (e : Error) :
  m fs = (fs', Throw e) → io_bind m k fs = (fs', Throw e).
Proof. intros Hm. unfold io_bind. by rewrite Hm. Qed.

Lemma io_bind_is_Ok {A B} (m : IO FS A) (k : A → IO FS B) (fs fs' : FS) (b : B) :
  io_bind m k fs = (fs', Ok b) ↔
  ∃ (fs1 : FS) (a : A), m fs = (fs1, Ok a) ∧ k a fs1 = (fs', Ok b).
Proof.
  unfold io_bind. destruct (m fs) as [fs1 [a | e |]]; split.
  - intros Hk. by exists fs1, a.
  - by intros (? & ? & [= <- <-] & Hk).
  - done.
  - by intros (? & ? & ? & _).
  - done.
  - by intros (? & ? & ? & _).
Qed.

(** The hunks after a prefix that succeeded are applied from the state and
    the lists the prefix left. *)
Lemma hunksLoop_app (pre rest : list Hunk) (acc acc1 : AffectedPaths) (fs0 fs1 : FS) :
  hunksLoop pre acc fs0 = (fs1, Ok acc1) →
  hunksLoop (pre ++ rest) acc fs0 = hunksLoop rest acc1 fs1.
Proof.
  revert acc fs0. induction pre as [| hunk pre IH]; intros acc fs0; simpl.
  - unfold io_ret. by intros [= <- <-].
  - intros (fs' & acc' & Hhunk & Hpre)%io_bind_is_Ok.
    rewrite (io_bind_Ok _ _ _ _ _ Hhunk). by apply IH.
Qed.

Lemma applyHunksToFiles_nonempty (hunk : Hunk) (hunks : list Hunk) :
  applyHunksToFiles (hunk :: hunks) = hunksLoop (hunk :: hunks) (mkAffectedPaths [] [] []).
Proof.
  unfold applyHunksToFiles. rewrite bool_decide_eq_false_2; [done |].
  unfold JS.len. simpl. lia.
Qed.

Lemma applyHunksToFiles_app_cons (pre : list Hunk) (hunk : Hunk) (post : list Hunk) :
  applyHunksToFiles (pre ++ hunk :: post)
  = hunksLoop (pre ++ hunk :: post) (mkAffectedPaths [] [] []).
Proof. destruct pre; apply applyHunksToFiles_nonempty. Qed.

End MutatorFacts.

(** C9.  The hunks are applied in order: after a prefix that succeeded,
    leaving the file system [fs1], the next hunk is applied in [fs1] and the
    rest after it.  When that hunk throws, the call throws the same error at
    once; the file system is the one the failing hunk left, reached from
    [fs1], so what the prefix wrote stays written, and no later hunk has any
    part in the result.  In particular, when [unlink] of a missing path
    throws and leaves the file system alone, the result is [fs1] itself. *)
Theorem failing_hunk_halts_without_rollback {FS : Type} `{!Platform FS}
    (pre : list Hunk) (fs0 fs1 : FS) (acc1 : AffectedPaths) :
  hunksLoop pre (mkAffectedPaths [] [] []) fs0 = (fs1, Ok acc1) →
  (∀ (hunk : Hunk) (post : list Hunk),
      applyHunksToFiles (pre ++ hunk :: post) fs0
      = io_bind (applyHunk hunk acc1) (hunksLoop post) fs1)
  ∧ (∀ (hunk : Hunk) (post : list Hunk) (fs2 : FS) (e : Error),
      applyHunk hunk acc1 fs1 = (fs2, Throw e) →
      applyHunksToFiles (pre ++ hunk :: post) fs0 = (fs2, Throw e))
  ∧ (∀ (path : string) (post : list Hunk) (e : Error),
      fs_unlink path fs1 = (fs1, Throw e) →
      applyHunksToFiles (pre ++ DeleteHunk path :: post) fs0 = (fs1, Throw e)).
Proof.
  intros Hpre.
  assert (∀ hunk post,
            applyHunksToFiles (pre ++ hunk :: post) fs0
            = io_bind (applyHunk hunk acc1) (hunksLoop post) fs1) as Hseq.
  { intros hunk post. rewrite applyHunksToFiles_app_cons.
    by rewrite (hunksLoop_app pre (hunk :: post) _ acc1 fs0 fs1 Hpre). }
  split; [done |]. split.
  - intros hunk post fs2 e Hfail. rewrite Hseq. by apply io_bind_Throw.
  - intros path post e Hfail. rewrite Hseq. apply io_bind_Throw.
    simpl. by apply io_bind_Throw.
Qed.

(** C7, as stated, fails: an Add hunk with contents [hello] leaves a file
    that holds [hello], with no newline after it. *)
Lemma add_hunk_appends_no_newline :
  let result := applyHunksToFiles [AddHunk "a.txt" "hello"] (∅ : gmap string string) in
  result.2 = Ok (mkAffectedPaths ["a.txt"] [] [])
  ∧ result.1 !! "a.txt" = Some "hello"
  ∧ "hello" ≠ "hello" +:+ NL.
Proof. vm_compute. done. Qed.

(** ** Add hunks *)

Lemma terminated_join (ls : list string) :
  ls ≠ [] → terminated ls = JS.join NL ls +:+ NL.
Proof.
  induction ls as [| l rest IH]; [done |]. intros _. simpl terminated.
  destruct rest as [| l' rest]; [done |].
  rewrite IH by done.
  change (JS.join NL (l :: l' :: rest)) with (l +:+ NL +:+ JS.join NL (l' :: rest)).
  by rewrite !append_assoc.
Qed.

Lemma sliceInit_snoc (s : string) (a : ascii) :
  JS.sliceInit (s +:+ String a EmptyString) = s.
Proof.
  induction s as [| x s IH]; [done |]. step_append. simpl.
  destruct (s +:+ String a EmptyString) eqn:Hs.
  - destruct s; step_append; discriminate.
  - by rewrite IH.
Qed.

Lemma addLoop_spec (lines : list string) (fuel i : nat) (content : string) :
  (length lines ≤ i + fuel)%nat →
  addLoop lines fuel i content
  = Ok (content +:+ terminated (plusLines (untilMarker (drop i lines))),
        (i + length (untilMarker (drop i lines)))%nat).
Proof.
  revert i content. induction fuel as [| fuel IH]; intros i content Hfuel.
  - rewrite drop_ge by lia. simpl.
    rewrite (proj2 (lookup_ge_None lines i)) by lia.
    by rewrite append_nil_r, Nat.add_0_r.
  - simpl. destruct (lines !! i) as [line |] eqn:Hline.
    + rewrite (drop_S _ _ _ Hline). simpl untilMarker.
      destruct (JS.startsWith "***" line).
      * simpl. by rewrite append_nil_r, Nat.add_0_r.
      * rewrite IH by lia. rewrite Nat.add_1_r. simpl length.
        replace (S i + length (untilMarker (drop (S i) lines)))%nat
          with (i + S (length (untilMarker (drop (S i) lines))))%nat by lia.
        do 2 f_equal. unfold plusLines. simpl List.filter.
        destruct (JS.startsWith "+" line); [| done].
        simpl. by rewrite !append_assoc.
    + apply lookup_ge_None in Hline. rewrite drop_ge by lia. simpl.
      by rewrite append_nil_r, Nat.add_0_r.
Qed.

(** [parseAddContent] keeps the plus lines of the body, joined by newlines:
    a newline between two lines and none after the last. *)
Lemma parseAddContent_spec (lines : list string) (startIdx : nat) :
  parseAddContent lines startIdx
  = Ok (JS.join NL (plusLines (untilMarker (drop startIdx lines))),
        (startIdx + length (untilMarker (drop startIdx lines)))%nat).
Proof.
  unfold parseAddContent. rewrite addLoop_spec by lia. rewrite bind_Ok.
  rewrite append_nil_l. do 2 f_equal.
  destruct (plusLines (untilMarker (drop startIdx lines))) as [| l ls] eqn:Hls; [done |].
  rewrite terminated_join by done.
  rewrite (proj2 (endsWith_spec NL _)) by (by eexists).
  apply sliceInit_snoc.
Qed.

#[global] Instance MemFS_reads_back_writes : ReadsBackWrites (gmap string string).
Proof.
  intros p contents fs fs' [= <-]. simpl. by rewrite lookup_insert_eq.
Qed.

Section AddHunk.
Context {FS : Type} `{!Platform FS}.

Lemma hunksLoop_app_Ok (pre rest : list Hunk) (acc affected : AffectedPaths) (fs0 fs' : FS) :
  hunksLoop (pre ++ rest) acc fs0 = (fs', Ok affected) →
  ∃ (fs1 : FS) (acc1 : AffectedPaths),
    hunksLoop pre acc fs0 = (fs1, Ok acc1) ∧ hunksLoop rest acc1 fs1 = (fs', Ok affected).
Proof.
  revert acc fs0. induction pre as [| hunk pre IH]; intros acc fs0; simpl.
  - intros Hrest. by exists fs0, acc.
  - intros (fs1 & acc1 & Hhunk & Hloop)%io_bind_is_Ok.
    apply IH in Hloop as (fs2 & acc2 & Hpre & Hrest).
    exists fs2, acc2. split; [| done].
    by rewrite (io_bind_Ok _ _ _ _ _ Hhunk).
Qed.

Lemma applyHunk_add_Ok (path contents : string) (acc affected : AffectedPaths) (fs fs' : FS) :
  applyHunk (AddHunk path contents) acc fs = (fs', Ok affected) →
  ∃ fs1 : FS,
    ensureDir path fs = (fs1, Ok ())
    ∧ fs_writeFile path contents fs1 = (fs', Ok ())
    ∧ affected = mkAffectedPaths (added acc ++ [path]) (modified acc) (deleted acc).
Proof.
  simpl. intros (fs1 & [] & Hdir & Hwrite)%io_bind_is_Ok.
  apply io_bind_is_Ok in Hwrite as (fs2 & [] & Hwrite & Hret).
  unfold io_ret in Hret. injection Hret as <- <-. by exists fs1.
Qed.

End AddHunk.

(** C7, as the code has it.  The content that [applyHunksToFiles] writes
    for an Add hunk is the hunk's contents as they are: on a file system
    that reads back what was written, the file then holds exactly the
    contents, with nothing added.  The contents that [parseAddContent]
    stores are the plus lines of the hunk's body joined by newlines, so
    without a newline after the last line. *)
Theorem add_hunk_written_verbatim {FS : Type} `{!Platform FS} `{!ReadsBackWrites FS} :
  (∀ (pre : list Hunk) (path contents : string) (fs fs' : FS) (affected : AffectedPaths),
      applyHunksToFiles (pre ++ [AddHunk path contents]) fs = (fs', Ok affected) →
      fs_readFileSync path fs' = Ok contents)
  ∧ (∀ (lines : list string) (startIdx : nat),
      parseAddContent lines startIdx
      = Ok (JS.join NL (plusLines (untilMarker (drop startIdx lines))),
            (startIdx + length (untilMarker (drop startIdx lines)))%nat)).
Proof.
  split; [| apply parseAddContent_spec].
  intros pre path contents fs fs' affected.
  rewrite applyHunksToFiles_app_cons.
  intros (fs1 & acc1 & _ & Hadd)%hunksLoop_app_Ok.
  simpl hunksLoop in Hadd.
  apply io_bind_is_Ok in Hadd as (fs2 & acc2 & Hadd & Hret).
  unfold io_ret in Hret. injection Hret as <- <-.
  apply applyHunk_add_Ok in Hadd as (fs3 & _ & Hwrite & _).
  by eapply read_after_write.
Qed.

(** ** Patch parser *)

Lemma findIndexFrom_spec (p : string → bool) (a : list string) (i : Z) :
  (JS.findIndexFrom p a i = -1 ∧ absent p a)
  ∨ (∃ n : nat, JS.findIndexFrom p a i = i + Z.of_nat n ∧ firstAt p a n).
Proof.
  revert i. induction a as [| x rest IH]; intros i; simpl.
  - left. split; [done |]. intros line Hin. by apply elem_of_nil in Hin.
  - destruct (p x) eqn:Hx.
    + right. exists 0%nat. split; [lia |]. split; [by exists x |]. intros j line Hj. lia.
    + destruct (IH (i + 1)) as [[-> Habs] | (n & -> & (line & Hline & Hp) & Hfirst)].
      * left. split; [done |]. intros line [-> | Hin]%elem_of_cons; [done | by apply Habs].
      * right. exists (S n). split; [lia |]. split; [by exists line |].
        intros [| j] l Hj Hl; simpl in Hl; [by injection Hl as <- |].
        apply (Hfirst j); [lia | done].
Qed.

Lemma findIndex_spec (p : string → bool) (a : list string) :
  (JS.findIndex p a = -1 ∧ absent p a)
  ∨ (∃ n : nat, JS.findIndex p a = Z.of_nat n ∧ firstAt p a n).
Proof. apply (findIndexFrom_spec p a 0). Qed.

Lemma firstAt_unique (p : string → bool) (lines : list string) (n m : nat) :
  firstAt p lines n → firstAt p lines m → n = m.
Proof.
  intros [(l & Hl & Hp) Hn] [(l' & Hl' & Hp') Hm].
  destruct (Nat.lt_trichotomy n m) as [Hlt | [-> | Hgt]]; [| done |].
  - specialize (Hm n l Hlt Hl). congruence.
  - specialize (Hn m l' Hgt Hl'). congruence.
Qed.

Lemma firstAt_not_absent (p : string → bool) (lines : list string) (n : nat) :
  firstAt p lines n → ¬ absent p lines.
Proof.
  intros [(l & Hl & Hp) _] Habs.
  specialize (Habs l (list_elem_of_lookup_2 _ _ _ Hl)). congruence.
Qed.

Lemma firstAt_lt_length (p : string → bool) (lines : list string) (n : nat) :
  firstAt p lines n → (n < length lines)%nat.
Proof. intros [(l & Hl & _) _]. by eapply lookup_lt_Some. Qed.

(** *** The loops run to their end *)

Lemma chunkLines_Ok (lines : list string) (fuel i : nat) (oldLines newLines : list string) :
  (length lines ≤ i + fuel)%nat →
  ∃ (i' : nat) (oldLines' newLines' : list string) (isEndOfFile : bool),
    chunkLines lines fuel i oldLines newLines = Ok (i', oldLines', newLines', isEndOfFile)
    ∧ (i ≤ i')%nat.
Proof.
  revert i oldLines newLines.
  induction fuel as [| fuel IH]; intros i oldLines newLines Hfuel; simpl.
  - rewrite (proj2 (lookup_ge_None lines i)) by lia. by repeat eexists.
  - destruct (lines !! i) as [changeLine |]; [| by repeat eexists].
    destruct (JS.startsWith "@@" changeLine || JS.startsWith "***" changeLine);
      [by repeat eexists |].
    case_bool_decide; [repeat eexists; lia |].
    repeat case_match;
      match goal with
      | |- context [chunkLines lines fuel (i + 1)%nat ?o ?n] =>
          destruct (IH (i + 1)%nat o n) as (i' & o' & n' & eof & -> & Hle); [lia |];
          repeat eexists; lia
      end.
Qed.

Lemma updateLoop_Ok (lines : list string) (fuel i : nat) (chunks : list UpdateChunk) :
  (length lines ≤ i + fuel)%nat →
  ∃ (chunks' : list UpdateChunk) (next : nat),
    updateLoop lines fuel i chunks = Ok (chunks', next) ∧ (i ≤ next)%nat.
Proof.
  revert i chunks. induction fuel as [| fuel IH]; intros i chunks Hfuel; simpl.
  - rewrite (proj2 (lookup_ge_None lines i)) by lia. by repeat eexists.
  - destruct (lines !! i) as [line |]; [| by repeat eexists].
    destruct (JS.startsWith "***" line); [by repeat eexists |].
    destruct (JS.startsWith "@@" line).
    + destruct (chunkLines_Ok lines (length lines) (i + 1) [] [])
        as (i' & oldLines & newLines & isEndOfFile & -> & Hle); [lia |].
      rewrite bind_Ok.
      edestruct (IH i') as (chunks' & next & -> & Hnext); [lia |].
      repeat eexists. lia.
    + edestruct (IH (i + 1)%nat) as (chunks' & next & -> & Hnext); [lia |].
      repeat eexists. lia.
Qed.

Lemma parseUpdateChunks_Ok (lines : list string) (startIdx : nat) :
  ∃ (chunks : list UpdateChunk) (next : nat),
    parseUpdateChunks lines startIdx = Ok (chunks, next) ∧ (startIdx ≤ next)%nat.
Proof. apply updateLoop_Ok. lia. Qed.

Lemma headerOf_next (filePath movePath : option string) (next : nat) (header : Header) :
  headerOf filePath movePath next = Some header → nextIdx header = next.
Proof.
  unfold headerOf. destruct filePath as [p |]; [| done].
  destruct (JS.truthy (Some p)); [| done]. by intros [= <-].
Qed.

Lemma parsePatchHeader_Ok (lines : list string) (idx : nat) (line : string) :
  lines !! idx = Some line →
  ∃ header : option Header,
    parsePatchHeader lines idx = Ok header
    ∧ ∀ h : Header, header = Some h → (idx < nextIdx h)%nat.
Proof.
  intros Hline. unfold parsePatchHeader. rewrite Hline.
  repeat case_match; eexists; (split; [done |]); intros h Hh;
    try apply headerOf_next in Hh; try discriminate; lia.
Qed.

Lemma hunkLoop_Ok (lines : list string) (endIdx fuel i : nat) (hunks : list Hunk) :
  (endIdx ≤ length lines)%nat → (endIdx ≤ i + fuel)%nat →
  ∃ hunks' : list Hunk, hunkLoop lines endIdx fuel i hunks = Ok hunks'.
Proof.
  intros Hend. revert i hunks.
  induction fuel as [| fuel IH]; intros i hunks Hfuel.
  - simpl. rewrite bool_decide_eq_false_2 by lia. by eexists.
  - simpl. case_bool_decide as Hi; [| by eexists].
    destruct (lookup_lt_is_Some_2 lines i) as [line Hline]; [lia |].
    destruct (parsePatchHeader_Ok lines i line Hline) as (header & -> & Hnext).
    rewrite bind_Ok, Hline. destruct header as [h |]; [| apply IH; lia].
    specialize (Hnext h eq_refl).
    destruct (JS.startsWith "*** Add File:" line).
    + rewrite parseAddContent_spec, bind_Ok. apply IH. lia.
    + destruct (JS.startsWith "*** Delete File:" line); [apply IH; lia |].
      destruct (JS.startsWith "*** Update File:" line); [| apply IH; lia].
      destruct (parseUpdateChunks_Ok lines (nextIdx h)) as (chunks & next & -> & Hle).
      rewrite bind_Ok. apply IH. lia.
Qed.

(** C8.  A marker line is a line that is a marker once its white space is
    trimmed at both ends.  [parsePatch] throws, with the one error it has,
    exactly when there is no Begin marker line, or no End marker line, or the
    first Begin marker line is at or after the first End marker line; on
    every other text it returns a list of hunks: no loop of the parser
    fails to end and no line is read outside the text. *)
Theorem parsePatch_throws_iff (patchText : string) :
  let lines := JS.split newline patchText in
  (parsePatch patchText = Throw InvalidPatchFormat ↔
     absent isBeginMarker lines ∨ absent isEndMarker lines
     ∨ ∃ b e : nat,
         firstAt isBeginMarker lines b ∧ firstAt isEndMarker lines e ∧ (e ≤ b)%nat)
  ∧ (parsePatch patchText = Throw InvalidPatchFormat
     ∨ ∃ hunks : list Hunk, parsePatch patchText = Ok hunks).
Proof.
  intros lines. unfold parsePatch. fold lines.
  destruct (findIndex_spec isBeginMarker lines) as [[-> Hb] | (b & -> & Hb)].
  { simpl. split; [| by left]. split; [by left | done]. }
  destruct (findIndex_spec isEndMarker lines) as [[-> He] | (e & -> & He)].
  { rewrite (bool_decide_eq_true_2 (-1 = -1)) by done.
    rewrite orb_true_r. simpl. split; [| by left]. split; [by right; left | done]. }
  rewrite (bool_decide_eq_false_2 (Z.of_nat b = -1)) by lia.
  rewrite (bool_decide_eq_false_2 (Z.of_nat e = -1)) by lia. simpl.
  case_bool_decide as Horder.
  - split; [| by left]. split; [| done]. intros _. right. right.
    exists b, e. split; [done |]. split; [done | lia].
  - destruct (hunkLoop_Ok lines (Z.to_nat (Z.of_nat e)) (Z.to_nat (Z.of_nat e))
                (Z.to_nat (Z.of_nat b + 1)) []) as [hunks Hloop].
    + apply firstAt_lt_length in He. lia.
    + lia.
    + rewrite Hloop. split; [| right; by exists hunks]. split; [done |].
      intros [Habs | [Habs | (b' & e' & Hb' & He' & Hle)]].
      * by destruct (firstAt_not_absent _ _ _ Hb).
      * by destruct (firstAt_not_absent _ _ _ He).
      * rewrite (firstAt_unique _ _ _ _ Hb' Hb) in Hle.
        rewrite (firstAt_unique _ _ _ _ He' He) in Hle. lia.
Qed.

(** *** The end-of-file line *)

Lemma startsWith_stars_eof : JS.startsWith "***" "*** End of File" = true.
Proof. reflexivity. Qed.

(** The inner loop never reports the end-of-file line: a line that starts
    with three stars ends the loop before the loop's body can look at it. *)
Lemma chunkLines_never_eof (lines : list string) (fuel i i' : nat)
    (oldLines newLines oldLines' newLines' : list string) (isEndOfFile : bool) :
  chunkLines lines fuel i oldLines newLines = Ok (i', oldLines', newLines', isEndOfFile) →
  isEndOfFile = false.
Proof.
  revert i oldLines newLines.
  induction fuel as [| fuel IH]; intros i oldLines newLines; simpl.
  - destruct (lines !! i) as [changeLine |]; [| by intros [= _ _ _ <-]].
    destruct (JS.startsWith "@@" changeLine || JS.startsWith "***" changeLine);
      [by intros [= _ _ _ <-] | done].
  - destruct (lines !! i) as [changeLine |]; [| by intros [= _ _ _ <-]].
    destruct (JS.startsWith "@@" changeLine || JS.startsWith "***" changeLine) eqn:Hguard;
      [by intros [= _ _ _ <-] |].
    case_bool_decide as Heof.
    + subst changeLine. rewrite startsWith_stars_eof, orb_true_r in Hguard. done.
    + repeat case_match; apply IH.
Qed.

Lemma updateLoop_never_eof (lines : list string) (fuel i next : nat)
    (chunks chunks' : list UpdateChunk) :
  Forall (λ chunk, is_end_of_file chunk = None) chunks →
  updateLoop lines fuel i chunks = Ok (chunks', next) →
  Forall (λ chunk, is_end_of_file chunk = None) chunks'.
Proof.
  revert i chunks. induction fuel as [| fuel IH]; intros i chunks Hchunks; simpl.
  - destruct (lines !! i) as [line |]; [| by intros [= <- _]].
    destruct (JS.startsWith "***" line); [by intros [= <- _] | done].
  - destruct (lines !! i) as [line |]; [| by intros [= <- _]].
    destruct (JS.startsWith "***" line); [by intros [= <- _] |].
    destruct (JS.startsWith "@@" line); [| by apply IH].
    intros ([[[i' oldLines] newLines] isEndOfFile] & Hbody & Hloop)%bind_is_Ok.
    apply chunkLines_never_eof in Hbody as ->.
    revert Hloop. apply IH. apply Forall_app. split; [done |]. by constructor.
Qed.

(** C6, on the code.  No chunk that [parseUpdateChunks] returns has
    [is_end_of_file] set; and in a patch whose chunk body holds the line
    [*** End of File], the chunk stops at that line with the flag not set. *)
Theorem end_of_file_flag_never_set :
  (∀ (lines : list string) (startIdx : nat),
      match parseUpdateChunks lines startIdx with
      | Ok (chunks, _) => Forall (λ chunk, is_end_of_file chunk = None) chunks
      | _ => False
      end)
  ∧ parsePatch
      (JS.join NL ["*** Begin Patch"; "*** Update File: f.txt"; "@@"; "-a"; "+b";
                   "*** End of File"; "*** End Patch"])
    = Ok [UpdateHunk "f.txt" None [mkUpdateChunk ["a"] ["b"] None None]].
Proof.
  split; [| by vm_compute].
  intros lines startIdx.
  destruct (parseUpdateChunks_Ok lines startIdx) as (chunks & next & Hparse & _).
  rewrite Hparse. unfold parseUpdateChunks in Hparse.
  by eapply updateLoop_never_eof.
Qed.

(** ** Overlapping replacements *)

(** C5, on the code.  Two chunks with no old lines and the same change
    context, as the parser gives them for two [@@ a] headers with one plus
    line each, emit two replacements of the same line: the spans overlap,
    and applying them loses the lines of the second chunk. *)
Theorem context_insertions_overlap :
  parsePatch
    (JS.join NL ["*** Begin Patch"; "*** Update File: f.txt"; "@@ a"; "+x"; "@@ a"; "+y";
                 "*** End Patch"])
  = Ok [UpdateHunk "f.txt" None
          [mkUpdateChunk [] ["x"] (Some "a") None; mkUpdateChunk [] ["y"] (Some "a") None]]
  ∧ computeReplacements ["a"] "f.txt"
      [mkUpdateChunk [] ["x"] (Some "a") None; mkUpdateChunk [] ["y"] (Some "a") None]
    = Ok [(0, 1, ["x"]); (0, 1, ["y"])]
  ∧ ¬ (0 + 1 ≤ 0)
  ∧ applyReplacements ["a"] [(0, 1, ["x"]); (0, 1, ["y"])] = ["x"].
Proof. vm_compute. repeat split; try done. Qed.

(** ** Replacements that do not overlap *)

Lemma Emitted_kind (lines : list string) (chunk : UpdateChunk) (i i' : Z) (r : Replacement) :
  (old_lines chunk = [] → JS.truthy (change_context chunk) = false) →
  Emitted lines chunk i r i' →
  (appendKind lines r ∧ i' = i)
  ∨ (matchKind lines i r ∧ i' = repStart r + repLen r).
Proof.
  intros Hctx Hemit.
  destruct Hemit as [context c Hold Hsome Hne _ _ | Hold _
                    | pattern newSlice found _ Hp Hle Hocc _].
  - specialize (Hctx Hold). rewrite Hsome in Hctx. simpl in Hctx.
    by rewrite (bool_decide_eq_false_2 (context = EmptyString)) in Hctx.
  - by left.
  - right. apply occursAt_range in Hocc.
    unfold matchKind, repStart, repLen. simpl. split; [| done].
    assert (1 ≤ JS.len pattern).
    { unfold JS.len. destruct pattern; [done | simpl; lia]. }
    lia.
Qed.

Lemma EmittedAll_kinds (lines : list string) (chunks : list UpdateChunk) (i i' : Z)
    (emitted : list Replacement) :
  noContextInsertion chunks →
  EmittedAll lines chunks i emitted i' →
  i ≤ i' ∧ Forall (λ r, appendKind lines r ∨ matchKind lines i r) emitted.
Proof.
  intros Hchunks. induction 1 as [| chunk chunks r rs i0 i1 i2 Hr _ IH]; [done |].
  destruct IH as [Hle Hrest]; [intros c Hc; apply Hchunks; by right |].
  pose proof (Emitted_kind _ _ _ _ _ (Hchunks chunk (list_elem_of_here _ _)) Hr) as Hkind.
  assert (i0 ≤ i1) as Hstep.
  { destruct Hkind as [[_ ->] | [(? & ? & ?) ->]]; lia. }
  split; [lia |]. constructor.
  - destruct Hkind as [[? _] | [? _]]; [by left | by right].
  - eapply Forall_impl; [done |]. intros r' [? | (? & ? & ?)]; [by left | right].
    unfold matchKind. lia.
Qed.

Lemma EmittedAll_apart (lines : list string) (chunks : list UpdateChunk) (i i' : Z)
    (emitted : list Replacement) :
  noContextInsertion chunks →
  EmittedAll lines chunks i emitted i' →
  ∀ (a b : nat) (r1 r2 : Replacement),
    a ≠ b → emitted !! a = Some r1 → emitted !! b = Some r2 → apart r1 r2.
Proof.
  intros Hchunks.
  induction 1 as [| chunk chunks r rs i0 i1 i2 Hr Hall IH]; intros a b r1 r2 Hab Ha Hb.
  { by rewrite lookup_nil in Ha. }
  assert (noContextInsertion chunks) as Hrest by (intros c Hc; apply Hchunks; by right).
  pose proof (Emitted_kind _ _ _ _ _ (Hchunks chunk (list_elem_of_here _ _)) Hr) as Hkind.
  destruct (EmittedAll_kinds _ _ _ _ _ Hrest Hall) as [_ Hkinds].
  rewrite Forall_lookup in Hkinds.
  destruct a as [| a], b as [| b]; simpl in Ha, Hb; [done | | | by eapply (IH Hrest a b); [lia | |]].
  - injection Ha as <-. specialize (Hkinds b r2 Hb).
    unfold apart, appendKind, matchKind in *. lia.
  - injection Hb as <-. specialize (Hkinds a r1 Ha).
    unfold apart, appendKind, matchKind in *. lia.
Qed.

(** X1.  The replacements of chunks of which none is an insertion at a context
    never overlap: of two of them, the one that starts first ends at or
    before the start of the other. *)
Theorem replacements_apart_without_context_insertion
    (lines : list string) (filePath : string) (chunks : list UpdateChunk)
    (replacements : list Replacement) :
  noContextInsertion chunks →
  computeReplacements lines filePath chunks = Ok replacements →
  ∀ (a b : nat) (r1 r2 : Replacement),
    a ≠ b → replacements !! a = Some r1 → replacements !! b = Some r2 →
    repStart r1 ≤ repStart r2 → repStart r1 + repLen r1 ≤ repStart r2.
Proof.
  intros Hchunks (emitted & lineIndex & -> & Hall)%computeReplacements_Ok a b r1 r2 Hab Ha Hb.
  destruct (proj1 (Permutation_inj _ _) (sortByStart_perm emitted)) as (_ & f & Hinj & Hf).
  rewrite Hf in Ha, Hb.
  eapply (EmittedAll_apart _ _ _ _ _ Hchunks Hall (f a) (f b)); [| done | done].
  intros Heq. by apply Hinj in Heq.
Qed.

(** ** One chunk that matches *)

(** X2.  An update chunk with no change context whose old lines occur in the
    file, and nowhere before that place, gives the one replacement of that
    span, and applying it gives the file with the span replaced by the new
    lines. *)
Theorem single_chunk_replaces_span
    (before old after new : list string) (filePath : string) (eof : option bool) :
  old ≠ [] →
  (∀ k : Z, k < JS.len before → ¬ occursAt (before ++ old ++ after) old k) →
  computeReplacements (before ++ old ++ after) filePath [mkUpdateChunk old new None eof]
  = Ok [(JS.len before, JS.len old, new)]
  ∧ applyReplacements (before ++ old ++ after) [(JS.len before, JS.len old, new)]
    = before ++ new ++ after.
Proof.
  intros Hold Hfirst. split; [| apply applyReplacement_span].
  assert (seekSequence (before ++ old ++ after) old 0 = JS.len before) as Hseek.
  { apply (lowestMatch_unique (before ++ old ++ after) old 0); [done | |].
    - by apply seekSequence_lowest.
    - right. split; [unfold JS.len; lia |]. split; [by exists before, after |].
      intros k Hk. apply Hfirst. lia. }
  unfold computeReplacements. simpl chunkLoop.
  unfold chunkStep, locateContext, locateOldLines. simpl.
  rewrite Hseek.
  assert (JS.len before ≠ -1) as Hne by (unfold JS.len; lia).
  rewrite (bool_decide_eq_false_2 (JS.len old = 0)).
  2:{ unfold JS.len. destruct old; [done | simpl; lia]. }
  rewrite (bool_decide_eq_false_2 (JS.len before = -1)) by done. simpl.
  by rewrite (bool_decide_eq_false_2 (JS.len before = -1)) by done.
Qed.

(** ** The cursor only moves forward *)

(** X3.  A chunk with no change context whose old lines, not ending with an
    empty line, do not occur at or after the cursor is refused, even when
    they occur before it: the turn of the loop throws the error that names
    the file and the lines. *)
Theorem old_lines_behind_cursor_not_found
    (lines : list string) (filePath : string) (replacements : list Replacement)
    (lineIndex : Z) (chunk : UpdateChunk) :
  change_context chunk = None → old_lines chunk ≠ [] →
  last (old_lines chunk) ≠ Some EmptyString →
  (∀ k : Z, lineIndex ≤ k → ¬ occursAt lines (old_lines chunk) k) →
  chunkStep lines filePath (replacements, lineIndex) chunk
  = Throw (ExpectedLinesNotFound filePath (old_lines chunk)).
Proof.
  intros Hctx Hold Hlast Hnone.
  assert (seekSequence lines (old_lines chunk) lineIndex = -1) as Hseek.
  { destruct (seekSequence_lowest lines (old_lines chunk) lineIndex Hold)
      as [[-> _] | (Hle & Hocc & _)]; [done |].
    by destruct (Hnone _ Hle). }
  unfold chunkStep, locateContext, locateOldLines. rewrite Hctx, bind_Ok.
  rewrite (bool_decide_eq_false_2 (JS.len (old_lines chunk) = 0)).
  2:{ unfold JS.len. destruct (old_lines chunk); [done | simpl; lia]. }
  rewrite at_last, Hseek.
  rewrite (bool_decide_eq_false_2 (last (old_lines chunk) = Some EmptyString)) by done.
  rewrite andb_false_r. by rewrite (bool_decide_eq_true_2 (-1 = -1)).
Qed.

(** ** The list that [computeReplacements] returns *)

Lemma insertByStart_sorted (r : Replacement) (sorted : list Replacement) :
  StronglySorted startsBefore sorted → StronglySorted startsBefore (insertByStart r sorted).
Proof.
  induction 1 as [| x rest Hrest IH Hx]; simpl.
  - by repeat constructor.
  - case_bool_decide as Hle.
    + constructor; [by constructor |]. constructor; [unfold startsBefore; lia |].
      eapply Forall_impl; [done |]. unfold startsBefore. intros y Hy. lia.
    + constructor; [done |]. rewrite insertByStart_perm.
      constructor; [unfold startsBefore; lia | done].
Qed.

Lemma sortByStart_sorted (replacements : list Replacement) :
  StronglySorted startsBefore (sortByStart replacements).
Proof.
  induction replacements as [| r rest IH]; simpl; [constructor |].
  by apply insertByStart_sorted.
Qed.

Lemma EmittedAll_length (lines : list string) (chunks : list UpdateChunk) (i i' : Z)
    (emitted : list Replacement) :
  EmittedAll lines chunks i emitted i' → length emitted = length chunks.
Proof. induction 1; simpl; [done | by f_equal]. Qed.

Lemma EmittedAll_within (lines : list string) (chunks : list UpdateChunk) (i i' : Z)
    (emitted : list Replacement) :
  EmittedAll lines chunks i emitted i' →
  Forall (λ r, 0 ≤ repStart r ∧ 0 ≤ repLen r ∧ repStart r + repLen r ≤ JS.len lines)
    emitted.
Proof.
  induction 1 as [| chunk chunks r rs i0 i1 i2 Hr _ IH]; [done |].
  constructor; [| done].
  destruct Hr as [context c _ _ _ _ Hocc | _ _ | pattern newSlice found _ _ _ Hocc _];
    unfold repStart, repLen; simpl.
  - apply occursAt_range in Hocc. unfold JS.len in *. simpl in Hocc. lia.
  - unfold JS.len. lia.
  - apply occursAt_range in Hocc. unfold JS.len in *. lia.
Qed.

(** X4.  When [computeReplacements] succeeds, the list it returns has one
    replacement for each chunk, in ascending order of start index, and every
    replacement lies within the file: its start is not negative and its
    start plus its length is at most the number of lines. *)
Theorem computeReplacements_sorted_within_file
    (lines : list string) (filePath : string) (chunks : list UpdateChunk)
    (replacements : list Replacement) :
  computeReplacements lines filePath chunks = Ok replacements →
  length replacements = length chunks
  ∧ StronglySorted startsBefore replacements
  ∧ Forall (λ r, 0 ≤ repStart r ∧ 0 ≤ repLen r ∧ repStart r + repLen r ≤ JS.len lines)
      replacements.
Proof.
  intros (emitted & lineIndex & -> & Hall)%computeReplacements_Ok.
  split; [| split].
  - rewrite sortByStart_perm. by eapply EmittedAll_length.
  - apply sortByStart_sorted.
  - rewrite sortByStart_perm. by eapply EmittedAll_within.
Qed.


(** ** The end of a file after an update *)

Lemma readLines_no_final_newline (content : string) :
  content ≠ EmptyString → JS.endsWith NL content = false →
  readLines content = JS.split newline content
  ∧ ∃ (l : list string) (x : string),
      JS.split newline content = l ++ [x] ∧ x ≠ EmptyString.
Proof.
  intros Hne Hends.
  destruct (string_snoc_cases content) as [-> | (t & a & ->)]; [done |].
  unfold NL in Hends. rewrite endsWith_snoc in Hends. apply bool_decide_eq_false in Hends.
  assert (a ≠ newline) as Ha by congruence.
  pose proof (split_snoc_other newline a t Ha) as Hlast.
  destruct (exists_last (split_nonempty newline (t +:+ String a EmptyString)))
    as (l & x & Hsplit).
  rewrite Hsplit in Hlast. rewrite last_snoc in Hlast.
  split.
  - unfold readLines. rewrite Hsplit, at_last, last_snoc.
    rewrite (bool_decide_eq_false_2 (Some x = Some EmptyString)) by done.
    by rewrite andb_false_r.
  - exists l, x. split; [done | congruence].
Qed.

Lemma sliceInit_NL (t : string) : JS.sliceInit (t +:+ NL) = t.
Proof. apply sliceInit_snoc. Qed.

Lemma writeLines_readLines_normalised (content : string) :
  writeLines (readLines content) = normalisedEnd content.
Proof.
  unfold normalisedEnd. case_bool_decide as Hempty; [by subst |].
  destruct (JS.endsWith NL content) eqn:Hends.
  - apply endsWith_spec in Hends as (t & ->).
    rewrite !sliceInit_NL, readLines_newline_ended.
    case_bool_decide as Ht; [by subst |]. simpl.
    destruct (JS.endsWith NL t) eqn:Ht'.
    + apply endsWith_spec in Ht' as (t' & ->).
      unfold NL at 1. rewrite split_snoc_sep, writeLines_last_empty.
      rewrite <- split_snoc_sep. unfold NL. by rewrite join_split.
    + destruct (readLines_no_final_newline t Ht Ht') as (_ & l & x & Hsplit & Hx).
      rewrite Hsplit, writeLines_last_nonempty by done.
      rewrite <- Hsplit. unfold NL at 1. by rewrite join_split.
  - destruct (readLines_no_final_newline content Hempty Hends) as (-> & l & x & Hsplit & Hx).
    rewrite Hsplit, writeLines_last_nonempty by done.
    rewrite <- Hsplit. unfold NL at 1. by rewrite join_split.
Qed.

(** X5.  An update that changes no line still rewrites the end of the
    file: with no chunks, [deriveNewContents] returns the content with its
    end normalised.  A content without a final newline gets one, a content
    that ends with two or more newlines loses one of them, and a content
    that is a single newline becomes empty. *)
Theorem update_without_chunks_normalises_end (originalContent filePath : string) :
  deriveNewContentsOf originalContent filePath [] = Ok (normalisedEnd originalContent).
Proof.
  unfold deriveNewContentsOf. simpl. by rewrite writeLines_readLines_normalised.
Qed.

(** ** The body of a chunk *)

Lemma startsWith_other_character (a b : ascii) (s : string) :
  a ≠ b → JS.startsWith (String a EmptyString) s = true →
  JS.startsWith (String b EmptyString) s = false.
Proof.
  intros Hab. destruct s as [| c s]; unfold JS.startsWith; [done |].
  destruct (Ascii.eqb_spec a c), (Ascii.eqb_spec b c); congruence.
Qed.

Lemma chunkLines_spec (lines : list string) (fuel i : nat) (oldLines newLines : list string) :
  (length lines ≤ i + fuel)%nat →
  chunkLines lines fuel i oldLines newLines
  = Ok ((i + length (untilChunkEnd (drop i lines)))%nat,
        oldLines ++ oldLinesOf (untilChunkEnd (drop i lines)),
        newLines ++ newLinesOf (untilChunkEnd (drop i lines)),
        false).
Proof.
  revert i oldLines newLines.
  induction fuel as [| fuel IH]; intros i oldLines newLines Hfuel.
  - rewrite drop_ge by lia. simpl.
    rewrite (proj2 (lookup_ge_None lines i)) by lia.
    by rewrite !app_nil_r, Nat.add_0_r.
  - simpl. destruct (lines !! i) as [changeLine |] eqn:Hline.
    + rewrite (drop_S _ _ _ Hline). simpl untilChunkEnd.
      destruct (JS.startsWith "@@" changeLine || JS.startsWith "***" changeLine) eqn:Hguard.
      * simpl. by rewrite !app_nil_r, Nat.add_0_r.
      * apply orb_false_iff in Hguard as [_ Hstars].
        rewrite bool_decide_eq_false_2.
        2:{ intros ->. by rewrite startsWith_stars_eof in Hstars. }
        unfold oldLinesOf, newLinesOf. simpl List.filter. simpl length.
        replace (i + S (length (untilChunkEnd (drop (S i) lines))))%nat
          with (S i + length (untilChunkEnd (drop (S i) lines)))%nat by lia.
        rewrite !Nat.add_1_r.
        destruct (JS.startsWith " " changeLine) eqn:Hsp; simpl.
        { rewrite IH by lia. unfold oldLinesOf, newLinesOf.
          rewrite <- !app_assoc. reflexivity. }
        destruct (JS.startsWith "-" changeLine) eqn:Hminus.
        { rewrite (startsWith_other_character "-" "+" changeLine) by done. simpl.
          rewrite IH by lia. unfold oldLinesOf, newLinesOf.
          rewrite <- ?app_assoc. reflexivity. }
        destruct (JS.startsWith "+" changeLine) eqn:Hplus; simpl;
          rewrite IH by lia; unfold oldLinesOf, newLinesOf;
          rewrite <- ?app_assoc; reflexivity.
    + apply lookup_ge_None in Hline. rewrite drop_ge by lia. simpl.
      by rewrite !app_nil_r, Nat.add_0_r.
Qed.

(** X6.  The inner loop of [parseUpdateChunks], run from line [i], reads
    the lines up to the next line that starts with [@@] or with three
    stars.  Of these, the lines that start with a space or a minus sign give
    the old lines and those that start with a space or a plus sign give the
    new lines, each without its first character and in the order of the
    text; every other line of the body, an empty line among them, is left
    out of both. *)
Theorem chunk_body_classified_by_first_character
    (lines : list string) (i : nat) (oldLines newLines : list string) :
  let body := untilChunkEnd (drop i lines) in
  chunkLines lines (length lines) i oldLines newLines
  = Ok ((i + length body)%nat, oldLines ++ oldLinesOf body, newLines ++ newLinesOf body, false)
  ∧ (∀ line : string,
       JS.startsWith " " line = false → JS.startsWith "-" line = false →
       JS.startsWith "+" line = false →
       oldLinesOf [line] = [] ∧ newLinesOf [line] = []).
Proof.
  intros body. split; [apply chunkLines_spec; lia |].
  intros line Hsp Hminus Hplus. unfold oldLinesOf, newLinesOf. simpl.
  by rewrite Hsp, Hminus, Hplus.
Qed.


(** ** What [applyHunksToFiles] reports *)

Section Reported.
Context {FS : Type} `{!Platform FS}.

Lemma applyHunk_reports (hunk : Hunk) (acc acc' : AffectedPaths) (fs fs' : FS) :
  applyHunk hunk acc fs = (fs', Ok acc') →
  added acc' = added acc ++ addedPaths [hunk]
  ∧ modified acc' = modified acc ++ modifiedPaths [hunk]
  ∧ deleted acc' = deleted acc ++ deletedPaths [hunk].
Proof.
  destruct hunk as [path contents | path | path [target |] chunks]; simpl.
  - intros (fs1 & [] & _ & (fs2 & [] & _ & [= <- <-])%io_bind_is_Ok)%io_bind_is_Ok.
    simpl. by rewrite !app_nil_r.
  - intros (fs1 & [] & _ & [= <- <-])%io_bind_is_Ok. simpl. by rewrite !app_nil_r.
  - intros (fs1 & content & _ & Hrest)%io_bind_is_Ok.
    unfold modifiedPaths. simpl. destruct (negb (bool_decide (target = EmptyString))).
    + apply io_bind_is_Ok in Hrest as (fs2 & [] & _ & Hrest).
      apply io_bind_is_Ok in Hrest as (fs3 & [] & _ & Hrest).
      apply io_bind_is_Ok in Hrest as (fs4 & [] & _ & [= <- <-]).
      simpl. by rewrite !app_nil_r.
    + apply io_bind_is_Ok in Hrest as (fs2 & [] & _ & [= <- <-]).
      simpl. by rewrite !app_nil_r.
  - intros (fs1 & content & _ & (fs2 & [] & _ & [= <- <-])%io_bind_is_Ok)%io_bind_is_Ok.
    simpl. by rewrite !app_nil_r.
Qed.

Lemma hunksLoop_reports (hunks : list Hunk) (acc affected : AffectedPaths) (fs fs' : FS) :
  hunksLoop hunks acc fs = (fs', Ok affected) →
  added affected = added acc ++ addedPaths hunks
  ∧ modified affected = modified acc ++ modifiedPaths hunks
  ∧ deleted affected = deleted acc ++ deletedPaths hunks.
Proof.
  revert acc fs. induction hunks as [| hunk hunks IH]; intros acc fs Hrun.
  - injection Hrun as <- <-. unfold addedPaths, modifiedPaths, deletedPaths. simpl.
    by rewrite !app_nil_r.
  - simpl in Hrun. apply io_bind_is_Ok in Hrun as (fs1 & acc1 & Hhunk & Hloop).
    apply applyHunk_reports in Hhunk as (Ha & Hm & Hd).
    apply IH in Hloop as (-> & -> & ->). rewrite Ha, Hm, Hd.
    change (hunk :: hunks) with ([hunk] ++ hunks).
    unfold addedPaths, modifiedPaths, deletedPaths.
    by rewrite !omap_app, !app_assoc.
Qed.

Lemma paths_partition (hunks : list Hunk) :
  (length (addedPaths hunks) + length (modifiedPaths hunks)
   + length (deletedPaths hunks) = length hunks)%nat.
Proof.
  induction hunks as [| hunk hunks IH]; [done |].
  change (hunk :: hunks) with ([hunk] ++ hunks).
  unfold addedPaths, modifiedPaths, deletedPaths.
  rewrite !omap_app, !length_app.
  fold (addedPaths hunks) (modifiedPaths hunks) (deletedPaths hunks).
  destruct hunk; simpl; lia.
Qed.

End Reported.

(** X7.  When [applyHunksToFiles] returns, the three lists it reports are
    fixed by the list of hunks alone, whatever the file system did: [added]
    holds the paths of the Add hunks, [deleted] those of the Delete hunks
    and [modified], for each Update hunk, the move target when there is one
    and the path itself otherwise, each in the order of the hunks.  So the
    lists together have one entry for each hunk, and at least one entry. *)
Theorem applyHunksToFiles_reports_every_hunk {FS : Type} `{!Platform FS}
    (hunks : list Hunk) (fs fs' : FS) (affected : AffectedPaths) :
  applyHunksToFiles hunks fs = (fs', Ok affected) →
  affected = mkAffectedPaths (addedPaths hunks) (modifiedPaths hunks) (deletedPaths hunks)
  ∧ (length (added affected) + length (modified affected) + length (deleted affected)
     = length hunks)%nat
  ∧ hunks ≠ [].
Proof.
  intros Happly.
  assert (hunks ≠ []) as Hne by (by intros ->).
  destruct hunks as [| hunk hunks]; [done |].
  rewrite applyHunksToFiles_nonempty in Happly.
  apply hunksLoop_reports in Happly as (Ha & Hm & Hd). simpl in Ha, Hm, Hd.
  assert (affected = mkAffectedPaths (addedPaths (hunk :: hunks))
                       (modifiedPaths (hunk :: hunks)) (deletedPaths (hunk :: hunks))) as ->.
  { destruct affected. simpl in *. by subst. }
  split; [done |]. split; [apply paths_partition | done].
Qed.

(** ** The [chat_patch] tool *)

(** X8.  The tool applies nothing unless the patch parses and holds a hunk:
    when [parsePatch] throws, [run] throws the same error with the file
    system as it was, and when the patch holds no hunk [run] throws the
    error of the empty hunk list, again with the file system as it was.
    When [run] returns, its summary names at least one path: the text
    [No changes applied] is never returned. *)
Theorem chat_patch_applies_nothing_or_reports {FS : Type} `{!Platform FS}
    (resolve : string → string) (patchText : string) (fs : FS) :
  (∀ e : Error, parsePatch patchText = Throw e → chatPatchRun resolve patchText fs = (fs, Throw e))
  ∧ (parsePatch patchText = Ok [] → chatPatchRun resolve patchText fs = (fs, Throw NoFilesModified))
  ∧ (∀ (fs' : FS) (summary : string),
       chatPatchRun resolve patchText fs = (fs', Ok summary) →
       summary ≠ "No changes applied").
Proof.
  unfold chatPatchRun. split; [| split].
  - intros e ->. done.
  - intros ->. done.
  - intros fs' summary.
    destruct (parsePatch patchText) as [hunks | e |]; [| done | done].
    intros (fs1 & result & Happly & [= <- <-])%io_bind_is_Ok.
    apply applyHunksToFiles_reports_every_hunk in Happly as (_ & Hcount & Hne).
    rewrite length_fmap in Hcount.
    assert (0 < length hunks)%nat by (destruct hunks; [done | simpl; lia]).
    unfold summaryOf, summaryLines, JS.len.
    destruct (added result) as [| a la], (modified result) as [| m lm],
             (deleted result) as [| d ld]; simpl in *; [lia | ..];
      rewrite ?append_cons; discriminate.
Qed.


(** ** The second try without a last empty line *)

(** X9.  A chunk with no change context whose old lines end with an empty
    line and are not found from the cursor on is tried again without that
    last line: when the shorter pattern is found, the replacement covers the
    shorter pattern only, and the new lines lose their last line too when
    that one is empty. *)
Theorem old_lines_retried_without_last_empty_line
    (lines : list string) (filePath : string) (replacements : list Replacement)
    (lineIndex found : Z) (chunk : UpdateChunk) (pattern : list string) :
  change_context chunk = None →
  old_lines chunk = pattern ++ [EmptyString] →
  (∀ k : Z, lineIndex ≤ k → ¬ occursAt lines (pattern ++ [EmptyString]) k) →
  pattern ≠ [] → lineIndex ≤ found → occursAt lines pattern found →
  (∀ k : Z, lineIndex ≤ k < found → ¬ occursAt lines pattern k) →
  chunkStep lines filePath (replacements, lineIndex) chunk
  = Ok (replacements
        ++ [(found, JS.len pattern,
             if bool_decide (last (new_lines chunk) = Some EmptyString)
             then JS.dropLast (new_lines chunk) else new_lines chunk)],
        found + JS.len pattern).
Proof.
  intros Hctx Hold Hnone Hp Hle Hocc Hlow.
  assert (seekSequence lines (pattern ++ [EmptyString]) lineIndex = -1) as Hfirst.
  { destruct (seekSequence_lowest lines (pattern ++ [EmptyString]) lineIndex)
      as [[-> _] | (Hle' & Hocc' & _)]; [by destruct pattern | done |].
    by destruct (Hnone _ Hle'). }
  assert (seekSequence lines pattern lineIndex = found) as Hsecond.
  { apply (lowestMatch_unique lines pattern lineIndex); [done | |].
    - by apply seekSequence_lowest.
    - right. by repeat split. }
  assert (found ≠ -1) as Hfound by (apply occursAt_range in Hocc; lia).
  unfold chunkStep, locateContext, locateOldLines. rewrite Hctx, bind_Ok, Hold.
  rewrite (bool_decide_eq_false_2 (JS.len (pattern ++ [EmptyString]) = 0)).
  2:{ unfold JS.len. rewrite length_app. simpl. lia. }
  rewrite !at_last, last_snoc, dropLast_snoc, Hfirst, Hsecond.
  rewrite (bool_decide_eq_true_2 (-1 = -1)) by done.
  rewrite (bool_decide_eq_true_2 (0 < JS.len (pattern ++ [EmptyString]))).
  2:{ unfold JS.len. rewrite length_app. simpl. lia. }
  rewrite (bool_decide_eq_true_2 (Some EmptyString = Some EmptyString)) by done.
  simpl. rewrite (bool_decide_eq_false_2 (found = -1)) by done. simpl.
  do 4 f_equal.
  destruct (new_lines chunk) as [| x l]; [done |].
  rewrite (bool_decide_eq_true_2 (0 < JS.len (x :: l))); [done |].
  unfold JS.len. simpl. lia.
Qed.


(** ** The chunker *)

Section ChunkerFacts.
Import Chunker.

Lemma len_app {A} (a b : list A) : JS.len (a ++ b) = JS.len a + JS.len b.
Proof. unfold JS.len. rewrite length_app. lia. Qed.

Lemma len_nonneg {A} (a : list A) : 0 ≤ JS.len a.
Proof. unfold JS.len. lia. Qed.

Lemma len_zero {A} (a : list A) : JS.len a = 0 ↔ a = [].
Proof. unfold JS.len. destruct a; simpl; split; intros; try done; lia. Qed.

Lemma len_pos {A} (a : list A) : 0 < JS.len a ↔ a ≠ [].
Proof. unfold JS.len. destruct a; simpl; split; intros; try done; lia. Qed.

Lemma spansOf_app (start : Z) (gs hs : list (list string)) :
  spansOf start (gs ++ hs) = spansOf start gs ++ spansOf (start + JS.len (concat gs)) hs.
Proof.
  revert start. induction gs as [|g gs IH]; intros start; simpl.
  - f_equal. unfold JS.len. simpl. lia.
  - rewrite IH. do 3 f_equal. rewrite len_app. lia.
Qed.

Lemma chunksOf_app (filePath : string) (start : Z) (gs hs : list (list string)) :
  chunksOf filePath start (gs ++ hs)
  = chunksOf filePath start gs ++ chunksOf filePath (start + JS.len (concat gs)) hs.
Proof. unfold chunksOf. by rewrite spansOf_app, fmap_app. Qed.

Lemma strlen_append (a b : string) : strlen (a +:+ b) = strlen a + strlen b.
Proof.
  unfold strlen. induction a as [|c a IH]; step_append; simpl; [lia|].
  simpl in IH. lia.
Qed.

Lemma weight_app (g h : list string) : weight (g ++ h) = weight g + weight h.
Proof. induction g as [|l g IH]; simpl; [done|]. rewrite IH. lia. Qed.

Lemma weight_nonneg (g : list string) : 0 ≤ weight g.
Proof. induction g as [|l g IH]; simpl; [done|]. unfold strlen. lia. Qed.

Lemma weight_pos (g : list string) : g ≠ [] → 0 < weight g.
Proof.
  destruct g as [|l g]; [done|]. intros _. simpl.
  pose proof (weight_nonneg g). unfold strlen. lia.
Qed.

Lemma weight_join (g : list string) : g ≠ [] → strlen (JS.join NL g) + 1 = weight g.
Proof.
  induction g as [|l g IH]; [done|]. intros _.
  destruct g as [|l' g].
  - simpl. lia.
  - change (JS.join NL (l :: l' :: g)) with (l +:+ NL +:+ JS.join NL (l' :: g)).
    rewrite !strlen_append.
    change (weight (l :: l' :: g)) with (strlen l + 1 + weight (l' :: g)).
    rewrite <- IH by done. change (strlen NL) with 1. lia.
Qed.

Lemma cutWhenFull_snoc (groups : list (list string)) (g : list string) :
  cutWhenFull groups →
  (∀ g1, last groups = Some g1 → MAX_CHUNK_CHARS < weight g1 + strlen (hd EmptyString g) + 1) →
  cutWhenFull (groups ++ [g]).
Proof.
  intros Hfull Hlast k g1 g2 Hk1 Hk2.
  pose proof (lookup_lt_Some _ _ _ Hk2) as Hlt. rewrite length_app in Hlt. simpl in Hlt.
  destruct (decide (S k < length groups)%nat) as [Hin|Hout].
  - rewrite lookup_app_l in Hk1 by lia. rewrite lookup_app_l in Hk2 by lia.
    by apply (Hfull k).
  - assert (Hk : S k = length groups) by lia.
    rewrite lookup_app_l in Hk1 by lia.
    rewrite lookup_app_r, <- Hk, Nat.sub_diag in Hk2 by lia. injection Hk2 as <-.
    apply Hlast. rewrite last_lookup, <- Hk. done.
Qed.

Lemma textStep_inv (filePath : string) (done : list string) (st : TextState)
    (groups : list (list string)) (line : string) :
  TextInv filePath done st groups →
  ∃ groups', TextInv filePath (done ++ [line]) (textStep filePath st (JS.len done) line) groups'.
Proof.
  intros [Hc Hd Hn Hb Hs Hl Hcur Hfirst Hfull Hlast]. unfold textStep.
  destruct (bool_decide (0 < currentLen st)
            && bool_decide (MAX_CHUNK_CHARS < currentLen st + strlen line + 1)) eqn:E.
  - apply andb_true_iff in E as [E1 E2].
    apply bool_decide_eq_true in E1. apply bool_decide_eq_true in E2.
    assert (Hne : current st ≠ []).
    { intros Hnil. rewrite Hl, Hnil in E1. simpl in E1. lia. }
    exists (groups ++ [current st]). simpl.
    split; simpl.
    + rewrite chunksOf_app, Hc. f_equal. unfold chunksOf, currentChunk. simpl.
      unfold chunkOfSpan, spanOf. simpl. by rewrite (Hs Hne).
    + rewrite concat_app. simpl. rewrite app_nil_r. by rewrite Hd.
    + apply Forall_app. split; [done|]. by constructor.
    + apply Forall_app. split; [done|]. constructor; [|done].
      by destruct Hcur.
    + intros _. rewrite concat_app. simpl. rewrite app_nil_r, Hd. lia.
    + unfold strlen. lia.
    + right. by left.
    + done.
    + apply cutWhenFull_snoc; [done|]. intros g Hg. by apply Hlast.
    + intros g Hg _. rewrite last_snoc in Hg. injection Hg as <-. lia.
  - apply andb_false_iff in E.
    exists groups. destruct (current st) as [|l cur] eqn:Ecur.
    + split; simpl; rewrite ?Ecur; simpl; try done.
      * by rewrite <- Hd, app_nil_r.
      * intros _. rewrite <- Hd, app_nil_r. lia.
      * rewrite Hl. simpl. lia.
      * right. by left.
      * intros g Hg. by rewrite Hfirst in Hg.
    + assert (Hw : 0 < weight (l :: cur)) by by apply weight_pos.
      split; simpl; rewrite ?Ecur; simpl; try done.
      * by rewrite <- Hd, <- app_assoc.
      * intros _. by apply Hs.
      * rewrite Hl, weight_app. simpl. lia.
      * right. right. rewrite Hl in E.
        change (l :: cur ++ [line]) with ((l :: cur) ++ [line]).
        rewrite weight_app. simpl.
        destruct E as [E|E]; apply bool_decide_eq_false in E; simpl in *; lia.
      * intros g Hg _. by apply Hlast.
Qed.

Lemma textLoop_inv (filePath : string) (rest done : list string) (st : TextState)
    (groups : list (list string)) :
  TextInv filePath done st groups →
  ∃ groups', TextInv filePath (done ++ rest) (textLoop filePath rest (JS.len done) st) groups'.
Proof.
  revert done st groups. induction rest as [|line rest IH]; intros done st groups Hinv; simpl.
  - rewrite app_nil_r. by exists groups.
  - destruct (textStep_inv filePath done st groups line Hinv) as [groups' Hinv'].
    destruct (IH _ _ _ Hinv') as [groups'' Hinv''].
    exists groups''. rewrite len_app in Hinv''. change (JS.len [line]) with 1 in Hinv''.
    by rewrite <- app_assoc in Hinv''.
Qed.

Lemma chunkText_groups (filePath text : string) :
  ∃ groups : list (list string),
    chunkText filePath text = chunksOf filePath 1 groups
    ∧ concat groups = JS.split newline text
    ∧ Forall (λ group, group ≠ []) groups
    ∧ Forall withinBudget groups
    ∧ cutWhenFull groups.
Proof.
  unfold chunkText.
  destruct (textLoop_inv filePath (JS.split newline text) [] (mkTextState [] [] 1 0) [])
    as [groups [Hc Hd Hn Hb Hs Hl Hcur Hfirst Hfull Hlast]].
  { split; simpl; try done. by left. }
  simpl in *. change (JS.len []) with 0 in *.
  set (st := textLoop filePath (JS.split newline text) 0 (mkTextState [] [] 1 0)) in *.
  case_bool_decide as Hlen.
  - apply len_pos in Hlen. exists (groups ++ [current st]).
    rewrite chunksOf_app, Hc, concat_app. simpl. rewrite app_nil_r.
    repeat split; try done.
    + f_equal. unfold chunksOf, currentChunk, chunkOfSpan, spanOf. simpl.
      by rewrite (Hs Hlen).
    + apply Forall_app. split; [done|]. by constructor.
    + apply Forall_app. split; [done|]. constructor; [|done]. by destruct Hcur.
    + apply cutWhenFull_snoc; [done|]. intros g Hg. by apply Hlast.
  - assert (Hnil : current st = []).
    { apply len_zero. pose proof (len_nonneg (current st)). lia. }
    exists groups. rewrite Hnil, app_nil_r in Hd. done.
Qed.

Lemma spansOf_snoc (start : Z) (gs : list (list string)) (g : list string) :
  spansOf start (gs ++ [g]) = spansOf start gs ++ [spanOf (start + JS.len (concat gs)) g].
Proof. by rewrite spansOf_app. Qed.

Lemma concat_snoc {A} (gs : list (list A)) (g : list A) : concat (gs ++ [g]) = concat gs ++ g.
Proof. rewrite concat_app. simpl. by rewrite app_nil_r. Qed.

Lemma snoc_nonempty {A} (a : list A) (x : A) : a ++ [x] ≠ [].
Proof. by destruct a. Qed.

(** *** [splitByParagraphs]: the paragraphs *)

Lemma paragraphStep_inv (startLine : Z) (pgroups : list (list string))
    (current : list string) (currentStart : Z) (line : string) :
  Forall (λ g, g ≠ []) pgroups →
  (current ≠ [] → currentStart = startLine + JS.len (concat pgroups)) →
  ∃ pgroups' current' currentStart',
    paragraphStep startLine (spansOf startLine pgroups, current, currentStart)
      (JS.len (concat pgroups ++ current)) line
    = (spansOf startLine pgroups', current', currentStart')
    ∧ concat pgroups' ++ current' = (concat pgroups ++ current) ++ [line]
    ∧ Forall (λ g, g ≠ []) pgroups'
    ∧ (current' ≠ [] → currentStart' = startLine + JS.len (concat pgroups')).
Proof.
  intros Hn Hs. unfold paragraphStep.
  set (cs := if bool_decide (JS.len current = 0) then _ else _).
  assert (Hcs : cs = startLine + JS.len (concat pgroups)).
  { subst cs. case_bool_decide as Hlen.
    - apply len_zero in Hlen. subst current. by rewrite app_nil_r.
    - apply Hs. intros ->. by apply Hlen. }
  clearbody cs. subst cs. case_bool_decide as Hblank.
  - exists (pgroups ++ [current ++ [line]]), [], (startLine + JS.len (concat pgroups)).
    split; [|split; [|split]].
    + rewrite spansOf_snoc. do 4 f_equal. unfold spanOf. f_equal.
      rewrite !len_app. change (JS.len [line]) with 1. lia.
    + by rewrite concat_snoc, app_nil_r, app_assoc.
    + apply Forall_app. split; [done|]. constructor; [|done]. apply snoc_nonempty.
    + done.
  - exists pgroups, (current ++ [line]), (startLine + JS.len (concat pgroups)).
    split; [done|]. split; [by rewrite app_assoc|]. done.
Qed.

Lemma paragraphLoop_inv (startLine : Z) (rest : list string) :
  ∀ (pgroups : list (list string)) (current : list string) (currentStart : Z),
  Forall (λ g, g ≠ []) pgroups →
  (current ≠ [] → currentStart = startLine + JS.len (concat pgroups)) →
  ∃ pgroups' current' currentStart',
    paragraphLoop startLine rest (JS.len (concat pgroups ++ current))
      (spansOf startLine pgroups, current, currentStart)
    = (spansOf startLine pgroups', current', currentStart')
    ∧ concat pgroups' ++ current' = (concat pgroups ++ current) ++ rest
    ∧ Forall (λ g, g ≠ []) pgroups'
    ∧ (current' ≠ [] → currentStart' = startLine + JS.len (concat pgroups')).
Proof.
  induction rest as [|line rest IH]; intros pgroups current currentStart Hn Hs;
    cbn [paragraphLoop].
  - exists pgroups, current, currentStart. by rewrite app_nil_r.
  - destruct (paragraphStep_inv startLine pgroups current currentStart line Hn Hs)
      as (pgroups1 & current1 & currentStart1 & -> & Hd1 & Hn1 & Hs1).
    destruct (IH pgroups1 current1 currentStart1 Hn1 Hs1)
      as (pgroups2 & current2 & currentStart2 & Hrun & Hd2 & Hn2 & Hs2).
    exists pgroups2, current2, currentStart2.
    rewrite Hd1, len_app in Hrun. change (JS.len [line]) with 1 in Hrun.
    rewrite Hrun, Hd2, Hd1, <- app_assoc. done.
Qed.

Lemma paragraphsOf_groups (lines : list string) (startLine : Z) :
  ∃ pgroups : list (list string),
    paragraphsOf lines startLine = spansOf startLine pgroups
    ∧ concat pgroups = lines
    ∧ Forall (λ g, g ≠ []) pgroups.
Proof.
  unfold paragraphsOf.
  destruct (paragraphLoop_inv startLine lines [] [] startLine)
    as (pgroups & current & currentStart & Hrun & Hd & Hn & Hs); [done..|].
  change (JS.len (concat [] ++ [])) with 0 in Hrun.
  change (spansOf startLine []) with (@nil Span) in Hrun.
  rewrite Hrun. simpl in Hd. case_bool_decide as Hlen.
  - apply len_pos in Hlen. exists (pgroups ++ [current]).
    rewrite spansOf_snoc, concat_snoc. split; [|split; [done|]].
    + do 2 f_equal. rewrite (Hs Hlen). unfold spanOf. f_equal.
      rewrite <- Hd, len_app. lia.
    + apply Forall_app. split; [done|]. by constructor.
  - assert (Hnil : current = []).
    { apply len_zero. pose proof (len_nonneg current). lia. }
    subst current. rewrite app_nil_r in Hd. by exists pgroups.
Qed.

(** *** [splitByParagraphs]: a long paragraph *)

Lemma chars_app (g h : list string) : chars (g ++ h) = chars g + chars h.
Proof. induction g as [|l g IH]; simpl; [done|]. rewrite IH. lia. Qed.

Lemma chars_nonneg (g : list string) : 0 ≤ chars g.
Proof. induction g as [|l g IH]; simpl; [done|]. unfold strlen. lia. Qed.

Lemma chars_weight (g : list string) : chars g + JS.len g = weight g.
Proof.
  induction g as [|l g IH]; simpl; [done|].
  change (JS.len (l :: g)) with (Z.of_nat (S (length g))). unfold JS.len in IH. lia.
Qed.

Lemma chars_join (g : list string) : chars g ≤ strlen (JS.join NL g).
Proof.
  destruct g as [|l g]; [done|].
  pose proof (weight_join (l :: g) ltac:(done)) as Hw.
  pose proof (chars_weight (l :: g)) as Hc.
  change (JS.len (l :: g)) with (Z.of_nat (S (length g))) in Hc. lia.
Qed.

Lemma sliceStep_inv (maxChars startLine paraStart : Z) (groups : list (list string))
    (slice : list string) (sliceStart sliceLen i : Z) (line : string) :
  Forall (λ g, g ≠ []) groups →
  Forall (withinChars maxChars) groups →
  slice = [] ∨ withinChars maxChars slice →
  sliceLen = weight slice →
  sliceStart = startLine + JS.len (concat groups) →
  paraStart + i = startLine + JS.len (concat groups ++ slice) →
  ∃ groups' slice' sliceStart' sliceLen',
    sliceStep maxChars paraStart (spansOf startLine groups, slice, sliceStart, sliceLen) i line
    = (spansOf startLine groups', slice', sliceStart', sliceLen')
    ∧ concat groups' ++ slice' = (concat groups ++ slice) ++ [line]
    ∧ Forall (λ g, g ≠ []) groups'
    ∧ Forall (withinChars maxChars) groups'
    ∧ withinChars maxChars slice'
    ∧ sliceLen' = weight slice'
    ∧ sliceStart' = startLine + JS.len (concat groups').
Proof.
  intros Hn Hw Hslice Hl Hs Hi. unfold sliceStep.
  destruct (bool_decide (0 < sliceLen) && bool_decide (maxChars < sliceLen + (strlen line + 1)))
    eqn:E.
  - apply andb_true_iff in E as [E1 _]. apply bool_decide_eq_true in E1.
    assert (Hne : slice ≠ []).
    { intros ->. simpl in Hl. lia. }
    exists (groups ++ [slice]), [line], (paraStart + i), (0 + (strlen line + 1)).
    split; [|split; [|split; [|split; [|split; [|split]]]]].
    + rewrite spansOf_snoc. do 5 f_equal. unfold spanOf. by rewrite Hs.
    + by rewrite concat_snoc.
    + apply Forall_app. split; [done|]. by constructor.
    + apply Forall_app. split; [done|]. constructor; [|done]. by destruct Hslice.
    + by left.
    + simpl. lia.
    + by rewrite concat_snoc.
  - exists groups, (slice ++ [line]), sliceStart, (sliceLen + (strlen line + 1)).
    split; [done|]. split; [by rewrite app_assoc|]. split; [done|]. split; [done|].
    split; [|split; [|done]].
    + destruct slice as [|l slice]; [by left|]. right.
      assert (Hpos : 0 < weight (l :: slice)) by by apply weight_pos.
      apply andb_false_iff in E.
      assert (Hfit : weight ((l :: slice) ++ [line]) ≤ maxChars).
      { rewrite weight_app. simpl.
        destruct E as [E|E]; apply bool_decide_eq_false in E; simpl in *; lia. }
      pose proof (chars_weight ((l :: slice) ++ [line])) as Hc.
      pose proof (len_nonneg ((l :: slice) ++ [line])). lia.
    + rewrite weight_app. simpl. lia.
Qed.

Lemma sliceLoop_inv (maxChars startLine paraStart : Z) (rest : list string) :
  ∀ (groups : list (list string)) (slice : list string) (sliceStart sliceLen i : Z),
  Forall (λ g, g ≠ []) groups →
  Forall (withinChars maxChars) groups →
  slice = [] ∨ withinChars maxChars slice →
  sliceLen = weight slice →
  sliceStart = startLine + JS.len (concat groups) →
  paraStart + i = startLine + JS.len (concat groups ++ slice) →
  ∃ groups' slice' sliceStart' sliceLen',
    sliceLoop maxChars paraStart rest i (spansOf startLine groups, slice, sliceStart, sliceLen)
    = (spansOf startLine groups', slice', sliceStart', sliceLen')
    ∧ concat groups' ++ slice' = (concat groups ++ slice) ++ rest
    ∧ Forall (λ g, g ≠ []) groups'
    ∧ Forall (withinChars maxChars) groups'
    ∧ (slice' = [] ∨ withinChars maxChars slice')
    ∧ sliceStart' = startLine + JS.len (concat groups').
Proof.
  induction rest as [|line rest IH];
    intros groups slice sliceStart sliceLen i Hn Hw Hslice Hl Hs Hi; cbn [sliceLoop].
  - exists groups, slice, sliceStart, sliceLen. by rewrite app_nil_r.
  - destruct (sliceStep_inv maxChars startLine paraStart groups slice sliceStart sliceLen i line
                Hn Hw Hslice Hl Hs Hi)
      as (groups1 & slice1 & sliceStart1 & sliceLen1 & -> & Hd1 & Hn1 & Hw1 & Hslice1
          & Hl1 & Hs1).
    destruct (IH groups1 slice1 sliceStart1 sliceLen1 (i + 1) Hn1 Hw1 (or_intror Hslice1)
                Hl1 Hs1)
      as (groups2 & slice2 & sliceStart2 & sliceLen2 & Hrun & Hd2 & Hn2 & Hw2 & Hslice2 & Hs2).
    { rewrite Hd1, len_app. change (JS.len [line]) with 1. lia. }
    exists groups2, slice2, sliceStart2, sliceLen2.
    rewrite Hrun, Hd2, Hd1, <- app_assoc. done.
Qed.

(** *** [splitByParagraphs]: the chunks *)

Lemma flushAcc_inv (maxChars startLine : Z) (processed : list string) (st : AccState)
    (groups : list (list string)) :
  acc st ≠ [] →
  AccInv maxChars startLine processed st groups →
  AccInv maxChars startLine processed (flushAcc st) (groups ++ [acc st]).
Proof.
  intros Hne [Hc Hd Hn Hs Hl Hw Hch Hb]. split; simpl.
  - rewrite spansOf_snoc, Hc. do 2 f_equal. unfold spanOf. by rewrite (Hs Hne).
  - by rewrite concat_snoc, app_nil_r.
  - apply Forall_app. split; [done|]. by constructor.
  - done.
  - done.
  - apply Forall_app. split; [done|]. constructor; [|done]. right.
    specialize (Hb Hne). lia.
  - done.
  - done.
Qed.

Lemma paraStep_inv (maxChars startLine : Z) (processed : list string) (st : AccState)
    (groups : list (list string)) (pg : list string) :
  pg ≠ [] →
  AccInv maxChars startLine processed st groups →
  ∃ groups',
    AccInv maxChars startLine (processed ++ pg)
      (paraStep maxChars st (spanOf (startLine + JS.len processed) pg)) groups'.
Proof.
  intros Hpg Hinv. unfold paraStep.
  change (lines (spanOf (startLine + JS.len processed) pg)) with pg.
  change (start (spanOf (startLine + JS.len processed) pg)) with (startLine + JS.len processed).
  set (st1 := if bool_decide (0 < accLen st) && _ then flushAcc st else st).
  assert (H1 : ∃ groups1,
             AccInv maxChars startLine processed st1 groups1
             ∧ (acc st1 ≠ [] → accLen st1 = 0
                               ∨ accLen st1 + strlen (linesToText pg) ≤ maxChars)).
  { subst st1. destruct (bool_decide (0 < accLen st) && _) eqn:E.
    - apply andb_true_iff in E as [E _]. apply bool_decide_eq_true in E.
      exists (groups ++ [acc st]). split; [|done]. apply flushAcc_inv; [|done].
      intros Hnil. apply (acc_len _ _ _ _ _ Hinv) in Hnil. lia.
    - exists groups. split; [done|]. intros Hne. apply andb_false_iff in E.
      pose proof (acc_chars _ _ _ _ _ Hinv) as Hch.
      pose proof (chars_nonneg (acc st)).
      destruct E as [E|E]; apply bool_decide_eq_false in E; [left|right]; lia. }
  clearbody st1. clear Hinv. destruct H1 as (groups1 & Hinv1 & Hfit).
  case_bool_decide as Hlong.
  - set (st2 := if bool_decide (0 < JS.len (acc st1)) then flushAcc st1 else st1).
    assert (H2 : ∃ groups2, AccInv maxChars startLine processed st2 groups2 ∧ acc st2 = []).
    { subst st2. case_bool_decide as Hlen.
      - apply len_pos in Hlen. exists (groups1 ++ [acc st1]).
        split; [by apply flushAcc_inv|done].
      - exists groups1. split; [done|].
        apply len_zero. pose proof (len_nonneg (acc st1)). lia. }
    clearbody st2. clear Hinv1 Hfit. destruct H2 as (groups2 & [Hc Hd Hn Hs Hl Hw Hch Hb] & Hnil).
    rewrite Hnil, app_nil_r in Hd. rewrite Hc.
    destruct (sliceLoop_inv maxChars startLine (startLine + JS.len processed) pg
                groups2 [] (startLine + JS.len processed) 0 0)
      as (groups3 & slice & sliceStart & sliceLen & -> & Hd3 & Hn3 & Hw3 & Hslice & Hs3);
      [done|done|by left|done|by rewrite Hd|rewrite app_nil_r, Hd; lia|].
    rewrite app_nil_r, Hd in Hd3.
    case_bool_decide as Hlen.
    + apply len_pos in Hlen. exists (groups3 ++ [slice]). split; simpl.
      * rewrite spansOf_snoc. do 2 f_equal. unfold spanOf. by rewrite Hs3.
      * by rewrite Hnil, app_nil_r, concat_snoc.
      * apply Forall_app. split; [done|]. by constructor.
      * done.
      * intros _. by apply Hl.
      * apply Forall_app. split; [done|]. constructor; [|done]. by destruct Hslice.
      * done.
      * done.
    + assert (Hslice' : slice = []).
      { apply len_zero. pose proof (len_nonneg slice). lia. }
      subst slice. rewrite app_nil_r in Hd3. exists groups3. split; simpl; try done.
      by rewrite Hnil, app_nil_r.
  - destruct Hinv1 as [Hc Hd Hn Hs Hl Hw Hch Hb]. exists groups1.
    pose proof (chars_join pg) as Hpg'. unfold linesToText in *.
    split; simpl; try done.
    + by rewrite app_assoc, Hd.
    + intros _. case_bool_decide as Hlen.
      * apply len_zero in Hlen. rewrite Hlen, app_nil_r in Hd. by rewrite Hd.
      * apply Hs. intros Hnil. apply Hlen. by rewrite Hnil.
    + intros Hnil. by apply app_eq_nil in Hnil as [_ ?].
    + rewrite chars_app. lia.
    + intros _. destruct (decide (acc st1 = [])) as [Hnil|Hne].
      * rewrite (Hl Hnil). lia.
      * destruct (Hfit Hne) as [H0|Hle]; lia.
Qed.

Lemma paraLoop_inv (maxChars startLine : Z) (pgroups : list (list string)) :
  ∀ (processed : list string) (st : AccState) (groups : list (list string)),
  Forall (λ g, g ≠ []) pgroups →
  AccInv maxChars startLine processed st groups →
  ∃ groups',
    AccInv maxChars startLine (processed ++ concat pgroups)
      (foldl (paraStep maxChars) st (spansOf (startLine + JS.len processed) pgroups)) groups'.
Proof.
  induction pgroups as [|pg pgroups IH]; intros processed st groups Hpg Hinv; simpl.
  - rewrite app_nil_r. by exists groups.
  - apply Forall_cons in Hpg as [Hpg Hpgs].
    destruct (paraStep_inv maxChars startLine processed st groups pg Hpg Hinv)
      as [groups1 Hinv1].
    destruct (IH _ _ _ Hpgs Hinv1) as [groups2 Hinv2].
    exists groups2. rewrite len_app, Z.add_assoc in Hinv2.
    by rewrite <- app_assoc in Hinv2.
Qed.

Lemma splitByParagraphs_groups (lines : list string) (startLine maxChars : Z) :
  ∃ groups : list (list string),
    splitByParagraphs lines startLine maxChars = spansOf startLine groups
    ∧ concat groups = lines
    ∧ Forall (λ g, g ≠ []) groups
    ∧ Forall (withinChars maxChars) groups.
Proof.
  unfold splitByParagraphs.
  destruct (paragraphsOf_groups lines startLine) as (pgroups & -> & Hd & Hpg).
  destruct (paraLoop_inv maxChars startLine pgroups [] (mkAccState [] [] startLine 0) [])
    as [groups Hinv]; [done|by split|].
  change (startLine + JS.len []) with (startLine + 0) in Hinv.
  rewrite Z.add_0_r in Hinv. simpl in Hinv. rewrite Hd in Hinv.
  set (st := foldl _ _ _) in *. clearbody st.
  case_bool_decide as Hlen.
  - apply len_pos in Hlen. apply flushAcc_inv in Hinv; [|done].
    destruct Hinv as [Hc Hdone Hn _ _ Hw _ _]. exists (groups ++ [acc st]).
    simpl in Hdone. rewrite app_nil_r in Hdone. done.
  - assert (Hnil : acc st = []).
    { apply len_zero. pose proof (len_nonneg (acc st)). lia. }
    destruct Hinv as [Hc Hdone Hn _ _ Hw _ _]. exists groups.
    rewrite Hnil, app_nil_r in Hdone. done.
Qed.

(** *** [chunkMarkdown] *)

Lemma flushSection_groups (filePath : string) (groups : list (list string))
    (linesToFlush : list string) :
  ∃ newGroups : list (list string),
    flushSection filePath (chunksOf filePath 1 groups) (JS.len (concat groups)) linesToFlush
    = chunksOf filePath 1 (groups ++ newGroups)
    ∧ concat newGroups = linesToFlush
    ∧ Forall (λ g, g ≠ []) newGroups
    ∧ Forall (withinChars MAX_CHUNK_CHARS) newGroups
    ∧ (linesToFlush ≠ [] → strlen (JS.join NL linesToFlush) ≤ MAX_CHUNK_CHARS →
       newGroups = [linesToFlush]).
Proof.
  unfold flushSection. case_bool_decide as Hlen.
  - apply len_zero in Hlen. subst. exists []. by rewrite app_nil_r.
  - assert (Hne : linesToFlush ≠ []) by (by intros ->).
    case_bool_decide as Hshort.
    + exists [linesToFlush]. split; [|split; [|split; [|split]]].
      * rewrite chunksOf_app. f_equal. unfold chunksOf, chunkOfSpan, spanOf, linesToText.
        simpl.
        replace (JS.len (concat groups) + 1) with (1 + JS.len (concat groups)) by lia.
        replace (JS.len (concat groups) + JS.len linesToFlush)
          with (1 + JS.len (concat groups) + JS.len linesToFlush - 1) by lia.
        done.
      * simpl. by rewrite app_nil_r.
      * by constructor.
      * constructor; [|done]. right. pose proof (chars_join linesToFlush).
        unfold linesToText in Hshort. lia.
      * done.
    + destruct (splitByParagraphs_groups linesToFlush (JS.len (concat groups) + 1)
                  MAX_CHUNK_CHARS) as (newGroups & -> & Hd & Hn & Hw).
      exists newGroups. rewrite chunksOf_app.
      replace (JS.len (concat groups) + 1) with (1 + JS.len (concat groups)) by lia.
      split; [done|]. split; [done|]. split; [done|]. split; [done|].
      intros _ Hle. unfold linesToText in Hshort. lia.
Qed.

Lemma pieces_tail (P : string → Prop) (groups : list (list string)) :
  ∀ ls : list string,
  concat groups = ls → Forall (λ g, g ≠ []) groups → Forall P (tail ls) →
  Forall (λ g, Forall P (tail g)) groups.
Proof.
  induction groups as [|g groups IH]; intros ls Hc Hn Ht; [done|].
  apply Forall_cons in Hn as [Hg Hn]. simpl in Hc. subst ls.
  destruct g as [|x g]; [done|]. simpl in Ht. apply Forall_app in Ht as [Hg' Hrest].
  constructor; [done|]. apply (IH (concat groups)); [done..|].
  destruct (concat groups); [done|]. by apply Forall_cons in Hrest as [_ ?].
Qed.

Lemma sectionStep_inv (filePath : string) (groups : list (list string))
    (sectionLines : list string) (line : string) :
  Forall (λ line, JS.startsWith "#" line = false) (tail sectionLines) →
  ∃ (newGroups : list (list string)) (sectionLines' : list string),
    sectionStep filePath (chunksOf filePath 1 groups, JS.len (concat groups), sectionLines)
      (JS.len (concat groups ++ sectionLines)) line
    = (chunksOf filePath 1 (groups ++ newGroups), JS.len (concat (groups ++ newGroups)),
       sectionLines')
    ∧ concat (groups ++ newGroups) ++ sectionLines' = (concat groups ++ sectionLines) ++ [line]
    ∧ Forall (λ g, g ≠ []) newGroups
    ∧ Forall headingFirst newGroups
    ∧ Forall (withinChars MAX_CHUNK_CHARS) newGroups
    ∧ Forall (λ line, JS.startsWith "#" line = false) (tail sectionLines').
Proof.
  intros Ht. unfold sectionStep. destruct (JS.startsWith "#" line) eqn:Hline.
  - destruct (flushSection_groups filePath groups sectionLines)
      as (newGroups & -> & Hd & Hn' & Hw & _).
    exists newGroups, [line]. rewrite concat_app, Hd. split; [done|].
    split; [done|]. split; [done|]. split; [|done].
    by apply (pieces_tail _ newGroups sectionLines).
  - exists [], (sectionLines ++ [line]). rewrite !app_nil_r.
    split; [done|]. split; [by rewrite app_assoc|]. split; [done|]. split; [done|].
    split; [done|].
    destruct sectionLines as [|x sectionLines]; [done|]. simpl in *.
    apply Forall_app. split; [done|]. by constructor.
Qed.

Lemma sectionLoop_inv (filePath : string) (rest : list string) :
  ∀ (groups : list (list string)) (sectionLines : list string),
  Forall (λ line, JS.startsWith "#" line = false) (tail sectionLines) →
  ∃ (newGroups : list (list string)) (sectionLines' : list string),
    sectionLoop filePath rest (JS.len (concat groups ++ sectionLines))
      (chunksOf filePath 1 groups, JS.len (concat groups), sectionLines)
    = (chunksOf filePath 1 (groups ++ newGroups), JS.len (concat (groups ++ newGroups)),
       sectionLines')
    ∧ concat (groups ++ newGroups) ++ sectionLines' = (concat groups ++ sectionLines) ++ rest
    ∧ Forall (λ g, g ≠ []) newGroups
    ∧ Forall headingFirst newGroups
    ∧ Forall (withinChars MAX_CHUNK_CHARS) newGroups
    ∧ Forall (λ line, JS.startsWith "#" line = false) (tail sectionLines').
Proof.
  induction rest as [|line rest IH]; intros groups sectionLines Ht; cbn [sectionLoop].
  - exists [], sectionLines. by rewrite !app_nil_r.
  - destruct (sectionStep_inv filePath groups sectionLines line Ht)
      as (newGroups1 & sectionLines1 & -> & Hd1 & Hn1 & Hh1 & Hw1 & Ht1).
    destruct (IH (groups ++ newGroups1) sectionLines1 Ht1)
      as (newGroups2 & sectionLines2 & Hrun & Hd2 & Hn2 & Hh2 & Hw2 & Ht2).
    exists (newGroups1 ++ newGroups2), sectionLines2.
    rewrite Hd1, len_app in Hrun. change (JS.len [line]) with 1 in Hrun.
    rewrite Hrun, app_assoc, Hd2, Hd1.
    split; [done|]. split; [by rewrite <- (app_assoc _ [line] rest)|].
    split; [by apply Forall_app|]. split; [by apply Forall_app|].
    split; [by apply Forall_app|done].
Qed.

Lemma frontMatterEnd_range (lines : list string) :
  0 < frontMatterEnd lines → frontMatterEnd lines < JS.len lines.
Proof.
  unfold frontMatterEnd. case_bool_decide; [|lia].
  destruct (findIndexFrom_spec (λ line, bool_decide (line = "---")) (drop 1 lines) 1)
    as [[-> _] | (n & -> & (line & Hline & _) & _)]; [lia|].
  intros _. apply lookup_lt_Some in Hline. rewrite length_drop in Hline.
  unfold JS.len. lia.
Qed.

Lemma chunkMarkdown_sections (filePath text : string) :
  ∃ front body : list (list string),
    chunkMarkdown filePath text = chunksOf filePath 1 (front ++ body)
    ∧ concat (front ++ body) = JS.split newline text
    ∧ Forall (λ g, g ≠ []) (front ++ body)
    ∧ Forall headingFirst body
    ∧ Forall (withinChars MAX_CHUNK_CHARS) body
    ∧ (front = []
       ∨ 0 < frontMatterEnd (JS.split newline text)
         ∧ front = [take (Z.to_nat (frontMatterEnd (JS.split newline text) + 1))
                      (JS.split newline text)]).
Proof.
  unfold chunkMarkdown. set (lines := JS.split newline text).
  set (front := if bool_decide (0 < frontMatterEnd lines) then _ else _).
  assert (Hfront : ∃ groups0 : list (list string),
             front = (chunksOf filePath 1 groups0, JS.len (concat groups0))
             ∧ concat groups0 ++ drop (Z.to_nat (JS.len (concat groups0))) lines = lines
             ∧ Forall (λ g, g ≠ []) groups0
             ∧ (groups0 = []
                ∨ 0 < frontMatterEnd lines
                  ∧ groups0 = [take (Z.to_nat (frontMatterEnd lines + 1)) lines])).
  { subst front. case_bool_decide as Hend.
    - pose proof (frontMatterEnd_range lines Hend) as Hlt.
      set (e := frontMatterEnd lines) in *.
      assert (Hlen : JS.len (take (Z.to_nat (e + 1)) lines) = e + 1).
      { unfold JS.len in *. rewrite length_take. lia. }
      exists [take (Z.to_nat (e + 1)) lines]. simpl. rewrite app_nil_r, Hlen.
      split; [|split; [|split]].
      + unfold chunksOf, chunkOfSpan, spanOf, linesToText. simpl. rewrite Hlen.
        replace (1 + (e + 1) - 1) with (e + 1) by lia. done.
      + apply take_drop.
      + constructor; [|done]. intros Hnil. rewrite Hnil in Hlen.
        change (JS.len []) with 0 in Hlen. lia.
      + by right.
    - exists []. split; [done|]. split; [done|]. split; [done|]. by left. }
  clearbody front. destruct Hfront as (groups0 & -> & Hd0 & Hn0 & Hfront).
  destruct (sectionLoop_inv filePath (drop (Z.to_nat (JS.len (concat groups0))) lines)
              groups0 [])
    as (groups1 & sectionLines & Hrun & Hd1 & Hn1 & Hh1 & Hw1 & Ht1); [done|].
  rewrite app_nil_r in Hrun, Hd1. rewrite Hrun, Hd0 in *.
  destruct (flushSection_groups filePath (groups0 ++ groups1) sectionLines)
    as (newGroups & -> & Hd & Hn & Hw & _).
  exists groups0, (groups1 ++ newGroups). rewrite !app_assoc.
  split; [done|]. split; [by rewrite concat_app, Hd|].
  split; [apply Forall_app; split; [by apply Forall_app|done]|].
  split; [|split; [by apply Forall_app|done]].
  apply Forall_app. split; [done|]. by apply (pieces_tail _ newGroups sectionLines).
Qed.

Lemma chunkMarkdown_groups (filePath text : string) :
  cutsIntoChunks filePath (JS.split newline text) (chunkMarkdown filePath text).
Proof.
  destruct (chunkMarkdown_sections filePath text) as (front & body & ? & ? & ? & _).
  by exists (front ++ body).
Qed.

(** *** What the chunks of a text are *)

Lemma chunkFile_groups (lowerExt : string → string) (filePath text : string) :
  cutsIntoChunks filePath (JS.split newline text) (chunkFile lowerExt filePath text).
Proof.
  unfold chunkFile. destruct (_ || _).
  - apply chunkMarkdown_groups.
  - destruct (chunkText_groups filePath text) as (groups & ? & ? & ? & _).
    by exists groups.
Qed.

Lemma chunksOf_elem (filePath : string) (groups : list (list string)) :
  ∀ (start : Z) (chunk : Chunk),
  chunk ∈ chunksOf filePath start groups →
  ∃ (pre : list (list string)) (group : list string) (post : list (list string)),
    groups = pre ++ group :: post
    ∧ chunk = chunkOfSpan filePath (spanOf (start + JS.len (concat pre)) group).
Proof.
  induction groups as [|g groups IH]; intros start chunk Hin.
  - by apply elem_of_nil in Hin.
  - unfold chunksOf in Hin. simpl in Hin. apply elem_of_cons in Hin as [-> | Hin].
    + exists [], g, groups. split; [done|]. simpl. change (JS.len []) with 0.
      by rewrite Z.add_0_r.
    + apply IH in Hin as (pre & group & post & -> & ->).
      exists (g :: pre), group, post. split; [done|]. simpl.
      rewrite len_app, Z.add_assoc. done.
Qed.

Lemma chunksOf_contents (filePath : string) (groups : list (list string)) (start : Z) :
  content <$> chunksOf filePath start groups = JS.join NL <$> groups.
Proof.
  revert start. induction groups as [|g groups IH]; intros start; [done|].
  unfold chunksOf in *. simpl. by rewrite IH.
Qed.

Lemma join_app (sep : string) (a b : list string) :
  a ≠ [] → b ≠ [] → JS.join sep (a ++ b) = JS.join sep a +:+ sep +:+ JS.join sep b.
Proof.
  intros Ha Hb. induction a as [|x a IH]; [done|].
  destruct a as [|y a].
  - destruct b; done.
  - change (JS.join sep ((x :: y :: a) ++ b))
      with (x +:+ sep +:+ JS.join sep ((y :: a) ++ b)).
    rewrite IH by done.
    change (JS.join sep (x :: y :: a)) with (x +:+ sep +:+ JS.join sep (y :: a)).
    by rewrite !append_assoc.
Qed.

Lemma join_concat (sep : string) (groups : list (list string)) :
  Forall (λ g, g ≠ []) groups →
  JS.join sep (JS.join sep <$> groups) = JS.join sep (concat groups).
Proof.
  induction 1 as [|g groups Hg Hn IH]; [done|].
  destruct groups as [|h groups].
  - simpl. by rewrite app_nil_r.
  - change (JS.join sep (JS.join sep <$> g :: h :: groups))
      with (JS.join sep g +:+ sep +:+ JS.join sep (JS.join sep <$> h :: groups)).
    rewrite IH. change (concat (g :: h :: groups)) with (g ++ concat (h :: groups)).
    rewrite join_app; [done..|].
    apply Forall_cons in Hn as [Hh _]. simpl. by destruct h.
Qed.

Lemma chunksOf_lookup (filePath : string) (groups : list (list string)) :
  ∀ (start : Z) (k : nat) (chunk : Chunk),
  chunksOf filePath start groups !! k = Some chunk →
  ∃ group : list string,
    groups !! k = Some group
    ∧ chunk = chunkOfSpan filePath (spanOf (start + JS.len (concat (take k groups))) group).
Proof.
  unfold chunksOf.
  induction groups as [|g groups IH]; intros start k chunk Hk; simpl in Hk.
  - by rewrite lookup_nil in Hk.
  - destruct k as [|k]; simpl in Hk.
    + injection Hk as <-. exists g. split; [done|]. simpl. change (JS.len []) with 0.
      by rewrite Z.add_0_r.
    + apply IH in Hk as (group & Hg & ->). exists group. split; [done|]. simpl.
      by rewrite len_app, Z.add_assoc.
Qed.

Lemma concat_lookup_head {A} (groups : list (list A)) (k : nat) (g : list A) :
  groups !! k = Some g → g ≠ [] →
  concat groups !! length (concat (take k groups)) = head g.
Proof.
  intros Hk Hg. pose proof (take_drop_middle groups k g Hk) as Heq.
  set (pre := take k groups) in *. rewrite <- Heq, concat_app.
  rewrite lookup_app_r, Nat.sub_diag by lia. simpl. by destruct g.
Qed.

Lemma linesBetween_tail (a g b : list string) :
  g ≠ [] →
  linesBetween (a ++ g ++ b) (1 + JS.len a + 1) (1 + JS.len a + JS.len g - 1) = tail g.
Proof.
  intros Hg. unfold linesBetween.
  replace (Z.to_nat (1 + JS.len a + 1 - 1)) with (length a + 1)%nat by (unfold JS.len; lia).
  rewrite <- drop_drop, drop_app_length. destruct g as [|x g]; [done|]. simpl.
  rewrite drop_0.
  replace (Z.to_nat (1 + JS.len a + JS.len (x :: g) - 1 - (1 + JS.len a + 1) + 1))
    with (length g) by (unfold JS.len; simpl; lia).
  by rewrite take_app_length.
Qed.

Lemma sectionLoop_no_heading (filePath : string) (rest : list string) :
  ∀ (i : Z) (chunks : list Chunk) (sectionStart : Z) (sectionLines : list string),
  Forall (λ line, JS.startsWith "#" line = false) rest →
  sectionLoop filePath rest i (chunks, sectionStart, sectionLines)
  = (chunks, sectionStart, sectionLines ++ rest).
Proof.
  induction rest as [|line rest IH]; intros i chunks sectionStart sectionLines Hrest;
    cbn [sectionLoop].
  - by rewrite app_nil_r.
  - apply Forall_cons in Hrest as [Hline Hrest]. unfold sectionStep. rewrite Hline.
    rewrite IH by done. by rewrite <- app_assoc.
Qed.

Lemma chunkMarkdown_one_section (filePath text : string) :
  strlen text ≤ MAX_CHUNK_CHARS →
  JS.at_ (JS.split newline text) 0 ≠ Some "---" →
  Forall (λ line, JS.startsWith "#" line = false) (tail (JS.split newline text)) →
  chunkMarkdown filePath text = [mkChunk filePath 1 (JS.len (JS.split newline text)) text].
Proof.
  intros Hshort Hfront Htail. unfold chunkMarkdown.
  pose proof (join_split newline text) as Hjoin. fold NL in Hjoin.
  set (lines := JS.split newline text) in *.
  unfold frontMatterEnd. rewrite (bool_decide_eq_false_2 (JS.at_ lines 0 = Some "---")) by done.
  rewrite (bool_decide_eq_false_2 (0 < -1)) by lia. simpl drop.
  assert (Hlines : lines ≠ []) by apply split_nonempty.
  destruct lines as [|first rest] eqn:Hl; [done|]. simpl in Htail.
  change (drop (Z.to_nat 0) (first :: rest)) with (first :: rest). cbn [sectionLoop].
  assert (Hstep : sectionStep filePath ([], 0, []) 0 first = ([], 0, [first])).
  { unfold sectionStep. by destruct (JS.startsWith "#" first). }
  rewrite Hstep, sectionLoop_no_heading by done. simpl app.
  unfold flushSection. rewrite bool_decide_eq_false_2 by done.
  unfold linesToText. rewrite Hjoin, bool_decide_eq_true_2 by done.
  simpl. by rewrite Z.add_0_l.
Qed.

Lemma chunkText_one_chunk (filePath text : string) :
  strlen text < MAX_CHUNK_CHARS →
  chunkText filePath text = [mkChunk filePath 1 (JS.len (JS.split newline text)) text].
Proof.
  intros Hshort.
  destruct (chunkText_groups filePath text) as (groups & -> & Hd & Hn & _ & Hfull).
  pose proof (join_split newline text) as Hjoin. fold NL in Hjoin.
  assert (Hweight : weight (concat groups) = strlen text + 1).
  { rewrite Hd, <- weight_join by apply split_nonempty. by rewrite Hjoin. }
  destruct groups as [|g1 [|g2 groups]].
  - simpl in Hd. symmetry in Hd. by apply split_nonempty in Hd.
  - simpl in Hd. rewrite app_nil_r in Hd. subst g1.
    unfold chunksOf, chunkOfSpan, spanOf. simpl. rewrite Hjoin. do 2 f_equal. lia.
  - exfalso. specialize (Hfull 0%nat g1 g2 eq_refl eq_refl).
    apply Forall_cons in Hn as [_ Hn]. apply Forall_cons in Hn as [Hg2 _].
    simpl in Hweight. rewrite !weight_app in Hweight.
    pose proof (weight_nonneg (concat groups)).
    destruct g2 as [|l g2]; [done|]. simpl in *. pose proof (weight_nonneg g2). lia.
Qed.

End ChunkerFacts.

(** X10.  The chunks that [chunkFile] makes of a text, as Markdown or as
    plain text, cut the lines of the text into consecutive groups, none of
    them empty: every line is in one chunk, in order; each chunk has the
    path of the file, the numbers of its first and last line counted from 1,
    and its lines joined by newlines.  There is always a chunk. *)
Theorem chunkFile_cuts_lines_into_chunks
    (lowerExt : string → string) (filePath text : string) :
  cutsIntoChunks filePath (JS.split newline text) (Chunker.chunkFile lowerExt filePath text)
  ∧ Chunker.chunkFile lowerExt filePath text ≠ [].
Proof.
  pose proof (chunkFile_groups lowerExt filePath text) as Hcut.
  split; [done|]. destruct Hcut as (groups & -> & Hd & Hn).
  destruct groups as [|g groups]; [|done].
  simpl in Hd. symmetry in Hd. by apply split_nonempty in Hd.
Qed.

(** X11.  Each chunk of [chunkFile] is what it says: its line numbers lie
    within the text, first before last, and its content is the lines of the
    text with these numbers, joined by newlines. *)
Theorem chunkFile_chunk_is_its_line_range
    (lowerExt : string → string) (filePath text : string) :
  Forall (λ chunk,
            Chunker.path chunk = filePath
            ∧ 1 ≤ Chunker.startLine chunk ≤ Chunker.endLine chunk
            ∧ Chunker.endLine chunk ≤ JS.len (JS.split newline text)
            ∧ Chunker.content chunk
              = JS.join NL (linesBetween (JS.split newline text)
                              (Chunker.startLine chunk) (Chunker.endLine chunk)))
    (Chunker.chunkFile lowerExt filePath text).
Proof.
  destruct (chunkFile_groups lowerExt filePath text) as (groups & -> & Hd & Hn).
  apply Forall_forall. intros chunk Hin.
  apply chunksOf_elem in Hin as (pre & group & post & -> & ->).
  rewrite <- Hd. apply Forall_app in Hn as [_ Hn]. apply Forall_cons in Hn as [Hg _].
  apply len_pos in Hg. pose proof (len_nonneg (concat pre)) as Hpre.
  pose proof (len_nonneg (concat post)) as Hpost.
  unfold chunkOfSpan, spanOf, linesBetween. simpl.
  rewrite concat_app. simpl. rewrite !len_app.
  split; [done|]. split; [lia|]. split; [lia|]. f_equal.
  replace (Z.to_nat (1 + JS.len (concat pre) - 1)) with (length (concat pre))
    by (unfold JS.len; lia).
  rewrite drop_app_length.
  replace (Z.to_nat (1 + JS.len (concat pre) + JS.len group - 1 - (1 + JS.len (concat pre)) + 1))
    with (length group) by (unfold JS.len; lia).
  by rewrite take_app_length.
Qed.

(** X12.  The contents of the chunks of [chunkFile], joined by newlines,
    are the text: nothing is lost and nothing is added. *)
Theorem chunkFile_contents_join_to_text
    (lowerExt : string → string) (filePath text : string) :
  JS.join NL (Chunker.content <$> Chunker.chunkFile lowerExt filePath text) = text.
Proof.
  destruct (chunkFile_groups lowerExt filePath text) as (groups & -> & Hd & Hn).
  rewrite chunksOf_contents, join_concat, Hd by done. apply join_split.
Qed.

(** X13.  A chunk of [chunkText] of more than one line has fewer than
    [MAX_CHUNK_CHARS] characters: only a chunk of a single line can be
    longer. *)
Theorem chunkText_chunk_within_budget (filePath text : string) :
  Forall (λ chunk,
            Chunker.strlen (Chunker.content chunk) < Chunker.MAX_CHUNK_CHARS
            ∨ Chunker.startLine chunk = Chunker.endLine chunk)
    (Chunker.chunkText filePath text).
Proof.
  destruct (chunkText_groups filePath text) as (groups & -> & Hd & Hn & Hb & _).
  apply Forall_forall. intros chunk Hin.
  apply chunksOf_elem in Hin as (pre & group & post & -> & ->).
  apply Forall_app in Hn as [_ Hn]. apply Forall_cons in Hn as [Hg _].
  apply Forall_app in Hb as [_ Hb]. apply Forall_cons in Hb as [[Hone | Hw] _].
  - right. unfold chunkOfSpan, spanOf, JS.len. simpl. lia.
  - left. unfold chunkOfSpan, spanOf. simpl.
    pose proof (weight_join group Hg). lia.
Qed.



(** X14.  [chunkText] starts a new chunk only when it must: the first line
    of a chunk, added to the chunk before it, would have taken its count
    (the length of the content, one for the newline that ends it, the
    length of the line and one more) over [MAX_CHUNK_CHARS]. *)
Theorem chunkText_cuts_only_when_full
    (filePath text : string) (k : nat) (c1 c2 : Chunker.Chunk) (line : string) :
  Chunker.chunkText filePath text !! k = Some c1 →
  Chunker.chunkText filePath text !! S k = Some c2 →
  JS.at_ (JS.split newline text) (Chunker.startLine c2 - 1) = Some line →
  Chunker.MAX_CHUNK_CHARS
  < Chunker.strlen (Chunker.content c1) + 1 + Chunker.strlen line + 1.
Proof.
  destruct (chunkText_groups filePath text) as (groups & -> & Hd & Hn & _ & Hfull).
  intros H1 H2 Hline.
  apply chunksOf_lookup in H1 as (g1 & Hg1 & ->).
  apply chunksOf_lookup in H2 as (g2 & Hg2 & ->).
  pose proof (Forall_lookup_1 _ _ _ _ Hn Hg1) as Hne1.
  pose proof (Forall_lookup_1 _ _ _ _ Hn Hg2) as Hne2.
  specialize (Hfull k g1 g2 Hg1 Hg2).
  unfold chunkOfSpan, spanOf in *. simpl in *.
  rewrite <- Hd in Hline.
  replace (1 + JS.len (concat (take (S k) groups)) - 1)
    with (Z.of_nat (length (concat (take (S k) groups)))) in Hline by (unfold JS.len; lia).
  rewrite at_of_nat, (concat_lookup_head groups (S k) g2 Hg2 Hne2) in Hline.
  destruct g2 as [|l g2]; [done|]. injection Hline as <-. simpl in Hfull.
  pose proof (weight_join g1 Hne1). lia.
Qed.

(** X15.  A chunk of [chunkMarkdown] never runs across a heading: apart
    from the chunk of the front matter, no line of a chunk after its first
    line starts with [#]. *)
Theorem chunkMarkdown_chunk_never_spans_heading (filePath text : string) :
  Forall (λ chunk,
            (0 < Chunker.frontMatterEnd (JS.split newline text)
             ∧ Chunker.startLine chunk = 1
             ∧ Chunker.endLine chunk = Chunker.frontMatterEnd (JS.split newline text) + 1)
            ∨ Forall (λ line, JS.startsWith "#" line = false)
                (linesBetween (JS.split newline text)
                   (Chunker.startLine chunk + 1) (Chunker.endLine chunk)))
    (Chunker.chunkMarkdown filePath text).
Proof.
  destruct (chunkMarkdown_sections filePath text)
    as (front & body & -> & Hd & Hn & Hh & _ & Hfront).
  apply Forall_forall. intros chunk Hin.
  apply chunksOf_elem in Hin as (pre & group & post & Heq & ->).
  assert (Hgroup : group ≠ []).
  { rewrite Heq in Hn. apply Forall_app in Hn as [_ Hn].
    by apply Forall_cons in Hn as [? _]. }
  assert (Hcase : (pre = [] ∧ front = [group]) ∨ headingFirst group).
  { destruct Hfront as [-> | [_ ->]].
    - right. simpl in Heq. rewrite Heq in Hh. apply Forall_app in Hh as [_ Hh].
      by apply Forall_cons in Hh as [? _].
    - destruct pre as [|f pre]; simpl in Heq.
      + left. injection Heq as Hf _. by rewrite Hf.
      + right. injection Heq as _ Hb. rewrite Hb in Hh. apply Forall_app in Hh as [_ Hh].
        by apply Forall_cons in Hh as [? _]. }
  destruct Hcase as [[-> Hf] | Hhead].
  - left. destruct Hfront as [-> | [Hend Hfront]]; [done|].
    rewrite Hfront in Hf. injection Hf as <-.
    pose proof (frontMatterEnd_range _ Hend) as Hlt.
    unfold chunkOfSpan, spanOf. simpl. change (JS.len []) with 0.
    split; [done|]. split; [done|].
    unfold JS.len in *. rewrite length_take. lia.
  - right. rewrite <- Hd, Heq, concat_app. simpl. unfold chunkOfSpan, spanOf. simpl.
    by rewrite linesBetween_tail.
Qed.


(** X16.  A chunk of [chunkMarkdown] other than the chunk of the front
    matter is a single line, or its lines hold at most [MAX_CHUNK_CHARS]
    characters, the newlines between them not counted: its content may be
    longer than the budget by the number of its newlines. *)
Theorem chunkMarkdown_chunk_within_budget (filePath text : string) :
  Forall (λ chunk,
            (0 < Chunker.frontMatterEnd (JS.split newline text)
             ∧ Chunker.startLine chunk = 1
             ∧ Chunker.endLine chunk = Chunker.frontMatterEnd (JS.split newline text) + 1)
            ∨ Chunker.startLine chunk = Chunker.endLine chunk
            ∨ Chunker.strlen (Chunker.content chunk)
              ≤ Chunker.MAX_CHUNK_CHARS + (Chunker.endLine chunk - Chunker.startLine chunk))
    (Chunker.chunkMarkdown filePath text).
Proof.
  destruct (chunkMarkdown_sections filePath text)
    as (front & body & -> & Hd & Hn & _ & Hw & Hfront).
  apply Forall_forall. intros chunk Hin.
  apply chunksOf_elem in Hin as (pre & group & post & Heq & ->).
  assert (Hgroup : group ≠ []).
  { rewrite Heq in Hn. apply Forall_app in Hn as [_ Hn].
    by apply Forall_cons in Hn as [? _]. }
  assert (Hcase : (pre = [] ∧ front = [group]) ∨ withinChars Chunker.MAX_CHUNK_CHARS group).
  { destruct Hfront as [-> | [_ ->]].
    - right. simpl in Heq. rewrite Heq in Hw. apply Forall_app in Hw as [_ Hw].
      by apply Forall_cons in Hw as [? _].
    - destruct pre as [|f pre]; simpl in Heq.
      + left. injection Heq as Hf _. by rewrite Hf.
      + right. injection Heq as _ Hb. rewrite Hb in Hw. apply Forall_app in Hw as [_ Hw].
        by apply Forall_cons in Hw as [? _]. }
  destruct Hcase as [[-> Hf] | [Hone | Hchars]].
  - left. destruct Hfront as [-> | [Hend Hfront]]; [done|].
    rewrite Hfront in Hf. injection Hf as <-.
    pose proof (frontMatterEnd_range _ Hend) as Hlt.
    unfold chunkOfSpan, spanOf. simpl. change (JS.len []) with 0.
    split; [done|]. split; [done|].
    unfold JS.len in *. rewrite length_take. lia.
  - right. left. unfold chunkOfSpan, spanOf, JS.len. simpl. lia.
  - right. right. unfold chunkOfSpan, spanOf. simpl.
    pose proof (weight_join group Hgroup). pose proof (chars_weight group). lia.
Qed.

(** X17.  A text of fewer than [MAX_CHUNK_CHARS] characters is one chunk,
    with all its lines: always as plain text, and as Markdown when its first
    line is not [---] and no line after the first starts with [#]. *)
Theorem short_text_is_one_chunk
    (lowerExt : string → string) (filePath text : string) :
  Chunker.strlen text < Chunker.MAX_CHUNK_CHARS →
  JS.at_ (JS.split newline text) 0 ≠ Some "---" →
  Forall (λ line, JS.startsWith "#" line = false) (tail (JS.split newline text)) →
  Chunker.chunkFile lowerExt filePath text
  = [Chunker.mkChunk filePath 1 (JS.len (JS.split newline text)) text].
Proof.
  intros Hshort Hfront Htail. unfold Chunker.chunkFile. destruct (_ || _).
  - apply chunkMarkdown_one_section; [lia|done..].
  - by apply chunkText_one_chunk.
Qed.

(** ** Replacing a string once *)

Section TextFacts.
Import Text.

Lemma startsWith_nil (s : string) : JS.startsWith EmptyString s = true.
Proof. by destruct s. Qed.

Lemma startsWith_cons (a b : ascii) (p s : string) :
  JS.startsWith (String a p) (String b s)
  = if Ascii.eqb a b then JS.startsWith p s else false.
Proof. reflexivity. Qed.

Lemma startsWith_spec (p s : string) :
  JS.startsWith p s = true ↔ ∃ after : string, s = p +:+ after.
Proof.
  revert s. induction p as [|a p IH]; intros s.
  - rewrite startsWith_nil. split; [|done]. intros _. exists s. by step_append.
  - destruct s as [|b s].
    + split; [done|]. intros [after Heq]. step_append. discriminate.
    + rewrite startsWith_cons. destruct (Ascii.eqb_spec a b) as [->|Hab].
      * rewrite IH. split; intros [after Heq]; exists after; step_append; congruence.
      * split; [done|]. intros [after Heq]. step_append. congruence.
Qed.

Lemma length_append (a b : string) :
  String.length (a +:+ b) = (String.length a + String.length b)%nat.
Proof. induction a as [|c a IH]; step_append; simpl; [done|]. by rewrite IH. Qed.

Lemma occursInString_0 (p s : string) :
  occursInString p s 0 ↔ JS.startsWith p s = true.
Proof.
  rewrite startsWith_spec. split.
  - intros (before & after & -> & Hlen). destruct before; [|simpl in Hlen; lia].
    exists after. by step_append.
  - intros [after ->]. exists EmptyString, after. by step_append.
Qed.

Lemma occursInString_S (p : string) (c : ascii) (s : string) (n : Z) :
  0 < n → occursInString p (String c s) n ↔ occursInString p s (n - 1).
Proof.
  intros Hn. split.
  - intros (before & after & Heq & Hlen). destruct before as [|b before]; [simpl in Hlen; lia|].
    step_append. injection Heq as _ ->. exists before, after. split; [done|].
    simpl in Hlen. lia.
  - intros (before & after & -> & Hlen). exists (String c before), after.
    step_append. split; [done|]. simpl. lia.
Qed.

Lemma occursInString_nonneg (p s : string) (n : Z) : occursInString p s n → 0 ≤ n.
Proof. intros (before & after & _ & <-). lia. Qed.

Lemma occursInString_nil (p : string) (n : Z) :
  occursInString p EmptyString n → n = 0.
Proof.
  intros (before & after & Heq & <-). destruct before; [done|]. step_append. discriminate.
Qed.

Lemma indexOfFrom_spec (p s : string) (i : Z) :
  (indexOfFrom p s i = -1 ∧ ∀ n : Z, ¬ occursInString p s n)
  ∨ (∃ n : Z, 0 ≤ n ∧ indexOfFrom p s i = i + n ∧ occursInString p s n
              ∧ ∀ m : Z, m < n → ¬ occursInString p s m).
Proof.
  revert i. induction s as [|c s IH]; intros i; simpl.
  - destruct (JS.startsWith p EmptyString) eqn:Hp.
    + right. exists 0. split; [lia|]. split; [lia|]. split; [by apply occursInString_0|].
      intros m Hm Hocc. apply occursInString_nonneg in Hocc. lia.
    + left. split; [done|]. intros n Hocc.
      pose proof (occursInString_nil _ _ Hocc) as ->.
      apply occursInString_0 in Hocc. congruence.
  - destruct (JS.startsWith p (String c s)) eqn:Hp.
    + right. exists 0. split; [lia|]. split; [lia|]. split; [by apply occursInString_0|].
      intros m Hm Hocc. apply occursInString_nonneg in Hocc. lia.
    + assert (H0 : ¬ occursInString p (String c s) 0).
      { intros Hocc. apply occursInString_0 in Hocc. congruence. }
      destruct (IH (i + 1)) as [[-> Hnone] | (n & Hn & -> & Hocc & Hfirst)].
      * left. split; [done|]. intros n Hocc.
        pose proof (occursInString_nonneg _ _ _ Hocc).
        destruct (decide (n = 0)) as [->|]; [done|].
        apply occursInString_S in Hocc; [|lia]. by apply Hnone in Hocc.
      * right. exists (n + 1). split; [lia|]. split; [lia|]. split.
        { apply occursInString_S; [lia|]. by replace (n + 1 - 1) with n by lia. }
        intros m Hm Hocc'. pose proof (occursInString_nonneg _ _ _ Hocc').
        destruct (decide (m = 0)) as [->|]; [done|].
        apply occursInString_S in Hocc'; [|lia]. apply Hfirst in Hocc'; [done|lia].
Qed.

Lemma lastIndexOfFrom_spec (p s : string) (i : Z) :
  0 ≤ i →
  (lastIndexOfFrom p s i = -1 ∧ ∀ n : Z, ¬ occursInString p s n)
  ∨ (∃ n : Z, 0 ≤ n ∧ lastIndexOfFrom p s i = i + n ∧ occursInString p s n
              ∧ ∀ m : Z, n < m → ¬ occursInString p s m).
Proof.
  revert i. induction s as [|c s IH]; intros i Hi; simpl.
  - destruct (JS.startsWith p EmptyString) eqn:Hp.
    + right. exists 0. split; [lia|]. split; [lia|]. split; [by apply occursInString_0|].
      intros m Hm Hocc. apply occursInString_nil in Hocc. lia.
    + left. split; [done|]. intros n Hocc.
      pose proof (occursInString_nil _ _ Hocc) as ->.
      apply occursInString_0 in Hocc. congruence.
  - destruct (IH (i + 1)) as [[Hlater Hnone] | (n & Hn & Hlater & Hocc & Hlast)]; [lia| |].
    + rewrite Hlater. rewrite bool_decide_eq_true_2 by done.
      destruct (JS.startsWith p (String c s)) eqn:Hp.
      * right. exists 0. split; [lia|]. split; [lia|]. split; [by apply occursInString_0|].
        intros m Hm Hocc. apply occursInString_S in Hocc; [|lia]. by apply Hnone in Hocc.
      * left. split; [done|]. intros n Hocc.
        pose proof (occursInString_nonneg _ _ _ Hocc).
        destruct (decide (n = 0)) as [->|].
        { apply occursInString_0 in Hocc. congruence. }
        apply occursInString_S in Hocc; [|lia]. by apply Hnone in Hocc.
    + rewrite Hlater. rewrite bool_decide_eq_false_2 by lia.
      right. exists (n + 1). split; [lia|]. split; [lia|]. split.
      { apply occursInString_S; [lia|]. by replace (n + 1 - 1) with n by lia. }
      intros m Hm Hocc'. apply occursInString_S in Hocc'; [|lia].
      apply Hlast in Hocc'; [done|lia].
Qed.

Lemma substring_0 (s : string) : JS.substring 0 s = s.
Proof. reflexivity. Qed.

Lemma substring_S (n : nat) (c : ascii) (s : string) :
  JS.substring (S n) (String c s) = JS.substring n s.
Proof. reflexivity. Qed.

Lemma substring_append (a b : string) : JS.substring (String.length a) (a +:+ b) = b.
Proof.
  induction a as [|c a IH]; step_append; simpl; [apply substring_0|].
  by rewrite substring_S.
Qed.

Lemma takeString_append (a b : string) : takeString (String.length a) (a +:+ b) = a.
Proof. induction a as [|c a IH]; step_append; simpl; [by destruct b|]. by rewrite IH. Qed.

Lemma takeString_all (s : string) : takeString (String.length s) s = s.
Proof. induction s as [|c s IH]; simpl; [done|]. by rewrite IH. Qed.

Lemma slice_prefix (a b : string) :
  slice (a +:+ b) 0 (Z.of_nat (String.length a)) = a.
Proof.
  unfold slice. rewrite length_append.
  rewrite (bool_decide_eq_false_2 (0 < 0)) by lia.
  rewrite (bool_decide_eq_false_2 (Z.of_nat (String.length a) < 0)) by lia.
  replace (Z.to_nat (Z.min 0 _)) with 0%nat by lia. rewrite substring_0.
  replace (Z.to_nat _) with (String.length a) by lia.
  apply takeString_append.
Qed.

Lemma sliceFrom_suffix (a b : string) :
  sliceFrom (a +:+ b) (Z.of_nat (String.length a)) = b.
Proof.
  unfold sliceFrom, slice. rewrite length_append.
  rewrite (bool_decide_eq_false_2 (Z.of_nat (String.length a) < 0)) by lia.
  rewrite (bool_decide_eq_false_2 (Z.of_nat (String.length a + String.length b) < 0)) by lia.
  replace (Z.to_nat (Z.min (Z.of_nat (String.length a)) _)) with (String.length a) by lia.
  rewrite substring_append.
  replace (Z.to_nat _) with (String.length b) by lia.
  apply takeString_all.
Qed.

Lemma append_prefix_eq (a b x y : string) :
  a +:+ x = b +:+ y → String.length a = String.length b → a = b ∧ x = y.
Proof.
  revert b. induction a as [|c a IH]; intros [|d b] Heq Hlen; try done; step_append.
  injection Heq as -> Heq. simpl in Hlen. destruct (IH b Heq) as [-> ->]; [lia|done].
Qed.

Lemma occursInString_unique_prefix (p s before after : string) (i : Z) :
  s = before +:+ p +:+ after →
  (∀ j : Z, occursInString p s j → j = i) →
  ∀ before' after' : string, s = before' +:+ p +:+ after' → before' = before.
Proof.
  intros Hs Huniq before' after' Hs'.
  assert (Hi : Z.of_nat (String.length before) = i) by (apply Huniq; by exists before, after).
  assert (Hi' : Z.of_nat (String.length before') = i) by (apply Huniq; by exists before', after').
  rewrite Hs in Hs'. by apply append_prefix_eq in Hs' as [-> _]; [|lia].
Qed.

Lemma replaceOnce_found (content oldString newString : string) :
  oldString ≠ newString → oldString ≠ EmptyString →
  (replaceOnce content oldString newString false = Throws NotFound
   ∧ ∀ i : Z, ¬ occursInString oldString content i)
  ∨ (∃ first last : Z,
       first < last
       ∧ occursInString oldString content first ∧ occursInString oldString content last
       ∧ replaceOnce content oldString newString false = Throws MultipleMatches)
  ∨ (∃ before after : string,
       content = before +:+ oldString +:+ after
       ∧ (∀ j : Z, occursInString oldString content j → j = Z.of_nat (String.length before))
       ∧ replaceOnce content oldString newString false
         = Returns (before +:+ newString +:+ after)).
Proof.
  intros Hdiff Hne. unfold replaceOnce, indexOf, lastIndexOf.
  rewrite (bool_decide_eq_false_2 (oldString = newString)) by done.
  rewrite (bool_decide_eq_false_2 (oldString = EmptyString)) by done.
  destruct (indexOfFrom_spec oldString content 0)
    as [[-> Hnone] | (n & Hn & -> & Hocc & Hfirst)].
  { left. by rewrite bool_decide_eq_true_2. }
  right. rewrite (bool_decide_eq_false_2 (0 + n = -1)) by lia.
  destruct (lastIndexOfFrom_spec oldString content 0)
    as [[_ Hnone] | (m & Hm & -> & Hocc' & Hlast)]; [lia|by apply Hnone in Hocc|].
  assert (Hnm : n ≤ m).
  { destruct (decide (n ≤ m)); [done|]. apply Hfirst in Hocc'; [done|lia]. }
  case_bool_decide as Hsame.
  - left. exists n, m. split; [lia|done].
  - right. assert (m = n) as -> by lia.
    destruct Hocc as (before & after & Hcontent & Hlen).
    exists before, after. split; [done|]. split.
    + intros j Hj. rewrite Hlen. destruct (decide (j < n)) as [Hlt|Hge].
      * by apply Hfirst in Hj.
      * destruct (decide (n < j)) as [Hgt|]; [|lia]. by apply Hlast in Hj.
    + rewrite Z.add_0_l, <- Hlen. do 2 f_equal.
      * rewrite Hcontent. apply slice_prefix.
      * f_equal. rewrite Hcontent, <- append_assoc.
        replace (Z.of_nat (String.length before) + Z.of_nat (String.length oldString))
          with (Z.of_nat (String.length (before +:+ oldString)))
          by (rewrite length_append; lia).
        apply sliceFrom_suffix.
Qed.

(** *** Replacing every occurrence *)

Lemma splitPiecesBy_skip (sep a rest : string) :
  splitPiecesBy sep (String.length a) (a +:+ rest) = splitPiecesBy sep 0 rest.
Proof.
  induction a as [|c a IH]; step_append; [done|]. simpl. apply IH.
Qed.

Lemma splitBy_match (sep rest : string) :
  sep ≠ EmptyString → splitBy sep (sep +:+ rest) = EmptyString :: splitBy sep rest.
Proof.
  intros Hsep. destruct sep as [|a sep]; [done|]. unfold splitBy. step_append.
  cbn [splitPiecesBy].
  assert (Hstart : JS.startsWith (String a sep) (String a (sep +:+ rest)) = true).
  { apply startsWith_spec. exists rest. by step_append. }
  rewrite Hstart.
  replace (String.length (String a sep) - 1)%nat with (String.length sep) by (simpl; lia).
  rewrite splitPiecesBy_skip.
  by destruct (splitPiecesBy (String a sep) 0 rest).
Qed.

Lemma splitBy_other (sep : string) (c : ascii) (s : string) :
  JS.startsWith sep (String c s) = false →
  splitBy sep (String c s)
  = match splitBy sep s with
    | w :: ws => String c w :: ws
    | [] => []
    end.
Proof.
  intros Hstart. unfold splitBy. cbn [splitPiecesBy]. rewrite Hstart.
  by destruct (splitPiecesBy sep 0 s).
Qed.

Lemma occursInString_length (p s : string) (i : Z) :
  occursInString p s i → i + Z.of_nat (String.length p) ≤ Z.of_nat (String.length s).
Proof. intros (before & after & -> & <-). rewrite !length_append. lia. Qed.

Lemma occursInString_append (p s rest : string) (i : Z) :
  occursInString p s i → occursInString p (s +:+ rest) i.
Proof.
  intros (before & after & -> & Hlen). exists before, (after +:+ rest).
  by rewrite !append_assoc.
Qed.

Lemma append_prefix_shorter (a x b y : string) :
  a +:+ x = b +:+ y → (String.length b ≤ String.length a)%nat → ∃ z : string, a = b +:+ z.
Proof.
  revert a. induction b as [|d b IH]; intros a Heq Hlen.
  - exists a. by step_append.
  - destruct a as [|c a]; [simpl in Hlen; lia|]. step_append. injection Heq as -> Heq.
    simpl in Hlen. destruct (IH a Heq) as [z ->]; [lia|]. exists z. by step_append.
Qed.

Lemma SplitsAt_cons (sep : string) (c : ascii) (s w : string) (ws : list string) :
  JS.startsWith sep (String c s) = false →
  SplitsAt sep s (w :: ws) → SplitsAt sep (String c s) (String c w :: ws).
Proof.
  intros Hstart Hsplit. inversion Hsplit as [s0 Hnone | piece rest pieces Hleft Hrest]; subst.
  - apply SplitsAt_last. intros i Hocc. pose proof (occursInString_nonneg _ _ _ Hocc).
    destruct (decide (i = 0)) as [->|].
    + apply occursInString_0 in Hocc. congruence.
    + apply occursInString_S in Hocc; [|lia]. by apply Hnone in Hocc.
  - change (String c (w +:+ sep +:+ rest)) with (String c w +:+ sep +:+ rest).
    apply SplitsAt_more; [|done]. intros i Hocc.
    pose proof (occursInString_nonneg _ _ _ Hocc).
    destruct (decide (i = 0)) as [->|].
    + apply (occursInString_append _ _ rest) in Hocc. rewrite append_assoc in Hocc.
      apply occursInString_0 in Hocc.
      change (String c w +:+ sep +:+ rest) with (String c (w +:+ sep +:+ rest)) in Hocc.
      congruence.
    + change (String c w +:+ sep) with (String c (w +:+ sep)) in Hocc.
      apply occursInString_S in Hocc; [|lia]. apply Hleft in Hocc. simpl. lia.
Qed.

Lemma splitBy_SplitsAt (sep s : string) : sep ≠ EmptyString → SplitsAt sep s (splitBy sep s).
Proof.
  intros Hsep. remember (String.length s) as n eqn:Hn.
  revert s Hn. induction (lt_wf n) as [n _ IH]. intros s ->.
  destruct s as [|c s].
  - apply SplitsAt_last. intros i Hocc. apply occursInString_length in Hocc as Hlen.
    apply occursInString_nonneg in Hocc. destruct sep; [done|]. simpl in Hlen. lia.
  - destruct (JS.startsWith sep (String c s)) eqn:Hstart.
    + apply startsWith_spec in Hstart as [rest Heq]. rewrite Heq, splitBy_match by done.
      rewrite <- (append_nil_l (sep +:+ rest)). apply SplitsAt_more.
      * intros i Hocc. apply occursInString_length in Hocc as Hlen.
        apply occursInString_nonneg in Hocc. rewrite append_nil_l in Hlen. simpl. lia.
      * apply (IH (String.length rest)); [|done].
        rewrite Heq, length_append. destruct sep; [done|]. simpl. lia.
    + rewrite splitBy_other by done.
      pose proof (IH (String.length s) ltac:(simpl; lia) s eq_refl) as Hsplit.
      destruct (splitBy sep s) as [|w ws]; [inversion Hsplit|].
      by apply SplitsAt_cons.
Qed.

Lemma SplitsAt_nonempty (sep s : string) (pieces : list string) :
  SplitsAt sep s pieces → pieces ≠ [].
Proof. by intros []. Qed.

Lemma SplitsAt_join (sep s : string) (pieces : list string) :
  SplitsAt sep s pieces → JS.join sep pieces = s.
Proof.
  induction 1 as [s Hnone | piece rest pieces Hleft Hrest IH]; [done|].
  apply SplitsAt_nonempty in Hrest. destruct pieces as [|p pieces]; [done|].
  change (JS.join sep (piece :: p :: pieces)) with (piece +:+ sep +:+ JS.join sep (p :: pieces)).
  by rewrite IH.
Qed.

Lemma splitBy_none (sep s : string) :
  (∀ i : Z, ¬ occursInString sep s i) → splitBy sep s = [s].
Proof.
  induction s as [|c s IH]; intros Hnone; [done|].
  rewrite splitBy_other.
  - rewrite IH; [done|]. intros i Hocc. apply (Hnone (i + 1)).
    pose proof (occursInString_nonneg _ _ _ Hocc).
    apply occursInString_S; [lia|]. by replace (i + 1 - 1) with i by lia.
  - destruct (JS.startsWith sep (String c s)) eqn:Hstart; [|done].
    apply occursInString_0 in Hstart. by apply Hnone in Hstart.
Qed.

Lemma splitBy_piece (sep piece rest : string) :
  sep ≠ EmptyString →
  (∀ i : Z, occursInString sep (piece +:+ sep) i → i = Z.of_nat (String.length piece)) →
  splitBy sep (piece +:+ sep +:+ rest) = piece :: splitBy sep rest.
Proof.
  intros Hsep. induction piece as [|c piece IH]; intros Hleft; step_append.
  - by rewrite splitBy_match.
  - rewrite splitBy_other.
    + rewrite IH; [done|].
      intros i Hocc. pose proof (occursInString_nonneg _ _ _ Hocc).
      specialize (Hleft (i + 1)). simpl in Hleft. step_append.
      assert (i + 1 = Z.of_nat (S (String.length piece))); [|lia].
      apply Hleft. apply occursInString_S; [lia|]. by replace (i + 1 - 1) with i by lia.
    + destruct (JS.startsWith sep (String c (piece +:+ sep +:+ rest))) eqn:Hstart; [|done].
      apply startsWith_spec in Hstart as [after Heq].
      change (String c (piece +:+ sep +:+ rest)) with (String c piece +:+ sep +:+ rest) in Heq.
      rewrite <- append_assoc in Heq.
      apply append_prefix_shorter in Heq as [z Hz].
      * specialize (Hleft 0). simpl in Hleft.
        assert (0 = Z.of_nat (S (String.length piece))); [|lia].
        apply Hleft. exists EmptyString, z. by step_append.
      * rewrite length_append. lia.
Qed.

Lemma SplitsAt_splitBy (sep s : string) (pieces : list string) :
  sep ≠ EmptyString → SplitsAt sep s pieces → splitBy sep s = pieces.
Proof.
  intros Hsep. induction 1 as [s Hnone | piece rest pieces Hleft Hrest IH].
  - by apply splitBy_none.
  - by rewrite splitBy_piece, IH.
Qed.

End TextFacts.

(** X18.  [replaceOnce] without [replaceAll] returns a result exactly when
    the two strings differ and either [oldString] is empty, and then the
    result is [newString] alone, whatever the content; or [oldString]
    occurs in the content at one place only, and then the result is the
    content with [newString] at that place. *)
Theorem replaceOnce_replaces_the_only_occurrence
    (content oldString newString result : string) :
  Text.replaceOnce content oldString newString false = Text.Returns result
  ↔ oldString ≠ newString
    ∧ (oldString = EmptyString ∧ result = newString
       ∨ oldString ≠ EmptyString
         ∧ ∃ before after : string,
             content = before +:+ oldString +:+ after
             ∧ result = before +:+ newString +:+ after
             ∧ ∀ before' after' : string,
                 content = before' +:+ oldString +:+ after' → before' = before).
Proof.
  destruct (decide (oldString = newString)) as [Hsame|Hdiff].
  { unfold Text.replaceOnce. rewrite bool_decide_eq_true_2 by done.
    split; [done|]. by intros [? _]. }
  destruct (decide (oldString = EmptyString)) as [Hempty|Hne].
  { unfold Text.replaceOnce. rewrite bool_decide_eq_false_2 by done.
    rewrite bool_decide_eq_true_2 by done. split.
    - intros [= <-]. split; [done|]. by left.
    - intros [_ [[_ ->] | [? _]]]; done. }
  destruct (replaceOnce_found content oldString newString Hdiff Hne)
    as [[Hrun Hnone] | [(first & last & Hlt & Hfirst & Hlast & Hrun)
                       | (before & after & Hcontent & Huniq & Hrun)]];
    rewrite Hrun.
  - split; [done|]. intros [_ [[? _] | [_ (before & after & Hcontent & _)]]]; [done|].
    exfalso. apply (Hnone (Z.of_nat (String.length before))). by exists before, after.
  - split; [done|]. intros [_ [[? _] | [_ (before & after & Hcontent & _ & Huniq)]]]; [done|].
    exfalso. destruct Hfirst as (b1 & a1 & H1 & Hl1), Hlast as (b2 & a2 & H2 & Hl2).
    rewrite (Huniq b1 a1 H1) in Hl1. rewrite (Huniq b2 a2 H2) in Hl2. lia.
  - split.
    + intros [= <-]. split; [done|]. right. split; [done|]. exists before, after.
      split; [done|]. split; [done|].
      by apply (occursInString_unique_prefix oldString content before after
                  (Z.of_nat (String.length before)) Hcontent).
    + intros [_ [[? _] | [_ (before' & after' & Hcontent' & -> & Huniq')]]]; [done|].
      pose proof (Huniq' before after Hcontent) as ->.
      rewrite Hcontent in Hcontent'.
      apply append_prefix_eq in Hcontent' as [_ Heq]; [|done].
      apply append_prefix_eq in Heq as [_ ->]; done.
Qed.

(** X19.  What [replaceOnce] refuses: equal strings, always; an [oldString]
    that does not occur in the content, with or without [replaceAll]; and,
    without [replaceAll], an [oldString] that occurs at two places, also
    when the two occurrences overlap. *)
Theorem replaceOnce_rejections (content oldString newString : string) :
  (∀ replaceAll : bool,
     Text.replaceOnce content oldString newString replaceAll = Text.Throws Text.SameStrings
     ↔ oldString = newString)
  ∧ (∀ replaceAll : bool,
       Text.replaceOnce content oldString newString replaceAll = Text.Throws Text.NotFound
       ↔ oldString ≠ newString ∧ oldString ≠ EmptyString
         ∧ ∀ i : Z, ¬ occursInString oldString content i)
  ∧ (Text.replaceOnce content oldString newString false = Text.Throws Text.MultipleMatches
     ↔ oldString ≠ newString ∧ oldString ≠ EmptyString
       ∧ ∃ i j : Z, i ≠ j ∧ occursInString oldString content i
                    ∧ occursInString oldString content j).
Proof.
  destruct (decide (oldString = newString)) as [Hsame|Hdiff].
  { unfold Text.replaceOnce. rewrite bool_decide_eq_true_2 by done.
    split; [done|]. split; [intros _|]; (split; [done|by intros [? _]]). }
  destruct (decide (oldString = EmptyString)) as [Hempty|Hne].
  { unfold Text.replaceOnce. rewrite bool_decide_eq_false_2 by done.
    rewrite bool_decide_eq_true_2 by done.
    split; [done|]. split; [intros _|]; (split; [done|by intros (_ & ? & _)]). }
  split.
  { intros replaceAll. unfold Text.replaceOnce. rewrite bool_decide_eq_false_2 by done.
    rewrite (bool_decide_eq_false_2 (oldString = EmptyString)) by done.
    split; [|done]. repeat case_bool_decide; by destruct replaceAll. }
  assert (Hall : ∀ replaceAll : bool,
             Text.replaceOnce content oldString newString replaceAll = Text.Throws Text.NotFound
             ↔ Text.replaceOnce content oldString newString false = Text.Throws Text.NotFound).
  { intros replaceAll. unfold Text.replaceOnce. rewrite bool_decide_eq_false_2 by done.
    rewrite (bool_decide_eq_false_2 (oldString = EmptyString)) by done.
    case_bool_decide; [done|]. destruct replaceAll; [|done].
    split; [done|]. by case_bool_decide. }
  destruct (replaceOnce_found content oldString newString Hdiff Hne)
    as [[Hrun Hnone] | [(first & last & Hlt & Hfirst & Hlast & Hrun)
                       | (before & after & Hcontent & Huniq & Hrun)]].
  - split; [intros replaceAll; rewrite Hall|]; rewrite Hrun.
    + done.
    + split; [done|]. intros (_ & _ & i & _ & _ & Hi & _). by apply Hnone in Hi.
  - split; [intros replaceAll; rewrite Hall|]; rewrite Hrun.
    + split; [done|]. intros (_ & _ & Hnone). by apply Hnone in Hfirst.
    + split; [|done]. intros _. split; [done|]. split; [done|].
      exists first, last. split; [lia|done].
  - split; [intros replaceAll; rewrite Hall|]; rewrite Hrun.
    + split; [done|]. intros (_ & _ & Hnone).
      exfalso. apply (Hnone (Z.of_nat (String.length before))). by exists before, after.
    + split; [done|]. intros (_ & _ & i & j & Hij & Hi & Hj).
      apply Huniq in Hi, Hj. lia.
Qed.




(** X20.  [replaceOnce] with [replaceAll] returns a result exactly when the
    two strings differ and either [oldString] is empty, and then the result
    is [newString] alone; or [oldString] occurs in the content, and then
    the result is the pieces of the content between the occurrences of
    [oldString], taken from left to right without overlap, with [newString]
    between them. *)
Theorem replaceOnce_replaceAll_every_occurrence
    (content oldString newString result : string) :
  Text.replaceOnce content oldString newString true = Text.Returns result
  ↔ oldString ≠ newString
    ∧ (oldString = EmptyString ∧ result = newString
       ∨ oldString ≠ EmptyString
         ∧ ∃ pieces : list string,
             SplitsAt oldString content pieces
             ∧ (2 ≤ length pieces)%nat
             ∧ result = JS.join newString pieces).
Proof.
  destruct (decide (oldString = newString)) as [Hsame|Hdiff].
  { unfold Text.replaceOnce. rewrite bool_decide_eq_true_2 by done.
    split; [done|]. by intros [? _]. }
  destruct (decide (oldString = EmptyString)) as [Hempty|Hne].
  { unfold Text.replaceOnce. rewrite bool_decide_eq_false_2 by done.
    rewrite bool_decide_eq_true_2 by done. split.
    - intros [= <-]. split; [done|]. by left.
    - intros [_ [[_ ->] | [? _]]]; done. }
  unfold Text.replaceOnce, Text.indexOf.
  rewrite (bool_decide_eq_false_2 (oldString = newString)) by done.
  rewrite (bool_decide_eq_false_2 (oldString = EmptyString)) by done.
  pose proof (splitBy_SplitsAt oldString content Hne) as Hsplit.
  destruct (indexOfFrom_spec oldString content 0)
    as [[-> Hnone] | (n & Hn & -> & Hocc & Hfirst)].
  - rewrite bool_decide_eq_true_2 by done. split; [done|].
    intros [_ [[? _] | [_ (pieces & Hpieces & Hlen & _)]]]; [done|]. exfalso.
    inversion Hpieces as [s0 Hnone' | piece rest pieces' Hleft Hrest]; subst.
    + simpl in Hlen. lia.
    + apply (Hnone (Z.of_nat (String.length piece))). by exists piece, rest.
  - rewrite (bool_decide_eq_false_2 (0 + n = -1)) by lia. split.
    + intros [= <-]. split; [done|]. right. split; [done|].
      exists (Text.splitBy oldString content). split; [done|]. split; [|done].
      inversion Hsplit as [s0 Hnone' Hs0 Hpieces | piece rest pieces' Hleft Hrest Hs Hpieces].
      * by apply Hnone' in Hocc.
      * apply SplitsAt_nonempty in Hrest. destruct pieces'; [done|]. simpl. lia.
    + intros [_ [[? _] | [_ (pieces & Hpieces & _ & ->)]]]; [done|].
      by rewrite (SplitsAt_splitBy oldString content pieces Hne Hpieces).
Qed.

(** ** Parsing the text of a patch *)

(** *** Characters that do not occur *)

Lemma without_nil (c : ascii) : without c EmptyString.
Proof. reflexivity. Qed.

Lemma without_cons (c a : ascii) (s : string) :
  a ≠ c → without c s → without c (String a s).
Proof.
  intros Hac Hs. unfold without in *.
  destruct (split_cons_other c a s Hac) as (w & ws & Hsplit & ->).
  rewrite Hs in Hsplit. by injection Hsplit as <- <-.
Qed.

Lemma without_cons_inv (c a : ascii) (s : string) :
  without c (String a s) → a ≠ c ∧ without c s.
Proof.
  intros Hs. unfold without in *. destruct (decide (a = c)) as [->|Hac].
  - by rewrite split_cons_sep in Hs.
  - split; [done|]. destruct (split_cons_other c a s Hac) as (w & ws & Hsplit & Heq).
    rewrite Heq in Hs. injection Hs as -> ->. done.
Qed.

Lemma without_append (c : ascii) (a b : string) :
  without c a → without c b → without c (a +:+ b).
Proof.
  induction a as [|x a IH]; intros Ha Hb; step_append; [done|].
  apply without_cons_inv in Ha as [Hx Ha]. apply without_cons; [done|]. by apply IH.
Qed.

Lemma split_append_sep (c : ascii) (l rest : string) :
  without c l → JS.split c (l +:+ String c rest) = l :: JS.split c rest.
Proof.
  induction l as [|a l IH]; intros Hl; step_append.
  - apply split_cons_sep.
  - apply without_cons_inv in Hl as [Hac Hl].
    destruct (split_cons_other c a (l +:+ String c rest) Hac) as (w & ws & Hsplit & ->).
    rewrite IH in Hsplit by done. by injection Hsplit as <- <-.
Qed.

Lemma split_join_lines (ls : list string) :
  ls ≠ [] → Forall (without newline) ls → JS.split newline (JS.join NL ls) = ls.
Proof.
  induction ls as [|x ls IH]; [done|]. intros _ Hls.
  apply Forall_cons in Hls as [Hx Hls]. destruct ls as [|y ls]; [done|].
  change (JS.join NL (x :: y :: ls)) with (x +:+ NL +:+ JS.join NL (y :: ls)).
  change (NL +:+ JS.join NL (y :: ls)) with (String newline (JS.join NL (y :: ls))).
  rewrite split_append_sep by done. by rewrite IH.
Qed.

Lemma split_pieces_without (c : ascii) (s : string) : Forall (without c) (JS.split c s).
Proof.
  induction s as [|a s IH].
  - by repeat constructor.
  - destruct (decide (a = c)) as [->|Hac].
    + rewrite split_cons_sep. by constructor.
    + destruct (split_cons_other c a s Hac) as (w & ws & Hsplit & ->).
      rewrite Hsplit in IH. apply Forall_cons in IH as [Hw Hws].
      constructor; [|done]. by apply without_cons.
Qed.

(** *** Header lines *)

Lemma trim_after_space (p : string) : trimmed p → JS.trim (" " +:+ p) = p.
Proof.
  intros [Hstart Hend]. unfold JS.trim.
  change (JS.trimStart (" " +:+ p)) with (JS.trimStart p). by rewrite Hstart.
Qed.

Lemma headerPath_marker (marker p : string) :
  without ":" marker → trimmed p → without ":" p →
  headerPath (marker +:+ ": " +:+ p) = Some p.
Proof.
  intros Hmarker Htrim Hp. unfold headerPath, JS.splitLimit.
  change (": " +:+ p) with (String ":" (" " +:+ p)).
  rewrite split_append_sep by done.
  assert (Hrest : without ":" (" " +:+ p)) by (by apply without_cons).
  rewrite Hrest. simpl. by rewrite trim_after_space.
Qed.

Lemma headerOf_good (p : string) (movePath : option string) (next : nat) :
  p ≠ EmptyString → headerOf (Some p) movePath next = Some (mkHeader p movePath next).
Proof.
  intros Hp. unfold headerOf, JS.truthy. by rewrite bool_decide_eq_false_2.
Qed.

Lemma header_add (lines : list string) (i : nat) (p : string) :
  lines !! i = Some ("*** Add File: " +:+ p) → goodPath p →
  parsePatchHeader lines i = Ok (Some (mkHeader p None (i + 1))).
Proof.
  intros Hline (Hne & Htrim & Hcolon & _). unfold parsePatchHeader. rewrite Hline.
  change (JS.startsWith "*** Add File:" ("*** Add File: " +:+ p)) with true. cbv iota.
  change ("*** Add File: " +:+ p) with ("*** Add File" +:+ ": " +:+ p).
  rewrite headerPath_marker by done. by rewrite headerOf_good.
Qed.

Lemma header_delete (lines : list string) (i : nat) (p : string) :
  lines !! i = Some ("*** Delete File: " +:+ p) → goodPath p →
  parsePatchHeader lines i = Ok (Some (mkHeader p None (i + 1))).
Proof.
  intros Hline (Hne & Htrim & Hcolon & _). unfold parsePatchHeader. rewrite Hline.
  change (JS.startsWith "*** Add File:" ("*** Delete File: " +:+ p)) with false.
  change (JS.startsWith "*** Delete File:" ("*** Delete File: " +:+ p)) with true.
  cbv iota.
  change ("*** Delete File: " +:+ p) with ("*** Delete File" +:+ ": " +:+ p).
  rewrite headerPath_marker by done. by rewrite headerOf_good.
Qed.

Lemma header_update (lines : list string) (i : nat) (p next : string) :
  lines !! i = Some ("*** Update File: " +:+ p) → goodPath p →
  lines !! (i + 1)%nat = Some next → JS.startsWith "*** Move to:" next = false →
  parsePatchHeader lines i = Ok (Some (mkHeader p None (i + 1))).
Proof.
  intros Hline (Hne & Htrim & Hcolon & _) Hnext Hmove. unfold parsePatchHeader.
  rewrite Hline.
  change (JS.startsWith "*** Add File:" ("*** Update File: " +:+ p)) with false.
  change (JS.startsWith "*** Delete File:" ("*** Update File: " +:+ p)) with false.
  change (JS.startsWith "*** Update File:" ("*** Update File: " +:+ p)) with true.
  cbv iota. rewrite Hnext, Hmove.
  change ("*** Update File: " +:+ p) with ("*** Update File" +:+ ": " +:+ p).
  rewrite headerPath_marker by done. by rewrite headerOf_good.
Qed.

Lemma header_update_move (lines : list string) (i : nat) (p target : string) :
  lines !! i = Some ("*** Update File: " +:+ p) → goodPath p →
  lines !! (i + 1)%nat = Some ("*** Move to: " +:+ target) → goodPath target →
  parsePatchHeader lines i = Ok (Some (mkHeader p (Some target) (i + 1 + 1))).
Proof.
  intros Hline (Hne & Htrim & Hcolon & _) Hnext (_ & Htrim' & Hcolon' & _).
  unfold parsePatchHeader. rewrite Hline.
  change (JS.startsWith "*** Add File:" ("*** Update File: " +:+ p)) with false.
  change (JS.startsWith "*** Delete File:" ("*** Update File: " +:+ p)) with false.
  change (JS.startsWith "*** Update File:" ("*** Update File: " +:+ p)) with true.
  cbv iota. rewrite Hnext.
  change (JS.startsWith "*** Move to:" ("*** Move to: " +:+ target)) with true. cbv iota.
  change ("*** Update File: " +:+ p) with ("*** Update File" +:+ ": " +:+ p).
  change ("*** Move to: " +:+ target) with ("*** Move to" +:+ ": " +:+ target).
  rewrite !headerPath_marker by done. by rewrite headerOf_good.
Qed.

(** *** The body of an Add hunk *)

Lemma untilMarker_plus (ls : list string) (line : string) (rest : list string) :
  JS.startsWith "***" line = true →
  untilMarker ((String.append "+" <$> ls) ++ line :: rest) = String.append "+" <$> ls.
Proof.
  intros Hline. induction ls as [|l ls IH]; simpl.
  - by rewrite Hline.
  - change (JS.startsWith "***" ("+" +:+ l)) with false. cbv iota. f_equal; apply IH.
Qed.

Lemma plusLines_plus (ls : list string) : plusLines (String.append "+" <$> ls) = ls.
Proof.
  unfold plusLines. induction ls as [|l ls IH]; [done|]. simpl.
  change (JS.startsWith "+" ("+" +:+ l)) with true. cbv iota. simpl.
  change (JS.substring 1 ("+" +:+ l)) with l. f_equal; apply IH.
Qed.

Lemma drop_app_add {A} (pre l : list A) (k : nat) :
  drop (length pre + k) (pre ++ l) = drop k l.
Proof. by rewrite <- drop_drop, drop_app_length. Qed.

(** *** The chunks of an Update hunk *)

Lemma untilChunkEnd_body (old new : list string) (line : string) (rest : list string) :
  JS.startsWith "@@" line || JS.startsWith "***" line = true →
  untilChunkEnd ((String.append "-" <$> old) ++ (String.append "+" <$> new) ++ line :: rest)
  = (String.append "-" <$> old) ++ (String.append "+" <$> new).
Proof.
  intros Hline. induction old as [|l old IH]; simpl.
  - induction new as [|l new IH]; simpl.
    + by rewrite Hline.
    + change (JS.startsWith "@@" ("+" +:+ l)) with false.
      change (JS.startsWith "***" ("+" +:+ l)) with false. cbv iota. simpl.
      f_equal; apply IH.
  - change (JS.startsWith "@@" ("-" +:+ l)) with false.
    change (JS.startsWith "***" ("-" +:+ l)) with false. cbv iota. simpl.
    f_equal; apply IH.
Qed.

Lemma oldLinesOf_body (old new : list string) :
  oldLinesOf ((String.append "-" <$> old) ++ (String.append "+" <$> new)) = old.
Proof.
  unfold oldLinesOf. induction old as [|l old IH]; simpl.
  - induction new as [|l new IH]; [done|]. simpl.
    change (JS.startsWith " " ("+" +:+ l)) with false.
    change (JS.startsWith "-" ("+" +:+ l)) with false. cbv iota. simpl. apply IH.
  - change (JS.startsWith " " ("-" +:+ l)) with false.
    change (JS.startsWith "-" ("-" +:+ l)) with true. cbv iota. simpl.
    change (JS.substring 1 ("-" +:+ l)) with l. f_equal; apply IH.
Qed.

Lemma newLinesOf_body (old new : list string) :
  newLinesOf ((String.append "-" <$> old) ++ (String.append "+" <$> new)) = new.
Proof.
  unfold newLinesOf. induction old as [|l old IH]; simpl.
  - induction new as [|l new IH]; [done|]. simpl.
    change (JS.startsWith " " ("+" +:+ l)) with false.
    change (JS.startsWith "+" ("+" +:+ l)) with true. cbv iota. simpl.
    change (JS.substring 1 ("+" +:+ l)) with l. f_equal; apply IH.
  - change (JS.startsWith " " ("-" +:+ l)) with false.
    change (JS.startsWith "+" ("-" +:+ l)) with false. cbv iota. simpl. apply IH.
Qed.

Lemma chunk_header_context (chunk : UpdateChunk) :
  goodChunk chunk →
  ∃ header : string,
    renderChunk chunk
    = header :: (String.append "-" <$> old_lines chunk)
             ++ (String.append "+" <$> new_lines chunk)
    ∧ JS.startsWith "***" header = false
    ∧ JS.startsWith "@@" header = true
    ∧ JS.orUndefined (JS.trim (JS.substring 2 header)) = change_context chunk.
Proof.
  intros (Hctx & _). unfold renderChunk.
  destruct (change_context chunk) as [context|].
  - exists ("@@ " +:+ context). split; [done|]. split; [done|]. split; [done|].
    change (JS.substring 2 ("@@ " +:+ context)) with (" " +:+ context).
    destruct (Hctx context eq_refl) as (Hne & Htrim & _).
    rewrite trim_after_space by done. unfold JS.orUndefined.
    by rewrite bool_decide_eq_false_2.
  - by exists "@@".
Qed.

Lemma chunks_then_marker (chunks : list UpdateChunk) (line : string) (rest : list string) :
  Forall goodChunk chunks → JS.startsWith "***" line = true →
  ∃ (next : string) (rest' : list string),
    concat (renderChunk <$> chunks) ++ line :: rest = next :: rest'
    ∧ JS.startsWith "@@" next || JS.startsWith "***" next = true.
Proof.
  intros Hgood Hline. destruct chunks as [|chunk chunks].
  - exists line, rest. split; [done|]. rewrite Hline. apply orb_true_r.
  - apply Forall_cons in Hgood as [Hchunk _].
    destruct (chunk_header_context chunk Hchunk) as (header & Hrender & _ & Hat & _).
    change (concat (renderChunk <$> chunk :: chunks))
      with (renderChunk chunk ++ concat (renderChunk <$> chunks)).
    rewrite Hrender. eexists header, _. split; [reflexivity|]. by rewrite Hat.
Qed.

Lemma updateLoop_rendered (chunks : list UpdateChunk) :
  ∀ (pre : list string) (acc : list UpdateChunk) (fuel : nat) (line : string)
    (rest : list string),
  Forall goodChunk chunks → JS.startsWith "***" line = true →
  (length (concat (renderChunk <$> chunks)) ≤ fuel)%nat →
  updateLoop (pre ++ concat (renderChunk <$> chunks) ++ line :: rest) fuel (length pre) acc
  = Ok (acc ++ chunks, (length pre + length (concat (renderChunk <$> chunks)))%nat).
Proof.
  induction chunks as [|chunk chunks IH]; intros pre acc fuel line rest Hgood Hline Hfuel.
  - simpl. rewrite app_nil_r, Nat.add_0_r.
    destruct fuel; simpl; rewrite list_lookup_middle by done; by rewrite Hline.
  - apply Forall_cons in Hgood as [Hchunk Hgood].
    destruct (chunk_header_context chunk Hchunk) as (header & Hrender & Hstar & Hat & Hctx).
    destruct (chunks_then_marker chunks line rest Hgood Hline)
      as (next & rest' & Hnext & Hstop).
    change (concat (renderChunk <$> chunk :: chunks))
      with (renderChunk chunk ++ concat (renderChunk <$> chunks)) in *.
    rewrite length_app, Hrender in Hfuel. simpl in Hfuel.
    destruct fuel as [|fuel]; [lia|].
    assert (Hlines : pre ++ (renderChunk chunk ++ concat (renderChunk <$> chunks))
                         ++ line :: rest
                     = pre ++ header :: (String.append "-" <$> old_lines chunk) ++ (String.append "+" <$> new_lines chunk) ++ next :: rest').
    { rewrite Hrender, <- Hnext. simpl. by rewrite <- !app_assoc. }
    rewrite Hlines. cbn [updateLoop].
    rewrite list_lookup_middle by done. rewrite Hstar, Hat.
    rewrite chunkLines_spec by lia.
    replace (length pre + 1)%nat with (length pre + 1)%nat by done.
    rewrite drop_app_add. simpl drop. rewrite drop_0.
    rewrite untilChunkEnd_body by done. rewrite oldLinesOf_body, newLinesOf_body.
    rewrite bind_Ok. simpl app. rewrite Hctx.
    assert (Hchunk' : mkUpdateChunk (old_lines chunk) (new_lines chunk)
                        (change_context chunk) None = chunk).
    { destruct Hchunk as (_ & Heof & _). destruct chunk. simpl in *. by rewrite Heof. }
    rewrite Hchunk'.
    specialize (IH (pre ++ header :: (String.append "-" <$> old_lines chunk) ++ (String.append "+" <$> new_lines chunk)) (acc ++ [chunk]) fuel line rest
                  Hgood Hline).
    rewrite <- Hnext. rewrite <- Hnext in Hlines.
    replace (pre ++ header :: (String.append "-" <$> old_lines chunk) ++ (String.append "+" <$> new_lines chunk) ++ concat (renderChunk <$> chunks) ++ line :: rest)
      with ((pre ++ header :: (String.append "-" <$> old_lines chunk) ++ (String.append "+" <$> new_lines chunk)) ++ concat (renderChunk <$> chunks) ++ line :: rest)
      by (rewrite <- !app_assoc; simpl; by rewrite <- !app_assoc).
    replace (length pre + 1 + length ((String.append "-" <$> old_lines chunk) ++ (String.append "+" <$> new_lines chunk)))%nat
      with (length (pre ++ header :: (String.append "-" <$> old_lines chunk) ++ (String.append "+" <$> new_lines chunk)))
      by (rewrite !length_app; simpl; rewrite !length_app; lia).
    rewrite IH by lia. f_equal. f_equal.
    + by rewrite <- app_assoc.
    + rewrite !length_app. simpl. rewrite !length_app. lia.
Qed.

(** *** The hunks *)

Lemma renderHunk_marks (hunk : Hunk) :
  ∃ (line : string) (rest : list string), renderHunk hunk = line :: rest ∧ marksHunk line.
Proof.
  destruct hunk as [path contents | path | path move_path chunks];
    eexists _, _; (split; [reflexivity|]); by split.
Qed.

Lemma hunk_parsed (hunk : Hunk) (pre : list string) (line : string) (rest : list string)
    (endIdx fuel : nat) (acc : list Hunk) :
  goodHunk hunk → marksHunk line →
  (length pre + length (renderHunk hunk) ≤ endIdx)%nat →
  hunkLoop (pre ++ renderHunk hunk ++ line :: rest) endIdx (S fuel) (length pre) acc
  = hunkLoop (pre ++ renderHunk hunk ++ line :: rest) endIdx fuel
      (length pre + length (renderHunk hunk)) (acc ++ [hunk]).
Proof.
  intros Hgood [Hstar Hmove] Hend.
  assert (Hlen : (1 ≤ length (renderHunk hunk))%nat).
  { destruct (renderHunk_marks hunk) as (l & r & -> & _). simpl. lia. }
  cbn [hunkLoop]. rewrite bool_decide_eq_true_2 by lia.
  destruct hunk as [path contents | path | path move_path chunks]; simpl in Hgood.
  - set (lines := pre ++ renderHunk (AddHunk path contents) ++ line :: rest).
    assert (Hline : lines !! length pre = Some ("*** Add File: " +:+ path)).
    { subst lines. simpl. by rewrite list_lookup_middle. }
    rewrite (header_add lines (length pre) path Hline Hgood), bind_Ok, Hline.
    change (JS.startsWith "*** Add File:" ("*** Add File: " +:+ path)) with true. cbv iota.
    rewrite parseAddContent_spec. simpl nextIdx. simpl filePath.
    assert (Hdrop : drop (length pre + 1) lines
                    = (String.append "+" <$> JS.split newline contents) ++ line :: rest).
    { subst lines. rewrite drop_app_add. simpl. by rewrite drop_0. }
    rewrite Hdrop, untilMarker_plus, plusLines_plus by done.
    change NL with (String newline EmptyString). rewrite join_split, bind_Ok.
    f_equal. simpl. lia.
  - set (lines := pre ++ renderHunk (DeleteHunk path) ++ line :: rest).
    assert (Hline : lines !! length pre = Some ("*** Delete File: " +:+ path)).
    { subst lines. simpl. by rewrite list_lookup_middle. }
    rewrite (header_delete lines (length pre) path Hline Hgood), bind_Ok, Hline.
    change (JS.startsWith "*** Add File:" ("*** Delete File: " +:+ path)) with false.
    change (JS.startsWith "*** Delete File:" ("*** Delete File: " +:+ path)) with true.
    cbv iota. simpl nextIdx. simpl filePath. f_equal.
  - destruct Hgood as (Hpath & Htarget & Hchunks).
    set (lines := pre ++ renderHunk (UpdateHunk path move_path chunks) ++ line :: rest).
    assert (Hline : lines !! length pre = Some ("*** Update File: " +:+ path)).
    { subst lines. simpl. by rewrite list_lookup_middle. }
    assert (Hheader : ∃ header : Header,
               parsePatchHeader lines (length pre) = Ok (Some header)
               ∧ filePath header = path ∧ movePath header = move_path
               ∧ ∃ pre' : list string,
                   lines = pre' ++ concat (renderChunk <$> chunks) ++ line :: rest
                   ∧ nextIdx header = length pre'
                   ∧ (length pre' + length (concat (renderChunk <$> chunks))
                      = length pre + length (renderHunk (UpdateHunk path move_path chunks)))%nat).
    { destruct move_path as [target|].
      - exists (mkHeader path (Some target) (length pre + 1 + 1)). split.
        + apply header_update_move; [done..| |by apply Htarget].
          subst lines. simpl.
          change (pre ++ ?a :: ?b :: ?l) with (pre ++ [a] ++ b :: l).
          rewrite app_assoc.
          replace (length pre + 1)%nat with (length (pre ++ ["*** Update File: " +:+ path]))
            by (rewrite length_app; simpl; lia).
          by rewrite list_lookup_middle.
        + split; [done|]. split; [done|].
          exists (pre ++ ["*** Update File: " +:+ path; "*** Move to: " +:+ target]).
          subst lines. simpl. rewrite <- !app_assoc. split; [done|].
          rewrite !length_app. simpl. split; lia.
      - destruct (chunks_then_marker chunks line rest Hchunks Hstar)
          as (next & rest' & Hnext & Hstop).
        exists (mkHeader path None (length pre + 1)). split.
        + apply (header_update _ _ _ next); [done..| |].
          * subst lines. simpl. rewrite Hnext.
            change (pre ++ ?a :: ?b :: ?l) with (pre ++ [a] ++ b :: l).
            rewrite app_assoc.
            replace (length pre + 1)%nat
              with (length (pre ++ ["*** Update File: " +:+ path]))
              by (rewrite length_app; simpl; lia).
            by rewrite list_lookup_middle.
          * destruct chunks as [|chunk chunks].
            { simpl in Hnext. by injection Hnext as <- _. }
            apply Forall_cons in Hchunks as [Hchunk _].
            destruct (chunk_header_context chunk Hchunk) as (header & Hrender & _ & Hat & _).
            change (concat (renderChunk <$> chunk :: chunks))
              with (renderChunk chunk ++ concat (renderChunk <$> chunks)) in Hnext.
            rewrite Hrender in Hnext. injection Hnext as <- _.
            by apply startsWith_spec in Hat as [after ->].
        + split; [done|]. split; [done|].
          exists (pre ++ ["*** Update File: " +:+ path]).
          subst lines. simpl. rewrite <- !app_assoc. split; [done|].
          rewrite !length_app. simpl. split; lia. }
    destruct Hheader as (header & -> & Hfile & Hmovepath & pre' & Hlines & Hnext & Hlen').
    rewrite bind_Ok, Hline.
    change (JS.startsWith "*** Add File:" ("*** Update File: " +:+ path)) with false.
    change (JS.startsWith "*** Delete File:" ("*** Update File: " +:+ path)) with false.
    change (JS.startsWith "*** Update File:" ("*** Update File: " +:+ path)) with true.
    cbv iota. unfold parseUpdateChunks. rewrite Hnext, Hfile, Hmovepath.
    assert (Hupdate : updateLoop lines (length lines) (length pre') []
                      = Ok ([] ++ chunks,
                            (length pre' + length (concat (renderChunk <$> chunks)))%nat)).
    { clearbody lines. subst lines. apply updateLoop_rendered; [done..|].
      rewrite !length_app. lia. }
    rewrite Hupdate, bind_Ok, Hlen'. done.
Qed.

(** *** The lines of the text *)

Lemma rendered_lines_without (hunks : list Hunk) :
  Forall goodHunk hunks → Forall (without newline) (concat (renderHunk <$> hunks)).
Proof.
  intros Hgood. apply Forall_concat, Forall_fmap. eapply Forall_impl; [exact Hgood|].
  intros [path contents | path | path move_path chunks] Hhunk; simpl in *.
  - destruct Hhunk as (_ & _ & _ & Hpath). constructor.
    + by apply without_append.
    + apply Forall_fmap. eapply Forall_impl; [apply split_pieces_without|].
      intros l Hl. by apply (without_append _ "+").
  - destruct Hhunk as (_ & _ & _ & Hpath). constructor; [|done]. by apply without_append.
  - destruct Hhunk as ((_ & _ & _ & Hpath) & Htarget & Hchunks). constructor.
    { by apply without_append. }
    apply Forall_app. split.
    { destruct move_path as [target|]; [|done]. constructor; [|done].
      destruct (Htarget target eq_refl) as (_ & _ & _ & Ht). by apply without_append. }
    apply Forall_concat, Forall_fmap. eapply Forall_impl; [exact Hchunks|].
    intros chunk (Hcontext & _ & Hold & Hnew). unfold renderChunk. simpl.
    constructor.
    { destruct (change_context chunk) as [context|]; [|done].
      destruct (Hcontext context eq_refl) as (_ & _ & Hc). by apply without_append. }
    apply Forall_app. split; apply Forall_fmap.
    + eapply Forall_impl; [exact Hold|]. intros l Hl. by apply (without_append _ "-").
    + eapply Forall_impl; [exact Hnew|]. intros l Hl. by apply (without_append _ "+").
Qed.

Lemma trim_first_character (c : ascii) (s : string) :
  JS.isWhiteSpace c = false → ∃ t : string, JS.trim (String c s) = String c t.
Proof.
  intros Hc. unfold JS.trim. simpl. rewrite Hc. simpl.
  destruct (JS.trimEnd s); rewrite ?Hc; by eexists.
Qed.

Lemma trim_header (e : ascii) (s : string) :
  JS.isWhiteSpace e = false →
  ∃ t : string, JS.trim ("*** " +:+ String e s) = "*** " +:+ String e t.
Proof.
  intros He. unfold JS.trim. exists (JS.trimEnd s).
  change (JS.trimStart ("*** " +:+ String e s)) with ("*** " +:+ String e s).
  change ("*** " +:+ String e s) with (String "*" (String "*" (String "*" (String " " (String e s))))).
  cbn [JS.trimEnd]. destruct (JS.trimEnd s); rewrite ?He; reflexivity.
Qed.

Lemma rendered_lines_not_end (hunks : list Hunk) :
  Forall (λ line, isEndMarker line = false) (concat (renderHunk <$> hunks)).
Proof.
  assert (Hfirst : ∀ (c : ascii) (s : string),
             JS.isWhiteSpace c = false → c ≠ "*"%char → isEndMarker (String c s) = false).
  { intros c s Hc Hstar. unfold isEndMarker.
    destruct (trim_first_character c s Hc) as [t ->].
    apply bool_decide_eq_false_2. intros [= ? _]. done. }
  assert (Hheader : ∀ (e : ascii) (s : string),
             JS.isWhiteSpace e = false → e ≠ "E"%char →
             isEndMarker ("*** " +:+ String e s) = false).
  { intros e s He HE. unfold isEndMarker. destruct (trim_header e s He) as [t ->].
    apply bool_decide_eq_false_2. intros [= ? _]. done. }
  apply Forall_concat, Forall_fmap, Forall_forall.
  intros [path contents | path | path move_path chunks] _; simpl.
  - constructor; [by apply (Hheader "A"%char)|].
    apply Forall_fmap, Forall_forall. intros l _. by apply (Hfirst "+"%char).
  - constructor; [|done]. by apply (Hheader "D"%char).
  - constructor; [by apply (Hheader "U"%char)|]. apply Forall_app. split.
    { destruct move_path as [target|]; [|done]. constructor; [|done].
      by apply (Hheader "M"%char). }
    apply Forall_concat, Forall_fmap, Forall_forall. intros chunk _.
    unfold renderChunk. simpl. constructor.
    { destruct (change_context chunk); by apply (Hfirst "@"%char). }
    apply Forall_app. split; apply Forall_fmap, Forall_forall; intros l _.
    + by apply (Hfirst "-"%char).
    + by apply (Hfirst "+"%char).
Qed.

Lemma findIndexFrom_first {A} (p : A → bool) (pre : list A) (x : A) (rest : list A) (i : Z) :
  Forall (λ y, p y = false) pre → p x = true →
  JS.findIndexFrom p (pre ++ x :: rest) i = i + JS.len pre.
Proof.
  revert i. induction pre as [|y pre IH]; intros i Hpre Hx; simpl.
  - rewrite Hx. unfold JS.len. simpl. lia.
  - apply Forall_cons in Hpre as [Hy Hpre]. rewrite Hy, IH by done.
    unfold JS.len. simpl. lia.
Qed.

Lemma hunks_then_end_marker (hunks : list Hunk) (after : list string) :
  ∃ (line : string) (rest : list string),
    concat (renderHunk <$> hunks) ++ "*** End Patch" :: after = line :: rest
    ∧ marksHunk line.
Proof.
  destruct hunks as [|hunk hunks].
  - exists "*** End Patch", after. by repeat split.
  - destruct (renderHunk_marks hunk) as (line & rest & Hrender & Hmarks).
    change (concat (renderHunk <$> hunk :: hunks))
      with (renderHunk hunk ++ concat (renderHunk <$> hunks)).
    rewrite Hrender. by eexists line, _.
Qed.

Lemma hunkLoop_rendered_within (hunks : list Hunk) (after : list string) :
  ∀ (pre : list string) (acc : list Hunk) (fuel : nat),
  Forall goodHunk hunks →
  (length (concat (renderHunk <$> hunks)) ≤ fuel)%nat →
  hunkLoop (pre ++ concat (renderHunk <$> hunks) ++ "*** End Patch" :: after)
    (length pre + length (concat (renderHunk <$> hunks))) fuel (length pre) acc
  = Ok (acc ++ hunks).
Proof.
  induction hunks as [|hunk hunks IH]; intros pre acc fuel Hgood Hfuel.
  - simpl. rewrite app_nil_r.
    destruct fuel; simpl; by rewrite bool_decide_eq_false_2 by lia.
  - apply Forall_cons in Hgood as [Hhunk Hgood].
    change (concat (renderHunk <$> hunk :: hunks))
      with (renderHunk hunk ++ concat (renderHunk <$> hunks)) in *.
    destruct (hunks_then_end_marker hunks after) as (line & rest & Hpost & Hmarks).
    assert (Hlen : (1 ≤ length (renderHunk hunk))%nat).
    { destruct (renderHunk_marks hunk) as (l & r & -> & _). simpl. lia. }
    rewrite length_app in Hfuel. destruct fuel as [|fuel]; [lia|].
    rewrite <- app_assoc, Hpost.
    rewrite hunk_parsed; [|done|done|rewrite length_app; lia].
    rewrite <- Hpost.
    replace (pre ++ renderHunk hunk ++ concat (renderHunk <$> hunks) ++ "*** End Patch" :: after)
      with ((pre ++ renderHunk hunk) ++ concat (renderHunk <$> hunks)
            ++ "*** End Patch" :: after)
      by by rewrite <- app_assoc.
    replace (length pre + length (renderHunk hunk ++ concat (renderHunk <$> hunks)))%nat
      with (length (pre ++ renderHunk hunk) + length (concat (renderHunk <$> hunks)))%nat
      by (rewrite !length_app; lia).
    replace (length pre + length (renderHunk hunk))%nat
      with (length (pre ++ renderHunk hunk)) by (by rewrite length_app).
    rewrite IH by (done || lia). by rewrite <- app_assoc.
Qed.

(** X21.  [parsePatch] reads back the lines of a patch, and ignores the
    text around them.  The hunks are such that their paths are not empty,
    have no white space at their ends and hold no colon and no newline;
    their change contexts are likewise, colons allowed; their old and new
    lines hold no newline and their end-of-file marks are absent.  The
    lines of the patch are [*** Begin Patch], then for each hunk its header
    line, for an Add hunk the lines of its contents with a plus sign, for an
    Update hunk its move line if any and for each chunk its [@@] line, its
    old lines with a minus sign and its new lines with a plus sign, then
    [*** End Patch].  Any lines may follow them, and any lines that are
    neither a begin nor an end marker may come before them. *)
Theorem parsePatch_reads_back_rendered_hunks
    (hunks : list Hunk) (before after : list string) :
  Forall goodHunk hunks →
  Forall (without newline) before → Forall (without newline) after →
  Forall (λ line, isBeginMarker line = false ∧ isEndMarker line = false) before →
  parsePatch (JS.join NL (before ++ patchLines hunks ++ after)) = Ok hunks.
Proof.
  intros Hgood Hbefore Hafter Hmarkers. unfold parsePatch, patchLines.
  set (body := concat (renderHunk <$> hunks)).
  rewrite split_join_lines.
  2:{ by destruct before. }
  2:{ apply Forall_app. split; [done|]. apply Forall_app. split; [|done].
      constructor; [done|]. apply Forall_app. split; [|by repeat constructor].
      by apply rendered_lines_without. }
  assert (Hbegin : JS.findIndex isBeginMarker
                     (before ++ (["*** Begin Patch"] ++ body ++ ["*** End Patch"]) ++ after)
                   = JS.len before).
  { unfold JS.findIndex. simpl. rewrite findIndexFrom_first; [lia| |done].
    eapply Forall_impl; [exact Hmarkers|]. by intros line [? _]. }
  assert (Hend : JS.findIndex isEndMarker
                   (before ++ (["*** Begin Patch"] ++ body ++ ["*** End Patch"]) ++ after)
                 = JS.len before + 1 + JS.len body).
  { unfold JS.findIndex.
    replace (before ++ (["*** Begin Patch"] ++ body ++ ["*** End Patch"]) ++ after)
      with ((before ++ ["*** Begin Patch"] ++ body) ++ "*** End Patch" :: after)
      by (rewrite <- ?app_assoc; simpl; by rewrite <- ?app_assoc).
    rewrite findIndexFrom_first; [rewrite !len_app; change (JS.len ["*** Begin Patch"]) with 1; lia| |done].
    apply Forall_app. split.
    - eapply Forall_impl; [exact Hmarkers|]. by intros line [_ ?].
    - constructor; [done|]. apply rendered_lines_not_end. }
  rewrite Hbegin, Hend. pose proof (len_nonneg body) as Hlen.
  pose proof (len_nonneg before) as Hlen'.
  rewrite (bool_decide_eq_false_2 (JS.len before = -1)) by lia.
  rewrite (bool_decide_eq_false_2 (JS.len before + 1 + JS.len body = -1)) by lia.
  rewrite (bool_decide_eq_false_2 (JS.len before >= JS.len before + 1 + JS.len body)) by lia.
  simpl orb. cbv iota.
  replace (Z.to_nat (JS.len before + 1 + JS.len body))
    with (length (before ++ ["*** Begin Patch"]) + length body)%nat
    by (rewrite length_app; unfold JS.len; simpl; lia).
  replace (Z.to_nat (JS.len before + 1)) with (length (before ++ ["*** Begin Patch"]))
    by (rewrite length_app; unfold JS.len; simpl; lia).
  replace (before ++ (["*** Begin Patch"] ++ body ++ ["*** End Patch"]) ++ after)
    with ((before ++ ["*** Begin Patch"]) ++ body ++ "*** End Patch" :: after)
    by (rewrite <- ?app_assoc; simpl; by rewrite <- ?app_assoc).
  subst body. rewrite hunkLoop_rendered_within; [done|done|lia].
Qed.

(** X22.  The path of a header line ends at the second colon of the line:
    of [*** Add File: p:rest] or [*** Delete File: p:rest], with no colon
    in [p], the parser keeps [p] trimmed and drops the rest. *)
Theorem header_path_cut_at_colon
    (lines : list string) (idx : nat) (kind p rest : string) :
  kind = "*** Add File" ∨ kind = "*** Delete File" →
  lines !! idx = Some (kind +:+ ":" +:+ p +:+ ":" +:+ rest) →
  without ":" p → JS.trim p ≠ EmptyString →
  parsePatchHeader lines idx = Ok (Some (mkHeader (JS.trim p) None (idx + 1))).
Proof.
  intros Hkind Hline Hp Hne. unfold parsePatchHeader. rewrite Hline.
  assert (Hpath : headerPath (kind +:+ ":" +:+ p +:+ ":" +:+ rest) = Some (JS.trim p)).
  { unfold headerPath, JS.splitLimit.
    change (":" +:+ p +:+ ":" +:+ rest) with (String ":" (p +:+ String ":" rest)).
    rewrite split_append_sep by (by destruct Hkind as [-> | ->]).
    by rewrite split_append_sep. }
  destruct Hkind as [-> | ->].
  - change (JS.startsWith "*** Add File:" ("*** Add File" +:+ ":" +:+ p +:+ ":" +:+ rest))
      with true. cbv iota.
    by rewrite Hpath, headerOf_good.
  - change (JS.startsWith "*** Add File:" ("*** Delete File" +:+ ":" +:+ p +:+ ":" +:+ rest))
      with false.
    change (JS.startsWith "*** Delete File:"
              ("*** Delete File" +:+ ":" +:+ p +:+ ":" +:+ rest)) with true.
    cbv iota. by rewrite Hpath, headerOf_good.
Qed.


(** ** Every span replaced *)

Lemma ordered_within (lines : list string) (replacements : list Replacement) :
  ∀ bound : Z, ordered lines bound replacements → bound ≤ JS.len lines.
Proof.
  induction replacements as [|[[s l] seg] rest IH]; intros bound Hord; simpl in Hord.
  - done.
  - destruct Hord as (Hs & Hl & Hrest). apply IH in Hrest. lia.
Qed.

Lemma applyReplacements_rebuilt (lines : list string) (replacements : list Replacement) :
  ∀ bound : Z,
  0 ≤ bound → ordered lines bound replacements →
  applyReplacements lines replacements
  = take (Z.to_nat bound) lines ++ rebuilt lines bound replacements.
Proof.
  induction replacements as [|[[s l] seg] rest IH]; intros bound Hbound Hord; simpl in Hord.
  - simpl. by rewrite take_drop.
  - destruct Hord as (Hs & Hl & Hrest).
    pose proof (ordered_within _ _ _ Hrest) as Hlen.
    change (applyReplacements lines ((s, l, seg) :: rest))
      with (applyReplacement (s, l, seg) (applyReplacements lines rest)).
    rewrite (IH (s + l)) by (done || lia).
    assert (Htake : length (take (Z.to_nat (s + l)) lines) = Z.to_nat (s + l)).
    { rewrite length_take. unfold JS.len in Hlen. lia. }
    rewrite applyReplacement_in_range; [|rewrite len_app; unfold JS.len; lia|done].
    rewrite take_app_le by lia. rewrite take_take.
    replace (Z.to_nat s `min` Z.to_nat (s + l))%nat with (Z.to_nat s) by lia.
    replace (Z.to_nat s + Z.to_nat l)%nat with (length (take (Z.to_nat (s + l)) lines)) by lia.
    rewrite drop_app_length. simpl.
    replace (Z.to_nat s) with (Z.to_nat bound + Z.to_nat (s - bound))%nat by lia.
    rewrite <- take_take_drop, <- app_assoc. done.
Qed.

Lemma ordered_of_sorted (lines : list string) (replacements : list Replacement) :
  ∀ bound : Z,
  bound ≤ JS.len lines →
  StronglySorted startsBefore replacements →
  (∀ (a b : nat) (r1 r2 : Replacement),
     a ≠ b → replacements !! a = Some r1 → replacements !! b = Some r2 → apart r1 r2) →
  Forall (λ r, 0 ≤ repStart r ∧ 0 ≤ repLen r ∧ repStart r + repLen r ≤ JS.len lines)
    replacements →
  Forall (λ r, bound ≤ repStart r) replacements →
  ordered lines bound replacements.
Proof.
  induction replacements as [|[[s l] seg] rest IH];
    intros bound Hbound Hsorted Hapart Hwithin Hfrom; simpl; [done|].
  apply StronglySorted_inv in Hsorted as [Hsorted Hfirst].
  apply Forall_cons in Hwithin as [(Hs & Hl & Hend) Hwithin].
  apply Forall_cons in Hfrom as [Hfrom _].
  unfold repStart, repLen in *. simpl in *.
  split; [done|]. split; [done|]. apply IH; [done|done| |done|].
  - intros a b r1 r2 Hab Ha Hb. apply (Hapart (S a) (S b)); [lia|done..].
  - apply Forall_lookup. intros k r Hk.
    pose proof (Forall_lookup_1 _ _ _ _ Hfirst Hk) as Hle.
    apply (Hapart 0%nat (S k) (s, l, seg) r); [lia|done|done|done].
Qed.

(** X23.  When no chunk is an insertion at a context, the lines that
    [applyReplacements] makes of the replacements of [computeReplacements]
    are the lines of the file with every span replaced by its new lines,
    all at once: the lines in front of the first span, its new lines, the
    lines up to the next span, and so on to the end of the file. *)
Theorem update_replaces_every_span
    (lines : list string) (filePath : string) (chunks : list UpdateChunk)
    (replacements : list Replacement) :
  noContextInsertion chunks →
  computeReplacements lines filePath chunks = Ok replacements →
  applyReplacements lines replacements = rebuilt lines 0 replacements.
Proof.
  intros Hchunks (emitted & lineIndex & -> & Hall)%computeReplacements_Ok.
  rewrite (applyReplacements_rebuilt lines _ 0); [done|done|].
  pose proof (EmittedAll_within _ _ _ _ _ Hall) as Hwithin.
  rewrite <- (sortByStart_perm emitted) in Hwithin.
  apply ordered_of_sorted; [unfold JS.len; lia|apply sortByStart_sorted| |done|].
  - intros a b r1 r2 Hab Ha Hb.
    destruct (proj1 (Permutation_inj _ _) (sortByStart_perm emitted)) as (_ & f & Hinj & Hf).
    rewrite Hf in Ha, Hb.
    eapply (EmittedAll_apart _ _ _ _ _ Hchunks Hall (f a) (f b)); [|done|done].
    intros Heq. by apply Hinj in Heq.
  - eapply Forall_impl; [exact Hwithin|]. by intros r (? & _).
Qed.

(** ** Patch applier: a chunk with no old lines *)








(** ** A file moved onto itself *)

#[global] Instance MemFS_gone_after_unlink : GoneAfterUnlink (gmap string string).
Proof.
  intros p fs fs'. simpl. destruct (fs !! p) eqn:Hp; [|done].
  intros [= <-]. exists (FsError "ENOENT" p). by rewrite lookup_delete_eq.
Qed.

(** X24.  An Update hunk whose move path is its own path loses the file:
    the new content is written to the path, then the path is unlinked, and
    the path is reported as modified. *)
Theorem update_moved_onto_itself_loses_file {FS : Type} `{!Platform FS} `{!GoneAfterUnlink FS}
    (p : string) (chunks : list UpdateChunk) (fs fs' : FS) (affected : AffectedPaths) :
  p ≠ EmptyString →
  applyHunksToFiles [UpdateHunk p (Some p) chunks] fs = (fs', Ok affected) →
  (∃ e : Error, fs_readFileSync p fs' = Throw e)
  ∧ affected = mkAffectedPaths [] [p] [].
Proof.
  intros Hp. unfold applyHunksToFiles. simpl. unfold JS.truthy.
  rewrite (bool_decide_eq_false_2 (p = EmptyString)) by done. simpl.
  unfold io_bind, io_ret.
  destruct (deriveNewContents p chunks fs) as [fs1 [content| |]]; [|done..].
  destruct (ensureDir p fs1) as [fs2 [[]| |]]; [|done..].
  destruct (fs_writeFile p content fs2) as [fs3 [[]| |]]; [|done..].
  destruct (fs_unlink p fs3) as [fs4 [[]| |]] eqn:Hunlink; [|done..].
  intros [= <- <-]. split; [|done]. by apply (read_after_unlink p fs3).
Qed.


(** ** An end marker that is indented *)

Lemma untilMarker_none (ls : list string) :
  Forall (λ line, JS.startsWith "***" line = false) ls → untilMarker ls = ls.
Proof.
  induction 1 as [|line ls Hline _ IH]; [done|]. simpl. by rewrite Hline, IH.
Qed.

Lemma plusLines_app (a b : list string) : plusLines (a ++ b) = plusLines a ++ plusLines b.
Proof. unfold plusLines. by rewrite List.filter_app, fmap_app. Qed.

(** X25.  An end marker with white space in front of it ends the patch
    but not the body of an Add hunk: the lines with a plus sign that follow
    the marker become part of the file. *)
Theorem indented_end_marker_add_body_runs_on (p : string) (ls1 ls2 : list string) :
  goodPath p → Forall (without newline) ls1 → Forall (without newline) ls2 →
  parsePatch
    (JS.join NL (["*** Begin Patch"; "*** Add File: " +:+ p]
                 ++ (String.append "+" <$> ls1)
                 ++ [" *** End Patch"]
                 ++ (String.append "+" <$> ls2)))
  = Ok [AddHunk p (JS.join NL (ls1 ++ ls2))].
Proof.
  intros Hp H1 H2. unfold parsePatch.
  set (plus1 := String.append "+" <$> ls1). set (plus2 := String.append "+" <$> ls2).
  assert (Hplus : ∀ ls : list string,
             Forall (without newline) ls → Forall (without newline) (String.append "+" <$> ls)).
  { intros ls Hls. apply Forall_fmap. eapply Forall_impl; [exact Hls|].
    intros l Hl. by apply (without_append _ "+"). }
  rewrite split_join_lines; [|done|].
  2:{ constructor; [done|]. constructor.
      { destruct Hp as (_ & _ & _ & Hp). by apply without_append. }
      apply Forall_app. split; [by apply Hplus|]. constructor; [done|]. by apply Hplus. }
  set (lines := ["*** Begin Patch"; "*** Add File: " +:+ p] ++ plus1 ++ [" *** End Patch"] ++ plus2).
  assert (Hbegin : JS.findIndex isBeginMarker lines = 0) by done.
  assert (Hnotend : ∀ ls : list string,
             Forall (λ line, isEndMarker line = false) (String.append "+" <$> ls)).
  { intros ls. apply Forall_fmap, Forall_forall. intros l _. unfold isEndMarker.
    destruct (trim_first_character "+" l eq_refl) as [t Ht].
    change (String "+" l) with ("+" +:+ l) in Ht. simpl. rewrite Ht.
    by apply bool_decide_eq_false_2. }
  assert (Hend : JS.findIndex isEndMarker lines = 2 + JS.len plus1).
  { unfold JS.findIndex. subst lines.
    replace (["*** Begin Patch"; "*** Add File: " +:+ p] ++ plus1 ++ [" *** End Patch"] ++ plus2)
      with ((["*** Begin Patch"; "*** Add File: " +:+ p] ++ plus1) ++ " *** End Patch" :: plus2)
      by (by rewrite <- app_assoc).
    rewrite findIndexFrom_first; [rewrite len_app; by change (JS.len [_; _]) with 2| |done].
    constructor; [done|]. constructor; [|apply Hnotend].
    unfold isEndMarker. destruct (trim_header "A" ("dd File: " +:+ p) eq_refl) as [t Ht].
    change ("*** " +:+ String "A" ("dd File: " +:+ p)) with ("*** Add File: " +:+ p) in Ht.
    rewrite Ht. by apply bool_decide_eq_false_2. }
  rewrite Hbegin, Hend. pose proof (len_nonneg plus1) as Hlen.
  rewrite (bool_decide_eq_false_2 (0 = -1)) by lia.
  rewrite (bool_decide_eq_false_2 (2 + JS.len plus1 = -1)) by lia.
  rewrite (bool_decide_eq_false_2 (0 >= 2 + JS.len plus1)) by lia.
  simpl orb. cbv iota.
  replace (Z.to_nat (2 + JS.len plus1)) with (S (S (length plus1))) by (unfold JS.len; lia).
  change (Z.to_nat (0 + 1)) with 1%nat.
  assert (Hloop : ∀ fuel : nat,
             hunkLoop lines (S (S (length plus1))) (S fuel) 1 []
             = Ok [AddHunk p (JS.join NL (ls1 ++ ls2))]); [|apply Hloop].
  intros fuel. cbn [hunkLoop]. rewrite bool_decide_eq_true_2 by lia.
  assert (Hline : lines !! 1%nat = Some ("*** Add File: " +:+ p)) by done.
  rewrite (header_add lines 1 p Hline Hp), bind_Ok, Hline.
  change (JS.startsWith "*** Add File:" ("*** Add File: " +:+ p)) with true. cbv iota.
  rewrite parseAddContent_spec. simpl nextIdx. simpl filePath.
  change (drop (1 + 1) lines) with (plus1 ++ [" *** End Patch"] ++ plus2).
  rewrite untilMarker_none.
  2:{ apply Forall_app. split; [|constructor; [done|]];
        apply Forall_fmap, Forall_forall; by intros l _. }
  change (drop 2 lines) with (plus1 ++ [" *** End Patch"] ++ plus2).
  rewrite !plusLines_app. subst plus1 plus2. rewrite !plusLines_plus.
  change (plusLines [" *** End Patch"]) with (@nil string). rewrite app_nil_l, bind_Ok.
  rewrite !length_app, !length_fmap. simpl length.
  destruct fuel; simpl; rewrite bool_decide_eq_false_2 by lia; done.
Qed.

(** ** An Update after an Add *)

(** X26.  Hunks see what earlier hunks of the same patch wrote: an Update
    hunk that follows an Add hunk for the same path works on the added
    contents, and the file holds the updated contents at the end. *)
Theorem update_after_add_works_on_added_contents
    {FS : Type} `{!Platform FS} `{!ReadsBackWrites FS}
    (p contents : string) (chunks : list UpdateChunk) (fs fs' : FS)
    (affected : AffectedPaths) :
  applyHunksToFiles [AddHunk p contents; UpdateHunk p None chunks] fs = (fs', Ok affected) →
  ∃ updated : string,
    deriveNewContentsOf contents p chunks = Ok updated
    ∧ fs_readFileSync p fs' = Ok updated
    ∧ affected = mkAffectedPaths [p] [p] [].
Proof.
  unfold applyHunksToFiles. simpl. unfold io_bind, io_ret.
  destruct (ensureDir p fs) as [fs1 [[]| |]]; [|done..].
  destruct (fs_writeFile p contents fs1) as [fs2 [[]| |]] eqn:Hwrite; [|done..].
  unfold deriveNewContents. rewrite (read_after_write p contents fs1 fs2 Hwrite).
  destruct (deriveNewContentsOf contents p chunks) as [updated| |]; [|done..].
  destruct (fs_writeFile p updated fs2) as [fs3 [[]| |]] eqn:Hwrite'; [|done..].
  intros [= <- <-]. exists updated. split; [done|]. split; [|done].
  by apply (read_after_write p updated fs2).
Qed.


(** ** Cosine similarity *)

Section CosineFacts.
Import SpecFloat Embedder.

(** *** Shifts and roundings *)

Lemma digits2_pos_size (p : positive) : digits2_pos p = Pos.size p.
Proof. induction p as [p IH | p IH |]; simpl; by rewrite ?IH. Qed.

Lemma Zdigits2_log2 (m : Z) : 0 < m → Zdigits2 m = Z.log2 m + 1.
Proof.
  destruct m as [| p | p]; [lia | | lia]. intros _. simpl.
  rewrite digits2_pos_size. destruct p; simpl; lia.
Qed.

Lemma fexp_binary64 (z : Z) : fexp prec emax z = Z.max (z - 53) (-1074).
Proof. reflexivity. Qed.

Lemma shr_1_m (mrs : shr_record) :
  0 ≤ shr_m mrs → shr_m (shr_1 mrs) = Z.div2 (shr_m mrs).
Proof.
  destruct mrs as [m r s]. simpl. intros Hm.
  destruct m as [| p | p]; [done | by destruct p | lia].
Qed.

Lemma iter_pos_iter {A} (f : A → A) (p : positive) (x : A) :
  iter_pos f p x = Nat.iter (Pos.to_nat p) f x.
Proof.
  revert x. induction p as [p IH | p IH |]; intros x; cbn [iter_pos].
  - rewrite !IH. rewrite Pos2Nat.inj_xI.
    replace (S (2 * Pos.to_nat p)) with (Pos.to_nat p + (Pos.to_nat p + 1))%nat by lia.
    rewrite !Nat.iter_add. done.
  - rewrite !IH. rewrite Pos2Nat.inj_xO.
    replace (2 * Pos.to_nat p)%nat with (Pos.to_nat p + Pos.to_nat p)%nat by lia.
    by rewrite Nat.iter_add.
  - done.
Qed.

Lemma shr_m_iter (n : nat) (mrs : shr_record) :
  0 ≤ shr_m mrs → shr_m (Nat.iter n shr_1 mrs) = Z.shiftr (shr_m mrs) (Z.of_nat n).
Proof.
  intros Hm. induction n as [| n IH].
  - simpl. by rewrite Z.shiftr_0_r.
  - rewrite Nat.iter_succ. rewrite shr_1_m; rewrite IH.
    + rewrite Z.div2_spec, Z.shiftr_shiftr by lia. f_equal. lia.
    + apply Z.shiftr_nonneg. done.
Qed.

Lemma shr_m_of_loc (m : Z) (l : location) : shr_m (shr_record_of_loc m l) = m.
Proof. by destruct l as [| []]. Qed.

(** The first component and the exponent of [shr_fexp]. *)
Lemma shr_fexp_spec (m e : Z) (l : location) :
  0 < m →
  shr_m (shr_fexp prec emax m e l).1
  = Z.shiftr m (Z.max 0 (fexp prec emax (Zdigits2 m + e) - e))
  ∧ (shr_fexp prec emax m e l).2 = e + Z.max 0 (fexp prec emax (Zdigits2 m + e) - e).
Proof.
  intros Hm. unfold shr_fexp, shr.
  destruct (fexp prec emax (Zdigits2 m + e) - e) as [| p | p] eqn:Hn; simpl.
  - rewrite shr_m_of_loc, Z.shiftr_0_r. split; [done | lia].
  - rewrite iter_pos_iter, shr_m_iter, shr_m_of_loc by (rewrite shr_m_of_loc; lia).
    rewrite positive_nat_Z. done.
  - rewrite shr_m_of_loc. change (Z.max 0 (Z.neg p)) with 0.
    rewrite Z.shiftr_0_r. split; [done | lia].
Qed.

Lemma shr_fexp_exponent (m e : Z) (l : location) :
  -1074 ≤ (shr_fexp prec emax m e l).2.
Proof.
  unfold shr_fexp, shr.
  pose proof (fexp_binary64 (Zdigits2 m + e)) as Hf.
  destruct (fexp prec emax (Zdigits2 m + e) - e) as [| p | p] eqn:Hn; simpl; lia.
Qed.

(** A mantissa that stands for at least [2^-1074] is not shifted out. *)
Lemma shr_fexp_keeps (m e : Z) (l : location) :
  0 < m → -1073 ≤ Zdigits2 m + e →
  0 < shr_m (shr_fexp prec emax m e l).1
  ∧ Zdigits2 (shr_m (shr_fexp prec emax m e l).1) + (shr_fexp prec emax m e l).2
    = Zdigits2 m + e.
Proof.
  intros Hm Hmag. destruct (shr_fexp_spec m e l Hm) as [-> ->].
  rewrite fexp_binary64. rewrite (Zdigits2_log2 m) in * by done.
  set (n := Z.max 0 (Z.max (Z.log2 m + 1 + e - 53) (-1074) - e)).
  assert (0 ≤ n ≤ Z.log2 m) as Hn by (pose proof (Z.log2_nonneg m); lia).
  assert (0 < Z.shiftr m n) as Hpos.
  { destruct (Z.shiftr_nonneg m n) as [_ Hge]. specialize (Hge ltac:(lia)).
    destruct (Z.shiftr_eq_0_iff m n) as [Hzero _]. lia. }
  split; [done |].
  rewrite Zdigits2_log2 by done. rewrite Z.log2_shiftr by done. lia.
Qed.

Lemma round_nearest_even_bounds (m : Z) (l : location) :
  m ≤ round_nearest_even m l ≤ m + 1.
Proof. destruct l as [| []]; simpl; try lia. destruct (Z.even m); lia. Qed.

Lemma binary_round_aux_exponent (s : bool) (mx ex : Z) (lx : location)
    (s' : bool) (m : positive) (e : Z) :
  binary_round_aux prec emax s mx ex lx = S754_finite s' m e → -1074 ≤ e.
Proof.
  unfold binary_round_aux.
  destruct (shr_fexp prec emax mx ex lx) as [mrs' e'].
  pose proof (shr_fexp_exponent
                (round_nearest_even (shr_m mrs') (loc_of_shr_record mrs')) e' loc_Exact) as He.
  destruct (shr_fexp prec emax _ e' loc_Exact) as [mrs'' e''].
  destruct (shr_m mrs''); [done | | done].
  destruct (e'' <=? emax - prec); [| done]. intros [= _ _ <-]. done.
Qed.

(** Rounding a mantissa that stands for at least [2^-1074] gives an
    infinity or a finite number that is not smaller in magnitude. *)
Lemma binary_round_aux_keeps (s : bool) (mx ex : Z) (lx : location) :
  0 < mx → -1073 ≤ Zdigits2 mx + ex →
  binary_round_aux prec emax s mx ex lx = S754_infinity s
  ∨ ∃ (m : positive) (e : Z),
      binary_round_aux prec emax s mx ex lx = S754_finite s m e
      ∧ Zdigits2 mx + ex ≤ Z.pos (digits2_pos m) + e.
Proof.
  intros Hm Hmag. unfold binary_round_aux.
  destruct (shr_fexp_keeps mx ex lx Hm Hmag) as [Hpos1 Hmag1].
  destruct (shr_fexp prec emax mx ex lx) as [mrs' e']. simpl in Hpos1, Hmag1.
  pose proof (round_nearest_even_bounds (shr_m mrs') (loc_of_shr_record mrs')) as Hround.
  set (m2 := round_nearest_even (shr_m mrs') (loc_of_shr_record mrs')) in *.
  assert (Zdigits2 (shr_m mrs') ≤ Zdigits2 m2) as Hdigits.
  { rewrite !Zdigits2_log2 by lia. pose proof (Z.log2_le_mono (shr_m mrs') m2). lia. }
  destruct (shr_fexp_keeps m2 e' loc_Exact) as [Hpos2 Hmag2]; [lia | lia |].
  destruct (shr_fexp prec emax m2 e' loc_Exact) as [mrs'' e'']. simpl in Hpos2, Hmag2.
  destruct (shr_m mrs'') as [| m | m] eqn:Hm''; [lia | | lia].
  destruct (e'' <=? emax - prec); [| by left].
  right. exists m, e''. split; [done |]. simpl in Hmag2. lia.
Qed.

(** *** Products and sums *)

Lemma strictEq_zero (x : number) :
  strictEq x zero = true ↔ ∃ s : bool, x = S754_zero s.
Proof.
  split.
  - destruct x as [s | s | | s m e]; try done; [by exists s | by destruct s | by destruct s].
  - by intros [s ->].
Qed.

Lemma mul_rounded (x y : number) : rounded (mul x y).
Proof.
  destruct x as [sx | sx | | sx mx ex], y as [sy | sy | | sy my ey]; try done.
  unfold mul, SFmul.
  destruct (binary_round_aux prec emax (xorb sx sy) (Z.pos (mx * my)) (ex + ey) loc_Exact)
    as [| | | s m e] eqn:Hround; try done.
  simpl. by eapply binary_round_aux_exponent.
Qed.

Lemma add_rounded (x y : number) : rounded x → rounded y → rounded (add x y).
Proof.
  destruct x as [sx | sx | | sx mx ex], y as [sy | sy | | sy my ey]; try done;
    try by destruct sx, sy.
  intros _ _. unfold add, SFadd, binary_normalize.
  destruct (cond_Zopp sx _ + cond_Zopp sy _) as [| p | p]; [done | |].
  - unfold binary_round. destruct (shl_align _ _ _) as [mz ez].
    destruct (binary_round_aux prec emax false (Z.pos mz) ez loc_Exact)
      as [| | | s m e] eqn:Hround; try done.
    simpl. by eapply binary_round_aux_exponent.
  - unfold binary_round. destruct (shl_align _ _ _) as [mz ez].
    destruct (binary_round_aux prec emax true (Z.pos mz) ez loc_Exact)
      as [| | | s m e] eqn:Hround; try done.
    simpl. by eapply binary_round_aux_exponent.
Qed.

Lemma Zdigits2_mul (m1 m2 : positive) :
  Z.pos (digits2_pos m1) + Z.pos (digits2_pos m2) - 1 ≤ Zdigits2 (Z.pos (m1 * m2)).
Proof.
  pose proof (Zdigits2_log2 (Z.pos m1) ltac:(done)) as H1.
  pose proof (Zdigits2_log2 (Z.pos m2) ltac:(done)) as H2.
  pose proof (Zdigits2_log2 (Z.pos (m1 * m2)) ltac:(done)) as H12.
  change (Zdigits2 (Z.pos m1)) with (Z.pos (digits2_pos m1)) in H1.
  change (Zdigits2 (Z.pos m2)) with (Z.pos (digits2_pos m2)) in H2.
  rewrite H1, H2, H12.
  pose proof (Z.log2_mul_below (Z.pos m1) (Z.pos m2) ltac:(done) ltac:(done)) as Hlog.
  rewrite Pos2Z.inj_mul. lia.
Qed.

(** The product of two numbers that are not small is not zero. *)
Lemma mul_notSmall (x y : number) :
  notSmall x → notSmall y → strictEq (mul x y) zero = false.
Proof.
  destruct x as [sx | sx | | sx mx ex], y as [sy | sy | | sy my ey]; try done;
    try by destruct sx, sy.
  simpl. intros Hx Hy. unfold mul, SFmul.
  destruct (binary_round_aux_keeps (xorb sx sy) (Z.pos (mx * my)) (ex + ey) loc_Exact)
    as [-> | (m & e & -> & _)]; [done | | |].
  - pose proof (Zdigits2_mul mx my). lia.
  - by destruct (xorb sx sy).
  - by destruct (xorb sx sy).
Qed.

(** *** Square roots *)

Lemma sqrtrem_digits (n q r : Z) :
  0 < n → Z.sqrtrem n = (q, r) → 0 < q ∧ Zdigits2 n ≤ 2 * Zdigits2 q.
Proof.
  intros Hn Hsqrt. pose proof (Z.sqrtrem_spec n ltac:(lia)) as Hspec.
  rewrite Hsqrt in Hspec. destruct Hspec as [Hnq Hr].
  assert (0 < q) as Hq by nia. split; [done |].
  rewrite !Zdigits2_log2 by done.
  destruct (Z.log2_spec q Hq) as [_ Hup].
  assert (n < 2 ^ (2 * (Z.log2 q + 1))) as Hlt.
  { pose proof (Z.log2_nonneg q) as Hlog.
    replace (2 * (Z.log2 q + 1)) with (Z.succ (Z.log2 q) + Z.succ (Z.log2 q)) by lia.
    rewrite Z.pow_add_r by lia. nia. }
  apply Z.log2_lt_pow2 in Hlt; [lia | done].
Qed.

Lemma sqrt_notSmall (x : number) :
  rounded x → strictEq x zero = false → notSmall (sqrt x).
Proof.
  destruct x as [sx | sx | | sx mx ex]; try done; [by destruct sx |].
  simpl. intros He _. destruct sx; [done |].
  unfold sqrt, SFsqrt, SFsqrt_core_binary.
  set (d := Zdigits2 (Z.pos mx)).
  set (e' := Z.min (fexp prec emax (Z.div2 (d + ex + 1))) (Z.div2 ex)).
  assert (0 ≤ ex - 2 * e') as Hs.
  { pose proof (Z.div2_odd ex) as Hodd. destruct (Z.odd ex); simpl in Hodd; lia. }
  set (m' := match ex - 2 * e' with
             | 0 => Z.pos mx
             | Z.pos _ => Z.shiftl (Z.pos mx) (ex - 2 * e')
             | Z.neg _ => 0
             end).
  assert (m' = Z.shiftl (Z.pos mx) (ex - 2 * e')) as Hm'.
  { unfold m'. destruct (ex - 2 * e') as [| p | p]; [done | done | lia]. }
  assert (0 < m') as Hpos.
  { rewrite Hm', Z.shiftl_mul_pow2 by done.
    apply Z.mul_pos_pos; [done | apply Z.pow_pos_nonneg; lia]. }
  destruct (Z.sqrtrem m') as [q r] eqn:Hsqrt.
  destruct (sqrtrem_digits m' q r Hpos Hsqrt) as [Hq Hdigits].
  assert (Zdigits2 m' = d + (ex - 2 * e')) as Hd'.
  { rewrite Hm'. rewrite Zdigits2_log2 by (by rewrite <- Hm').
    rewrite Z.log2_shiftl by done. unfold d. rewrite Zdigits2_log2 by done. lia. }
  assert (1 ≤ d) as Hd by (unfold d; simpl; lia).
  destruct (binary_round_aux_keeps false q e'
              (if r =? 0 then loc_Exact else loc_Inexact (if r <=? q then Lt else Gt)))
    as [-> | (m & e & -> & Hmag)]; [done | lia | done |].
  simpl. lia.
Qed.

(** *** The loop *)

Lemma cosineLoop_rounded (a b : list number) :
  ∀ (i : nat) (dot normA normB dot' normA' normB' : number),
  cosineLoop a b i dot normA normB = (dot', normA', normB') →
  rounded normA → rounded normB → rounded normA' ∧ rounded normB'.
Proof.
  induction a as [| av rest IH]; intros i dot normA normB dot' normA' normB'; cbn [cosineLoop].
  - by intros [= _ <- <-].
  - intros Hloop HA HB. eapply IH; [done | |]; by apply add_rounded, mul_rounded.
Qed.

Lemma cosineLoop_zero_a (a b : list number) :
  ∀ (i : nat) (dot normB dot' normA' normB' : number),
  cosineLoop a b i dot zero normB = (dot', normA', normB') →
  Forall (λ av, strictEq av zero = true) a → normA' = zero.
Proof.
  induction a as [| av rest IH]; intros i dot normB dot' normA' normB'; cbn [cosineLoop].
  - by intros [= _ <- _].
  - intros Hloop [[s ->]%strictEq_zero Hrest]%Forall_cons.
    replace (add zero (mul (S754_zero s) (S754_zero s))) with zero in Hloop
      by (by destruct s).
    by eapply IH.
Qed.

Lemma cosineLoop_zero_b (a b : list number) :
  ∀ (i : nat) (dot normA dot' normA' normB' : number),
  cosineLoop a b i dot normA zero = (dot', normA', normB') →
  (∀ j : nat, (i ≤ j < i + length a)%nat →
     ∃ bv : number, b !! j = Some bv ∧ strictEq bv zero = true) →
  normB' = zero.
Proof.
  induction a as [| av rest IH]; intros i dot normA dot' normA' normB'; cbn [cosineLoop].
  - by intros [= _ _ <-].
  - intros Hloop Hb. cbn [length] in Hb.
    destruct (Hb i ltac:(lia)) as (bv & Hbv & [s ->]%strictEq_zero).
    rewrite Hbv in Hloop. cbn [toNumber] in Hloop.
    replace (add zero (mul (S754_zero s) (S754_zero s))) with zero in Hloop
      by (by destruct s).
    eapply IH; [done |]. intros j Hj. apply Hb. lia.
Qed.

Lemma add_nan_r (x : number) : add x nan = nan.
Proof. by destruct x. Qed.

Lemma mul_nan_r (x : number) : mul x nan = nan.
Proof. by destruct x. Qed.

Lemma div_nan_r (x : number) : div x nan = nan.
Proof. by destruct x. Qed.

Lemma cosineLoop_nan_b (a b : list number) :
  ∀ (i : nat) (dot normA dot' normA' normB' : number),
  cosineLoop a b i dot normA nan = (dot', normA', normB') → normB' = nan.
Proof.
  induction a as [| av rest IH]; intros i dot normA dot' normA' normB'; cbn [cosineLoop].
  - by intros [= _ _ <-].
  - apply IH.
Qed.

Lemma cosineLoop_short_b (a b : list number) :
  ∀ (i : nat) (dot normA normB dot' normA' normB' : number),
  cosineLoop a b i dot normA normB = (dot', normA', normB') →
  (length b < i + length a)%nat → (i ≤ length b)%nat → normB' = nan.
Proof.
  induction a as [| av rest IH]; intros i dot normA normB dot' normA' normB'; cbn [cosineLoop].
  - intros _ Hlen Hi. cbn [length] in Hlen. lia.
  - intros Hloop Hlen Hi. cbn [length] in Hlen. destruct (decide (i = length b)) as [-> | Hne].
    + rewrite lookup_ge_None_2 in Hloop by done. cbn [toNumber] in Hloop.
      rewrite !mul_nan_r, !add_nan_r in Hloop. by eapply cosineLoop_nan_b.
    + eapply IH; [done | lia | lia].
Qed.

(** *** The score *)

(** C10, as the code has it.  [cosineSimilarity] is a total function: a
    read of [b] beyond its end gives [undefined] and the arithmetic goes on
    with [NaN].  It returns 0 whenever the norm of [a] or the norm of [b],
    as summed over the indices of [a], is zero.  The norm of [a] is zero
    when [a] is a zero vector, whatever [b] is, and the norm of [b] is zero
    when [b] has a zero at every index of [a], whatever [a] is; the score
    is then 0.  Whenever the division is executed, its divisor, the product
    of the square roots of the two norms, is not zero.  When [b] is
    shorter than [a], its norm is [NaN], and the score is 0 when the norm
    of [a] is zero and [NaN] when it is not. *)
Theorem cosineSimilarity_zero_norm (a b : list number) (dot normA normB : number) :
  cosineLoop a b 0 zero zero zero = (dot, normA, normB) →
  cosineSimilarity a b
  = (if strictEq normA zero || strictEq normB zero then zero
     else div dot (mul (sqrt normA) (sqrt normB)))
  ∧ (strictEq normA zero = true ∨ strictEq normB zero = true → cosineSimilarity a b = zero)
  ∧ (Forall (λ av, strictEq av zero = true) a → normA = zero ∧ cosineSimilarity a b = zero)
  ∧ ((∀ i : nat, (i < length a)%nat →
        ∃ bv : number, b !! i = Some bv ∧ strictEq bv zero = true) →
      normB = zero ∧ cosineSimilarity a b = zero)
  ∧ (strictEq normA zero = false → strictEq normB zero = false →
      cosineSimilarity a b = div dot (mul (sqrt normA) (sqrt normB))
      ∧ strictEq (mul (sqrt normA) (sqrt normB)) zero = false)
  ∧ ((length b < length a)%nat →
      normB = nan
      ∧ cosineSimilarity a b = if strictEq normA zero then zero else nan).
Proof.
  intros Hloop.
  assert (cosineSimilarity a b
          = (if strictEq normA zero || strictEq normB zero then zero
             else div dot (mul (sqrt normA) (sqrt normB)))) as Hcos.
  { unfold cosineSimilarity. by rewrite Hloop. }
  split; [done |]. rewrite Hcos. split; [| split; [| split; [| split]]].
  - intros [-> | ->]; [done | by rewrite orb_true_r].
  - intros Ha. by rewrite (cosineLoop_zero_a _ _ _ _ _ _ _ _ Hloop Ha).
  - intros Hb. rewrite (cosineLoop_zero_b _ _ _ _ _ _ _ _ Hloop).
    + by rewrite orb_true_r.
    + intros j Hj. apply Hb. simpl in Hj. lia.
  - intros HA HB. rewrite HA, HB. split; [done |].
    destruct (cosineLoop_rounded _ _ _ _ _ _ _ _ _ Hloop) as [HrA HrB]; [done | done |].
    apply mul_notSmall; by apply sqrt_notSmall.
  - intros Hlen.
    assert (normB = nan) as -> by (eapply cosineLoop_short_b; [done | simpl; lia | lia]).
    split; [done |]. rewrite orb_false_r.
    destruct (strictEq normA zero); [done |].
    by rewrite mul_nan_r, div_nan_r.
Qed.

(** C10, as stated, fails: [b = [0]] is a zero vector, and against
    [a = [1; 1]] the score is [NaN].  The loop reads [b[1]], which is
    [undefined]; the norm of [b] becomes [NaN], which is not equal to 0, and
    the division is executed with the divisor [NaN]. *)
Lemma cosineSimilarity_nan_for_zero_vector :
  Forall (λ bv, strictEq bv zero = true) [zero]
  ∧ cosineLoop [one; one] [zero] 0 zero zero zero = (nan, two, nan)
  ∧ cosineSimilarity [one; one] [zero] = nan.
Proof. split; [by repeat constructor |]. split; vm_compute; reflexivity. Qed.
End CosineFacts.

(** * The theorems at concrete inputs *)


(** C2 at a file without a final newline whose last line is replaced. *)
Lemma deriveNewContents_trailing_newline_witness :
  ∃ (originalContent : string) (replacements : list Replacement),
    fs_readFileSync "f.txt" ({[ "f.txt" := "a" +:+ NL +:+ "b" ]} : gmap string string)
    = Ok originalContent
    ∧ computeReplacements (readLines originalContent) "f.txt"
        [mkUpdateChunk ["b"] ["c"] None None] = Ok replacements
    ∧ "a" +:+ NL +:+ "c" +:+ NL
      = writeLines (applyReplacements (readLines originalContent) replacements)
    ∧ ("a" +:+ NL +:+ "c" +:+ NL = EmptyString
       ∨ JS.endsWith NL ("a" +:+ NL +:+ "c" +:+ NL) = true)
    ∧ ∀ l : string,
        last (applyReplacements (readLines originalContent) replacements) = Some l →
        l ≠ EmptyString → JS.endsWith NL l = false →
        oneTrailingNewline ("a" +:+ NL +:+ "c" +:+ NL) = true.
Proof.
  apply (deriveNewContents_trailing_newline "f.txt" [mkUpdateChunk ["b"] ["c"] None None]
           ({[ "f.txt" := "a" +:+ NL +:+ "b" ]} : gmap string string)
           ({[ "f.txt" := "a" +:+ NL +:+ "b" ]} : gmap string string)).
  vm_compute. reflexivity.
Defined.

(** C4 at a file that ends with one newline. *)
Lemma same_lines_update_is_noop_witness :
  ∃ (originalContent : string) (replacements : list Replacement),
    fs_readFileSync "f.txt" ({[ "f.txt" := "a" +:+ NL +:+ "b" +:+ NL ]} : gmap string string)
    = Ok originalContent
    ∧ computeReplacements (readLines originalContent) "f.txt"
        [mkUpdateChunk ["b"] ["b"] (Some "a") None] = Ok replacements
    ∧ applyReplacements (readLines originalContent) replacements = readLines originalContent
    ∧ "a" +:+ NL +:+ "b" +:+ NL = writeLines (readLines originalContent)
    ∧ (originalContent = EmptyString
       ∨ (oneTrailingNewline originalContent = true ∧ originalContent ≠ NL) →
       "a" +:+ NL +:+ "b" +:+ NL = originalContent).
Proof.
  apply (same_lines_update_is_noop "f.txt" [mkUpdateChunk ["b"] ["b"] (Some "a") None]
           ({[ "f.txt" := "a" +:+ NL +:+ "b" +:+ NL ]} : gmap string string)
           ({[ "f.txt" := "a" +:+ NL +:+ "b" +:+ NL ]} : gmap string string)).
  - intros chunk Hin. apply list_elem_of_singleton in Hin. subst chunk.
    split; [reflexivity | discriminate].
  - vm_compute. reflexivity.
Defined.

(** C7 on the file system in memory: the second of two Add hunks. *)
Lemma add_hunk_written_verbatim_witness :
  fs_readFileSync "a.txt"
    (applyHunksToFiles [AddHunk "d/b.txt" "x"; AddHunk "a.txt" "hello"]
       (∅ : gmap string string)).1
  = Ok "hello".
Proof.
  apply (proj1 (add_hunk_written_verbatim (FS := gmap string string))
           [AddHunk "d/b.txt" "x"] "a.txt" "hello" ∅ _
           (mkAffectedPaths ["d/b.txt"; "a.txt"] [] [])).
  vm_compute. reflexivity.
Defined.

(** C9 on the file system in memory: an Add, then a Delete of a path that
    is not there, then another Add.  The first file stays, the third hunk is
    not applied. *)
Lemma failing_hunk_halts_without_rollback_witness :
  applyHunksToFiles
    ([AddHunk "a.txt" "hello"] ++ DeleteHunk "missing" :: [AddHunk "b.txt" "x"])
    (∅ : gmap string string)
  = ({[ "a.txt" := "hello" ]}, Throw (FsError "ENOENT" "missing")).
Proof.
  refine (proj2 (proj2 (failing_hunk_halts_without_rollback (FS := gmap string string)
                          [AddHunk "a.txt" "hello"] ∅
                          ({[ "a.txt" := "hello" ]} : gmap string string)
                          (mkAffectedPaths ["a.txt"] [] []) _))
            "missing" [AddHunk "b.txt" "x"] (FsError "ENOENT" "missing") _).
  - vm_compute. reflexivity.
  - vm_compute. reflexivity.
Defined.

(** Chunks in document order on a four-line file. *)
Lemma replacements_apart_without_context_insertion_witness :
  repStart (0, 1, ["A"]) + repLen (0, 1, ["A"]) ≤ repStart (2, 2, ["C"]).
Proof.
  refine (replacements_apart_without_context_insertion ["a"; "b"; "c"; "d"] "f.txt"
            [mkUpdateChunk ["a"] ["A"] None None;
             mkUpdateChunk ["c"; "d"] ["C"] (Some "b") None]
            [(0, 1, ["A"]); (2, 2, ["C"])] _ _ 0%nat 1%nat (0, 1, ["A"]) (2, 2, ["C"])
            _ _ _ _).
  - intros chunk Hin Hold.
    apply elem_of_cons in Hin as [-> | Hin]; [discriminate |].
    apply list_elem_of_singleton in Hin. subst chunk. discriminate.
  - vm_compute. reflexivity.
  - exact (Nat.neq_0_succ 0).
  - reflexivity.
  - reflexivity.
  - unfold repStart. simpl. lia.
Defined.

(** The span [b] of the file [a b c], replaced by two lines. *)
Lemma single_chunk_replaces_span_witness :
  computeReplacements (["a"] ++ ["b"] ++ ["c"]) "f.txt"
    [mkUpdateChunk ["b"] ["x"; "y"] None None]
  = Ok [(JS.len ["a"], JS.len ["b"], ["x"; "y"])]
  ∧ applyReplacements (["a"] ++ ["b"] ++ ["c"]) [(JS.len ["a"], JS.len ["b"], ["x"; "y"])]
    = ["a"] ++ ["x"; "y"] ++ ["c"].
Proof.
  apply (single_chunk_replaces_span ["a"] ["b"] ["c"] ["x"; "y"] "f.txt" None).
  - discriminate.
  - intros k Hk Hocc. pose proof (occursAt_range _ _ _ Hocc) as [Hk0 _].
    assert (k = 0) as -> by (unfold JS.len in Hk; simpl in Hk; lia).
    destruct Hocc as (pre & post & Hlines & Hlen).
    destruct pre; [discriminate Hlines | discriminate Hlen].
Defined.

(** Two chunks written in the wrong order: the second one names a line
    that lies before the cursor. *)
Lemma old_lines_behind_cursor_not_found_witness :
  chunkStep ["a"; "b"] "f.txt" ([(1, 1, ["B"])], 2) (mkUpdateChunk ["a"] ["A"] None None)
  = Throw (ExpectedLinesNotFound "f.txt" ["a"]).
Proof.
  apply (old_lines_behind_cursor_not_found ["a"; "b"] "f.txt" [(1, 1, ["B"])] 2
           (mkUpdateChunk ["a"] ["A"] None None)).
  - reflexivity.
  - discriminate.
  - discriminate.
  - intros k Hk Hocc. apply occursAt_range in Hocc.
    unfold JS.len in Hocc. simpl in Hocc. lia.
Defined.

Lemma computeReplacements_sorted_within_file_witness :
  length [(1, 1, ["x"]); (3, 0, ["z"])]
  = length [mkUpdateChunk [] ["z"] None None; mkUpdateChunk ["b"] ["x"] None None]
  ∧ StronglySorted startsBefore [(1, 1, ["x"]); (3, 0, ["z"])]
  ∧ Forall (λ r, 0 ≤ repStart r ∧ 0 ≤ repLen r ∧ repStart r + repLen r ≤ JS.len ["a"; "b"; "c"])
      [(1, 1, ["x"]); (3, 0, ["z"])].
Proof.
  apply (computeReplacements_sorted_within_file ["a"; "b"; "c"] "f.txt"
           [mkUpdateChunk [] ["z"] None None; mkUpdateChunk ["b"] ["x"] None None]
           [(1, 1, ["x"]); (3, 0, ["z"])]).
  vm_compute. reflexivity.
Defined.

Lemma applyHunksToFiles_reports_every_hunk_witness :
  mkAffectedPaths ["a.txt"] ["a.txt"] ["a.txt"]
  = mkAffectedPaths
      (addedPaths [AddHunk "a.txt" "hello";
                   UpdateHunk "a.txt" None [mkUpdateChunk ["hello"] ["bye"] None None];
                   DeleteHunk "a.txt"])
      (modifiedPaths [AddHunk "a.txt" "hello";
                      UpdateHunk "a.txt" None [mkUpdateChunk ["hello"] ["bye"] None None];
                      DeleteHunk "a.txt"])
      (deletedPaths [AddHunk "a.txt" "hello";
                     UpdateHunk "a.txt" None [mkUpdateChunk ["hello"] ["bye"] None None];
                     DeleteHunk "a.txt"])
  ∧ (length (added (mkAffectedPaths ["a.txt"] ["a.txt"] ["a.txt"]))
     + length (modified (mkAffectedPaths ["a.txt"] ["a.txt"] ["a.txt"]))
     + length (deleted (mkAffectedPaths ["a.txt"] ["a.txt"] ["a.txt"]))
     = length [AddHunk "a.txt" "hello";
               UpdateHunk "a.txt" None [mkUpdateChunk ["hello"] ["bye"] None None];
               DeleteHunk "a.txt"])%nat
  ∧ [AddHunk "a.txt" "hello";
     UpdateHunk "a.txt" None [mkUpdateChunk ["hello"] ["bye"] None None];
     DeleteHunk "a.txt"] ≠ [].
Proof.
  apply (applyHunksToFiles_reports_every_hunk (FS := gmap string string)
           [AddHunk "a.txt" "hello";
            UpdateHunk "a.txt" None [mkUpdateChunk ["hello"] ["bye"] None None];
            DeleteHunk "a.txt"]
           ∅ ∅ (mkAffectedPaths ["a.txt"] ["a.txt"] ["a.txt"])).
  vm_compute. reflexivity.
Defined.

Lemma old_lines_retried_without_last_empty_line_witness :
  chunkStep ["a"; "b"] "f.txt" ([], 0) (mkUpdateChunk ["b"; ""] ["x"; ""] None None)
  = Ok ([] ++ [(1, JS.len ["b"],
                if bool_decide (last (new_lines (mkUpdateChunk ["b"; ""] ["x"; ""] None None))
                                = Some EmptyString)
                then JS.dropLast (new_lines (mkUpdateChunk ["b"; ""] ["x"; ""] None None))
                else new_lines (mkUpdateChunk ["b"; ""] ["x"; ""] None None))],
        1 + JS.len ["b"]).
Proof.
  apply (old_lines_retried_without_last_empty_line ["a"; "b"] "f.txt" [] 0 1
           (mkUpdateChunk ["b"; ""] ["x"; ""] None None) ["b"]).
  - reflexivity.
  - reflexivity.
  - intros k Hk (before & after & Hlines & Hlen).
    destruct before as [|? [|? [|? ?]]]; discriminate Hlines.
  - discriminate.
  - lia.
  - exists ["a"], []. split; reflexivity.
  - intros k Hk (before & after & Hlines & Hlen).
    destruct before as [|? ?]; [discriminate Hlines|].
    unfold JS.len in Hlen. simpl in Hlen. lia.
Defined.

Lemma chunkText_cuts_only_when_full_witness :
  Chunker.MAX_CHUNK_CHARS
  < Chunker.strlen
      (Chunker.content
         (Chunker.mkChunk "f.txt" 1 1 (String.string_of_list_ascii (replicate 3000 "a"%char))))
    + 1 + Chunker.strlen (String.string_of_list_ascii (replicate 3000 "b"%char)) + 1.
Proof.
  apply (chunkText_cuts_only_when_full "f.txt"
           (String.string_of_list_ascii (replicate 3000 "a"%char) +:+ NL
            +:+ String.string_of_list_ascii (replicate 3000 "b"%char))
           0
           (Chunker.mkChunk "f.txt" 1 1 (String.string_of_list_ascii (replicate 3000 "a"%char)))
           (Chunker.mkChunk "f.txt" 2 2 (String.string_of_list_ascii (replicate 3000 "b"%char)))
           (String.string_of_list_ascii (replicate 3000 "b"%char))).
  - vm_compute. reflexivity.
  - vm_compute. reflexivity.
  - vm_compute. reflexivity.
Defined.


Lemma header_path_cut_at_colon_witness :
  parsePatchHeader ["*** Add File: C:/notes.txt"] 0
  = Ok (Some (mkHeader (JS.trim " C") None (0 + 1))).
Proof.
  apply (header_path_cut_at_colon ["*** Add File: C:/notes.txt"] 0
           "*** Add File" " C" "/notes.txt").
  - by left.
  - reflexivity.
  - reflexivity.
  - discriminate.
Defined.

Lemma update_replaces_every_span_witness :
  applyReplacements ["a"; "b"; "c"; "d"] [(1, 1, ["B1"; "B2"]); (3, 1, [])]
  = rebuilt ["a"; "b"; "c"; "d"] 0 [(1, 1, ["B1"; "B2"]); (3, 1, [])].
Proof.
  apply (update_replaces_every_span ["a"; "b"; "c"; "d"] "f.txt"
           [mkUpdateChunk ["b"] ["B1"; "B2"] None None; mkUpdateChunk ["d"] [] None None]).
  - intros chunk Hin Hold.
    apply elem_of_cons in Hin as [-> | Hin]; [discriminate |].
    apply list_elem_of_singleton in Hin. subst chunk. discriminate.
  - vm_compute. reflexivity.
Defined.

Lemma update_moved_onto_itself_loses_file_witness :
  (∃ e : Error,
     fs_readFileSync "a.txt" (∅ : gmap string string) = Throw e)
  ∧ mkAffectedPaths [] ["a.txt"] [] = mkAffectedPaths [] ["a.txt"] [].
Proof.
  apply (update_moved_onto_itself_loses_file (FS := gmap string string)
           "a.txt" [mkUpdateChunk ["x"] ["y"] None None] {["a.txt" := "x"]} ∅
           (mkAffectedPaths [] ["a.txt"] [])).
  - discriminate.
  - vm_compute. reflexivity.
Defined.

Lemma short_text_is_one_chunk_witness :
  Chunker.chunkFile (λ _, ".md") "notes.md" ("# Title" +:+ NL +:+ "body")
  = [Chunker.mkChunk "notes.md" 1 (JS.len (JS.split newline ("# Title" +:+ NL +:+ "body")))
       ("# Title" +:+ NL +:+ "body")].
Proof.
  apply (short_text_is_one_chunk (λ _, ".md") "notes.md" ("# Title" +:+ NL +:+ "body")).
  - vm_compute. reflexivity.
  - vm_compute. discriminate.
  - vm_compute. repeat constructor.
Defined.

Lemma parsePatch_reads_back_rendered_hunks_witness :
  parsePatch
    (JS.join NL
       (["Here is the patch."]
        ++ patchLines
             [AddHunk "a.txt" "hello";
              DeleteHunk "old.txt";
              UpdateHunk "src/m.ts" (Some "src/n.ts")
                [mkUpdateChunk ["x"] ["y"; "z"] (Some "fn main") None;
                 mkUpdateChunk [] ["tail"] None None]]
        ++ ["Done."; "*** End Patch"]))
  = Ok [AddHunk "a.txt" "hello";
        DeleteHunk "old.txt";
        UpdateHunk "src/m.ts" (Some "src/n.ts")
          [mkUpdateChunk ["x"] ["y"; "z"] (Some "fn main") None;
           mkUpdateChunk [] ["tail"] None None]].
Proof.
  apply (parsePatch_reads_back_rendered_hunks
           [AddHunk "a.txt" "hello";
            DeleteHunk "old.txt";
            UpdateHunk "src/m.ts" (Some "src/n.ts")
              [mkUpdateChunk ["x"] ["y"; "z"] (Some "fn main") None;
               mkUpdateChunk [] ["tail"] None None]]
           ["Here is the patch."] ["Done."; "*** End Patch"]).
  - repeat constructor; try done; simpl in *; by simplify_eq.
  - by repeat constructor.
  - by repeat constructor.
  - by repeat constructor.
Defined.

Lemma indented_end_marker_add_body_runs_on_witness :
  parsePatch
    (JS.join NL (["*** Begin Patch"; "*** Add File: " +:+ "a.txt"]
                 ++ (String.append "+" <$> ["x"])
                 ++ [" *** End Patch"]
                 ++ (String.append "+" <$> ["y"])))
  = Ok [AddHunk "a.txt" (JS.join NL (["x"] ++ ["y"]))].
Proof.
  apply (indented_end_marker_add_body_runs_on "a.txt" ["x"] ["y"]).
  - by repeat constructor.
  - by repeat constructor.
  - by repeat constructor.
Defined.

Lemma update_after_add_works_on_added_contents_witness :
  ∃ updated : string,
    deriveNewContentsOf "x" "a.txt" [mkUpdateChunk ["x"] ["y"] None None] = Ok updated
    ∧ fs_readFileSync "a.txt" ({["a.txt" := "y" +:+ NL]} : gmap string string) = Ok updated
    ∧ mkAffectedPaths ["a.txt"] ["a.txt"] [] = mkAffectedPaths ["a.txt"] ["a.txt"] [].
Proof.
  apply (update_after_add_works_on_added_contents (FS := gmap string string)
           "a.txt" "x" [mkUpdateChunk ["x"] ["y"] None None] ∅ {["a.txt" := "y" +:+ NL]}
           (mkAffectedPaths ["a.txt"] ["a.txt"] [])).
  vm_compute. reflexivity.
Defined.

Section CosineWitness.
Import SpecFloat Embedder.

(** C10 at four pairs of vectors: [a = [1; 0]] and [b = [1; 1]], where the
    norms are 1 and 2 and the division is executed; the zero vector
    [a = [0; -0]] and [b = [1]]; [a = [1; 1]] and the zero vector
    [b = [0; 0]]; and [a = [1; 1]] and [b = [0]], which is shorter. *)
Lemma cosineSimilarity_zero_norm_witness :
  (cosineSimilarity [one; zero] [one; one] = div one (mul (sqrt one) (sqrt two))
   ∧ strictEq (mul (sqrt one) (sqrt two)) zero = false)
  ∧ cosineSimilarity [zero; S754_zero true] [one] = zero
  ∧ cosineSimilarity [one; one] [zero; zero] = zero
  ∧ cosineSimilarity [one; one] [zero] = nan.
Proof.
  split; [| split; [| split]].
  - destruct (cosineSimilarity_zero_norm [one; zero] [one; one] one one two)
      as (_ & _ & _ & _ & Hdiv & _); [reflexivity |].
    apply Hdiv; reflexivity.
  - destruct (cosineSimilarity_zero_norm [zero; S754_zero true] [one] nan zero nan)
      as (_ & _ & Ha & _); [reflexivity |].
    apply Ha. by repeat constructor.
  - destruct (cosineSimilarity_zero_norm [one; one] [zero; zero] zero two zero)
      as (_ & _ & _ & Hb & _); [reflexivity |].
    apply Hb. intros [| [| i]] Hi; [by exists zero | by exists zero | simpl in Hi; lia].
  - destruct (cosineSimilarity_zero_norm [one; one] [zero] nan two nan)
      as (_ & _ & _ & _ & _ & Hshort); [reflexivity |].
    destruct Hshort as [_ ->]; [simpl; lia | reflexivity].
Defined.
End CosineWitness.
